(** * Page-replacement visualizer: the simulation core

    A shallow embedding of [computeSteps] (src/script.js) and of the
    simulation loop of [simulate] (the repository's second script), with
    the properties of the specification proved about them.

    Modelling conventions.
    - The page identifiers of [computeSteps] are the values [parsePages]
      produces: numbers and strings, never NaN.  On those values
      JavaScript's [includes] (SameValueZero), [indexOf] (strict equality)
      and [Map] keys agree, so a page is any type with decidable equality
      ([Countable], to key the [lastUsed] map).
    - The pages of [simulate] are what [Number] makes of the pieces of the
      text, and one of them can be NaN, which [includes] finds and
      [indexOf] and [lastIndexOf] never do: [simulate] takes the test
      [isNaN] and searches with [strictIndexOf] and [strictLastIndexOf].
    - Array indices that JavaScript reports with the sentinel [-1] are [Z];
      values that can be [Infinity] or [-Infinity] are [num].
    - The local variables of [computeSteps] that the [forEach] callback
      mutates are threaded through the callback as a record [Vars]. *)

From stdpp Require Import base list strings gmap sorting.
From Stdlib Require Import ZArith Lia QArith.QArith_base QArith.Qround.

Close Scope Q_scope.

(** ** JavaScript numbers that may be infinite *)

Inductive num : Type :=
  | NegInf
  | Fin (z : Z)
  | PosInf.

#[global] Instance num_eq_dec : EqDecision num.
Proof. solve_decision. Defined.

(** [a < b] on JavaScript numbers. *)
Definition num_lt (a b : num) : bool :=
  match a, b with
  | NegInf, NegInf => false
  | NegInf, _ => true
  | Fin _, NegInf => false
  | Fin x, Fin y => bool_decide (x < y)%Z
  | Fin _, PosInf => true
  | PosInf, _ => false
  end.

(** [Math.min(...l)] and [Math.max(...l)]; on no arguments they are
    [Infinity] and [-Infinity]. *)
Definition num_min (a b : num) : num := if num_lt b a then b else a.
Definition num_max (a b : num) : num := if num_lt a b then b else a.
Definition Math_min (l : list num) : num := foldr num_min PosInf l.
Definition Math_max (l : list num) : num := foldr num_max NegInf l.

(** ** Array methods *)

Section Arrays.
Context {A : Type} `{EqDecision A}.

(** [l.includes(x)] *)
Definition includes (l : list A) (x : A) : bool := bool_decide (x ∈ l).

(** [l.findIndex(P)] and [l.findLastIndex(P)]: the first and the last
    position of an element that satisfies [P], or [-1]. *)
Definition findIndex (P : A → Prop) `{∀ y, Decision (P y)} (l : list A) : Z :=
  match list_find P l with
  | Some (k, _) => Z.of_nat k
  | None => -1
  end.

Definition findLastIndex (P : A → Prop) `{∀ y, Decision (P y)} (l : list A)
  : Z :=
  match list_find P (reverse l) with
  | Some (k, _) => Z.of_nat (length l) - 1 - Z.of_nat k
  | None => -1
  end.

(** [l.indexOf(x)] and [l.lastIndexOf(x)]. *)
Definition indexOf (l : list A) (x : A) : Z := findIndex (λ y, y = x) l.
Definition lastIndexOf (l : list A) (x : A) : Z :=
  findLastIndex (λ y, y = x) l.

(** The array left by [l.splice(start, deleteCount, ...items)].  A
    negative [start] counts from the end; both arguments are clamped to
    the array. *)
Definition splice (l : list A) (start deleteCount : Z) (items : list A)
  : list A :=
  let len := Z.of_nat (length l) in
  let from := if decide (start < 0)%Z then Z.max (len + start) 0
              else Z.min start len in
  let del := Z.min (Z.max deleteCount 0) (len - from) in
  take (Z.to_nat from) l ++ items ++ drop (Z.to_nat (from + del)) l.

(** [l.shift()]: the removed head ([undefined] on an empty array) and the
    array left. *)
Definition shift (l : list A) : option A * list A :=
  match l with
  | [] => (None, [])
  | x :: l' => (Some x, l')
  end.

(** [l.indexOf(o)] for a value that may be [undefined] or [null], neither
    of which is an element. *)
Definition indexOf_opt (l : list A) (o : option A) : Z :=
  match o with
  | Some x => indexOf l x
  | None => -1
  end.

(** [l.forEach((x, i) => ...)] with the variables the callback mutates
    passed along; [i] is the index of the first element of [l]. *)
Fixpoint forEach {V : Type} (f : V → A → nat → V) (l : list A) (i : nat)
    (s : V) : V :=
  match l with
  | [] => s
  | x :: l' => forEach f l' (S i) (f s x i)
  end.
End Arrays.

(** ** [clampFrames] *)

(** [Math.max(1, Math.floor(Number(val) || 0))], where [Number(val)] is
    NaN ([None]) or a finite number; NaN and [0] both become [0] before
    the floor.  Infinite values are not modelled. *)
Definition clampFrames (val : option Q) : Z :=
  let n := match val with
           | None => 0%Z
           | Some q => Qfloor q
           end in
  Z.max 1 n.

(** ** [computeSteps] *)

Section Simulator.
Context {Page : Type} `{Countable Page}.

(** The [info] text of a step record; a replaced page that is [undefined]
    or [null] is [None]. *)
Inductive Info : Type :=
  | Hit
  | PlacedIntoFreeSlot
  | FifoReplaced (old : option Page)
  | LruReplaced (oldestPage : option Page)
  | OptimalReplaced (victim : option Page).

Record Step : Type := mkStep {
  index : nat;
  page : Page;
  memory : list Page;
  hit : bool;
  replacedIndex : Z;
  info : Info
}.

Record Totals : Type := mkTotals { faults : nat; hits : nat }.

Record Result : Type := mkResult { steps : list Step; totals : Totals }.

(** The variables of [computeSteps]: [memory], [meta.fifoQueue],
    [meta.lastUsed], [result], [faults] and [hits]. *)
Record Vars : Type := mkVars {
  v_memory : list Page;
  v_fifoQueue : list Page;
  v_lastUsed : gmap Page Z;
  v_result : list Step;
  v_faults : nat;
  v_hits : nat
}.

Definition init : Vars := mkVars [] [] ∅ [] 0 0.

(** [meta.lastUsed.delete(o)] *)
Definition delete_opt (o : option Page) (m : gmap Page Z) : gmap Page Z :=
  match o with
  | Some p => delete p m
  | None => m
  end.

(** [const qidx = q.indexOf(o); if (qidx !== -1) q.splice(qidx, 1, page)] *)
Definition requeue (q : list Page) (o : option Page) (page : Page)
  : list Page :=
  let qidx := indexOf_opt q o in
  if decide (qidx = -1)%Z then q else splice q qidx 1 [page].

(** The LRU scan: [(oldestPage, oldestIndex)] after the [for] loop. *)
Definition lru_scan (lastUsed : gmap Page Z) (memory : list Page)
  : option Page * num :=
  foldl (λ '(oldestPage, oldestIndex) p,
           let last := default (-1)%Z (lastUsed !! p) in
           if num_lt (Fin last) oldestIndex then (Some p, Fin last)
           else (oldestPage, oldestIndex))
        (None, PosInf) memory.

(** The Optimal scan: [(farthest, victim)] after [memory.forEach]. *)
Definition optimal_scan (future memory : list Page) : num * option Page :=
  foldl (λ '(farthest, victim) m,
           let nextUse := indexOf future m in
           if decide (nextUse = -1)%Z then (PosInf, Some m)
           else if num_lt farthest (Fin nextUse) then (Fin nextUse, Some m)
           else (farthest, victim))
        (Fin (-1), None) memory.

(** The body of the [pages.forEach] callback. *)
Definition access (pages : list Page) (frameCount : Z) (algo : string)
    (s : Vars) (page : Page) (i : nat) : Vars :=
  let memory := v_memory s in
  if includes memory page then
    mkVars memory (v_fifoQueue s) (<[page := Z.of_nat i]> (v_lastUsed s))
      (v_result s ++ [mkStep i page memory true (-1) Hit])
      (v_faults s) (S (v_hits s))
  else
    let faults := S (v_faults s) in
    if decide (Z.of_nat (length memory) < frameCount)%Z then
      let memory := memory ++ [page] in
      mkVars memory (v_fifoQueue s ++ [page])
        (<[page := Z.of_nat i]> (v_lastUsed s))
        (v_result s ++ [mkStep i page memory false
                          (Z.of_nat (length memory) - 1) PlacedIntoFreeSlot])
        faults (v_hits s)
    else if decide (algo = "fifo") then
      let '(old, queue) := shift (v_fifoQueue s) in
      let replaceIndex := indexOf_opt memory old in
      let memory := splice memory replaceIndex 1 [page] in
      mkVars memory (queue ++ [page])
        (delete_opt old (<[page := Z.of_nat i]> (v_lastUsed s)))
        (v_result s ++ [mkStep i page memory false replaceIndex
                          (FifoReplaced old)])
        faults (v_hits s)
    else if decide (algo = "lru") then
      let oldestPage := (lru_scan (v_lastUsed s) memory).1 in
      let replaceIndex := indexOf_opt memory oldestPage in
      let memory := splice memory replaceIndex 1 [page] in
      mkVars memory (requeue (v_fifoQueue s) oldestPage page)
        (<[page := Z.of_nat i]> (delete_opt oldestPage (v_lastUsed s)))
        (v_result s ++ [mkStep i page memory false replaceIndex
                          (LruReplaced oldestPage)])
        faults (v_hits s)
    else if decide (algo = "optimal") then
      let future := drop (S i) pages in
      let victim := (optimal_scan future memory).2 in
      let replaceIndex := indexOf_opt memory victim in
      let memory := splice memory replaceIndex 1 [page] in
      mkVars memory (requeue (v_fifoQueue s) victim page)
        (<[page := Z.of_nat i]> (delete_opt victim (v_lastUsed s)))
        (v_result s ++ [mkStep i page memory false replaceIndex
                          (OptimalReplaced victim)])
        faults (v_hits s)
    else
      mkVars memory (v_fifoQueue s) (v_lastUsed s) (v_result s)
        faults (v_hits s).

(** The variables after the first [n] accesses. *)
Definition varsAt (pages : list Page) (frameCount : Z) (algo : string)
    (n : nat) : Vars :=
  forEach (access pages frameCount algo) (take n pages) 0 init.

Definition computeSteps (pages : list Page) (frameCount : Z) (algo : string)
  : Result :=
  let s := forEach (access pages frameCount algo) pages 0 init in
  mkResult (v_result s) (mkTotals (v_faults s) (v_hits s)).
End Simulator.

(** ** The simulation loop of [simulate] *)

Section Simulate.
Context {Page : Type} `{EqDecision Page}.

(** The pages of [simulate] are numbers, [pages = text.split(" ").map(Number)],
    and NaN can be one of them.  [includes] compares by SameValueZero, under
    which NaN equals itself: that is the equality of [Page].  [indexOf] and
    [lastIndexOf] compare by [===], under which NaN equals nothing and
    which is SameValueZero on every other value.  [isNaN] tells the page
    that is NaN. *)
Variable isNaN : Page → bool.

(** [l.indexOf(x)] and [l.lastIndexOf(x)] where [x] can be NaN. *)
Definition strictIndexOf (l : list Page) (x : Page) : Z :=
  if isNaN x then (-1)%Z else indexOf l x.
Definition strictLastIndexOf (l : list Page) (x : Page) : Z :=
  if isNaN x then (-1)%Z else lastIndexOf l x.

(** The variables of [simulate]: [memory], [faults], and what
    [renderStep] was called with at each access: the page, the frames
    after the access and the hit flag. *)
Record SimVars : Type := mkSimVars {
  sim_memory : list Page;
  sim_faults : nat;
  sim_output : list (Page * list Page * bool)
}.

Definition sim_init : SimVars := mkSimVars [] 0 [].

(** The body of the [pages.forEach] callback of [simulate]. *)
Definition simulate_access (pages : list Page) (frames : Z) (algo : string)
    (t : SimVars) (page : Page) (i : nat) : SimVars :=
  let memory := sim_memory t in
  let hit := includes memory page in
  if hit then
    mkSimVars memory (sim_faults t) (sim_output t ++ [(page, memory, hit)])
  else
    let faults := S (sim_faults t) in
    let memory :=
      if decide (Z.of_nat (length memory) < frames)%Z then memory ++ [page]
      else
        let memory :=
          if decide (algo = "fifo") then (shift memory).2
          else if decide (algo = "lru") then
            let past := take i pages in
            let indexes := (λ m, Fin (strictLastIndexOf past m)) <$> memory in
            let replace := indexOf indexes (Math_min indexes) in
            splice memory replace 1 []
          else if decide (algo = "optimal") then
            let future := drop (S i) pages in
            let indexes :=
              (λ m, let idx := strictIndexOf future m in
                    if decide (idx = -1)%Z then PosInf else Fin idx)
                <$> memory in
            let replace := indexOf indexes (Math_max indexes) in
            splice memory replace 1 []
          else memory in
        memory ++ [page] in
    mkSimVars memory faults (sim_output t ++ [(page, memory, hit)]).

Definition simulate (pages : list Page) (frames : Z) (algo : string)
  : SimVars :=
  forEach (simulate_access pages frames algo) pages 0 sim_init.

(** The variables of [simulate] after the first [n] accesses. *)
Definition simAt (pages : list Page) (frames : Z) (algo : string) (n : nat)
  : SimVars :=
  forEach (simulate_access pages frames algo) (take n pages) 0 sim_init.
End Simulate.

(** ** How a call completes *)

(** The two error kinds the specification names.  Nothing in the source
    raises either of them. *)
Inductive SimError : Type :=
  | InvalidCapacity
  | UnknownAlgorithm.

(** A call returns a value or throws. *)
Inductive Completion (A : Type) : Type :=
  | Returned (a : A)
  | Threw (e : SimError).
Arguments Returned {A} a.
Arguments Threw {A} e.

(** ** Observables of a run *)

Section Observables.
Context {Page : Type} `{Countable Page}.

(** [computeSteps] has no [throw] and calls only array and [Map] methods
    that cannot fail on arrays and maps: every call returns. *)
Definition computeSteps_completion (pages : list Page) (frameCount : Z)
    (algo : string) : Completion (Result (Page:=Page)) :=
  Returned (computeSteps pages frameCount algo).

Definition recognised (algo : string) : Prop :=
  algo = "fifo" ∨ algo = "lru" ∨ algo = "optimal".

(** The frame snapshot recorded at step [i - 1]; the empty frame set for
    [i = 0]. *)
Definition framesBefore (steps : list (Step (Page:=Page))) (i : nat)
  : list Page :=
  match i with
  | 0 => []
  | S j => from_option memory [] (steps !! j)
  end.

(** The index of the latest fault on [p] among the first [i] steps: the
    placement [p] is resident from, when [p] is resident; [-1] if none. *)
Definition placedAt (steps : list (Step (Page:=Page))) (i : nat) (p : Page)
  : Z :=
  findLastIndex (λ r, page r = p ∧ hit r = false) (take i steps).

(** The largest index [j ≤ i - 1] at which [p] is accessed, or [-1]. *)
Definition lastUse (pages : list Page) (i : nat) (p : Page) : Z :=
  lastIndexOf (take i pages) p.

(** The smallest index [j > i] at which [p] is accessed, or [+∞]. *)
Definition nextUse (pages : list Page) (i : nat) (p : Page) : num :=
  let k := indexOf (drop (S i) pages) p in
  if decide (k = -1)%Z then PosInf else Fin (Z.of_nat (S i) + k).

(** The page the replacement branch of [access] picks under a recognised
    algorithm: [old], [oldestPage] or [victim]. *)
Definition victimOf (pages : list Page) (algo : string)
    (s : Vars (Page:=Page)) (i : nat) : option Page :=
  if decide (algo = "fifo") then (shift (v_fifoQueue s)).1
  else if decide (algo = "lru") then (lru_scan (v_lastUsed s) (v_memory s)).1
  else (optimal_scan (drop (S i) pages) (v_memory s)).2.

(** The [info] text that branch records. *)
Definition replacedInfo (algo : string) (v : option Page) : Info :=
  if decide (algo = "fifo") then FifoReplaced v
  else if decide (algo = "lru") then LruReplaced v
  else OptimalReplaced v.

(** What holds of the variables after [n] accesses, for a capacity of at
    least one and a recognised algorithm. *)
Definition Inv (frameCount : Z) (algo : string) (n : nat)
    (s : Vars (Page:=Page)) : Prop :=
  length (v_result s) = n
  ∧ v_faults s + v_hits s = n
  ∧ v_memory s = framesBefore (v_result s) n
  ∧ (Z.of_nat (length (v_memory s)) ≤ frameCount)%Z
  ∧ NoDup (v_memory s)
  ∧ (algo = "fifo" → v_fifoQueue s ≡ₚ v_memory s).

(** Under LRU, what [meta.lastUsed] records for the resident pages. *)
Definition LruInv (pages : list Page) (n : nat) (s : Vars (Page:=Page))
  : Prop :=
  ∀ q, q ∈ v_memory s →
       q ∈ take n pages ∧ v_lastUsed s !! q = Some (lastUse pages n q).



(** [a ≤ b] on numbers that may be infinite. *)
Definition num_le (a b : num) : Prop := num_lt b a = false.

(** The frames [simulate] keeps when it evicts, before it appends the
    accessed page. *)
Definition evictOf (isNaN : Page → bool) (pages : list Page) (algo : string)
    (memory : list Page) (i : nat) : list Page :=
  if decide (algo = "fifo") then (shift memory).2
  else if decide (algo = "lru") then
    let indexes :=
      (λ m, Fin (strictLastIndexOf isNaN (take i pages) m)) <$> memory in
    splice memory (indexOf indexes (Math_min indexes)) 1 []
  else if decide (algo = "optimal") then
    let indexes :=
      (λ m, let idx := strictIndexOf isNaN (drop (S i) pages) m in
            if decide (idx = -1)%Z then PosInf else Fin idx) <$> memory in
    splice memory (indexOf indexes (Math_max indexes)) 1 []
  else memory.

(** How the variables of [simulate] relate to those of [computeSteps]
    after [n] accesses: the same fault count and hit flags, as many frames
    in use, and frames that hold the FIFO queue, the same pages, or the
    same pages among those still to be accessed. *)
Definition SimRel (pages : list Page) (algo : string) (n : nat)
    (s : Vars (Page:=Page)) (t : SimVars (Page:=Page)) : Prop :=
  sim_faults t = v_faults s
  ∧ snd <$> sim_output t = hit <$> v_result s
  ∧ NoDup (sim_memory t)
  ∧ length (sim_memory t) = length (v_memory s)
  ∧ (algo = "fifo" → sim_memory t = v_fifoQueue s)
  ∧ (algo = "lru" → sim_memory t ≡ₚ v_memory s)
  ∧ (algo = "optimal" →
     ∀ q, q ∈ drop n pages → q ∈ sim_memory t ↔ q ∈ v_memory s).
End Observables.

(** ** Bookkeeping and recency *)

Section Bookkeeping.
Context {Page : Type} `{Countable Page}.

(** What [meta.fifoQueue] and [meta.lastUsed] hold after [n] accesses: the
    queue holds the resident pages, and the map has an entry exactly for
    the resident pages, the index of the page's latest access. *)
Definition Bookkeeping (pages : list Page) (n : nat)
    (s : Vars (Page:=Page)) : Prop :=
  v_fifoQueue s ≡ₚ v_memory s
  ∧ ∀ q, v_lastUsed s !! q =
         if decide (q ∈ v_memory s) then Some (lastUse pages n q) else None.

(** The pages of a sequence, most recently accessed first. *)
Definition touch (x : Page) (l : list Page) : list Page :=
  x :: filter (λ y, y ≠ x) l.
Definition mru (l : list Page) : list Page :=
  foldl (λ acc x, touch x acc) [] l.
End Bookkeeping.

(** ** The controls of the page *)

(** The script's variables [steps], [current], [playing] and [timer], and
    what its functions read and write in the document: the three counters,
    the incoming tile, the label of the play button, the number of frame
    slots and of timeline cards, the form fields, and the page's live
    interval timers.  The text of a counter is the number written to it;
    [ui_pagesInput] is what [parsePages] makes of the text field and
    [ui_framesInput] what [Number] makes of the frames field.  The nodes
    created for slots and cards, their styles, and the drop animation with
    its [setTimeout] callbacks are not modelled: the animation only delays
    when the slots show the snapshot of the step. *)

Section Controls.
Context {Page : Type} `{Countable Page}.

Inductive Label : Type := Play | Pause.

Record Ui : Type := mkUi {
  ui_steps : list (Step (Page:=Page));
  ui_current : Z;
  ui_playing : bool;
  ui_timer : option nat;
  ui_intervals : list nat;
  ui_handles : nat;
  ui_slots : nat;
  ui_cards : nat;
  ui_totalSteps : Z;
  ui_faultsCount : Z;
  ui_hitsCount : Z;
  ui_incoming : option Page;
  ui_playLabel : Label;
  ui_pagesInput : list Page;
  ui_framesInput : option Q;
  ui_algorithm : string
}.

(** [stopPlaying].  A handle is a positive number, so [if (timer)] holds
    exactly when [timer] is not [null]. *)
Definition stopPlaying (u : Ui) : Ui :=
  let '(timer, intervals) :=
    match ui_timer u with
    | Some h =>
        if decide (h = 0) then (Some h, ui_intervals u)
        else (None, filter (λ h', h' ≠ h) (ui_intervals u))
    | None => (None, ui_intervals u)
    end in
  mkUi (ui_steps u) (ui_current u) false timer intervals (ui_handles u)
    (ui_slots u) (ui_cards u) (ui_totalSteps u) (ui_faultsCount u)
    (ui_hitsCount u) (ui_incoming u) Play (ui_pagesInput u)
    (ui_framesInput u) (ui_algorithm u).

(** [startPlaying]: [setInterval] hands out the next handle. *)
Definition startPlaying (u : Ui) : Ui :=
  if decide (length (ui_steps u) = 0) then u
  else
    let h := S (ui_handles u) in
    mkUi (ui_steps u) (ui_current u) true (Some h) (ui_intervals u ++ [h]) h
      (ui_slots u) (ui_cards u) (ui_totalSteps u) (ui_faultsCount u)
      (ui_hitsCount u) (ui_incoming u) Pause (ui_pagesInput u)
      (ui_framesInput u) (ui_algorithm u).

Definition playToggle (u : Ui) : Ui :=
  if ui_playing u then stopPlaying u else startPlaying u.

(** The slot [applyStep] drops the tile on. *)
Definition targetIdx (st : Step (Page:=Page)) : Z :=
  if decide (replacedIndex st ≠ -1)%Z then replacedIndex st
  else (Z.of_nat (length (memory st)) - 1)%Z.

(** What [finish] leaves in the [n] slots: the pages of the snapshot, then
    placeholders. *)
Definition slotContents (st : Step (Page:=Page)) (n : nat)
  : list (option Page) :=
  (λ i, memory st !! i) <$> seq 0 n.

(** [applyStep], but for the animation. *)
Definition applyStep (idx : Z) (animated : bool) (u : Ui) : Ui :=
  if decide (idx < 0 ∨ Z.of_nat (length (ui_steps u)) ≤ idx)%Z then u
  else
    match ui_steps u !! Z.to_nat idx with
    | None => u
    | Some st =>
        let faults :=
          Z.of_nat (length (filter (λ s, hit s = false)
                              (take (Z.to_nat (idx + 1)) (ui_steps u)))) in
        let hits := (idx + 1 - faults)%Z in
        mkUi (ui_steps u) idx (ui_playing u) (ui_timer u) (ui_intervals u)
          (ui_handles u) (ui_slots u) (ui_cards u)
          (Z.of_nat (length (ui_steps u))) faults hits (Some (page st))
          (ui_playLabel u) (ui_pagesInput u) (ui_framesInput u)
          (ui_algorithm u)
    end.

Definition goToStep (i : Z) (u : Ui) : Ui :=
  let i := if decide (i < 0)%Z then 0%Z else i in
  let i := if decide (Z.of_nat (length (ui_steps u)) ≤ i)%Z
           then (Z.of_nat (length (ui_steps u)) - 1)%Z else i in
  applyStep i true u.

Definition nextStep (u : Ui) : Ui :=
  if decide (ui_current u < Z.of_nat (length (ui_steps u)) - 1)%Z
  then goToStep (ui_current u + 1) u
  else stopPlaying u.

Definition prevStep (u : Ui) : Ui :=
  if decide (ui_current u > 0)%Z then goToStep (ui_current u - 1) u else u.

(** The callback [startPlaying] hands to [setInterval]. *)
Definition tick (u : Ui) : Ui :=
  let prev := ui_current u in
  let u := nextStep u in
  if decide (ui_current u = prev) then stopPlaying u else u.

Definition resetToInitial (u : Ui) : Ui :=
  if decide (length (ui_steps u) = 0) then u
  else
    stopPlaying
      (mkUi (ui_steps u) (-1) (ui_playing u) (ui_timer u) (ui_intervals u)
         (ui_handles u) (ui_slots u) (ui_cards u) (ui_totalSteps u) 0 0
         None (ui_playLabel u) (ui_pagesInput u) (ui_framesInput u)
         (ui_algorithm u)).

Definition clearVisualization (u : Ui) : Ui :=
  stopPlaying
    (mkUi [] (-1) (ui_playing u) (ui_timer u) (ui_intervals u)
       (ui_handles u) 0 0 0 0 0 None (ui_playLabel u) (ui_pagesInput u)
       (ui_framesInput u) (ui_algorithm u)).

Definition buildFrameSlots (n : Z) (u : Ui) : Ui :=
  mkUi (ui_steps u) (ui_current u) (ui_playing u) (ui_timer u)
    (ui_intervals u) (ui_handles u) (Z.to_nat n) (ui_cards u)
    (ui_totalSteps u) (ui_faultsCount u) (ui_hitsCount u) (ui_incoming u)
    (ui_playLabel u) (ui_pagesInput u) (ui_framesInput u) (ui_algorithm u).

(** The listener of the simulate button. *)
Definition onSimulate (u : Ui) : Ui :=
  let u := stopPlaying u in
  let pages := ui_pagesInput u in
  if decide (length pages = 0) then u
  else
    let frameCount := clampFrames (ui_framesInput u) in
    let u := buildFrameSlots frameCount u in
    let res := computeSteps pages frameCount (ui_algorithm u) in
    let u :=
      mkUi (steps res) (-1) (ui_playing u) (ui_timer u) (ui_intervals u)
        (ui_handles u) (ui_slots u) (length (steps res))
        (Z.of_nat (length (steps res))) 0 0 (ui_incoming u) (ui_playLabel u)
        (ui_pagesInput u) (Some (inject_Z frameCount)) (ui_algorithm u) in
    if decide (length (ui_steps u) = 0) then u else goToStep 0 u.

(** The listener of the clear button. *)
Definition onClear (u : Ui) : Ui :=
  let u := stopPlaying u in
  let u :=
    mkUi (ui_steps u) (ui_current u) (ui_playing u) (ui_timer u)
      (ui_intervals u) (ui_handles u) (ui_slots u) (ui_cards u)
      (ui_totalSteps u) (ui_faultsCount u) (ui_hitsCount u) (ui_incoming u)
      (ui_playLabel u) [] (Some (inject_Z 3)) "fifo" in
  buildFrameSlots 3 (clearVisualization u).

(** What happens on the page: edits of the form (typing or a preset),
    clicks, and the firing of interval [h]. *)
Inductive Event : Type :=
  | EditPages (pages : list Page)
  | EditFrames (val : option Q)
  | SelectAlgorithm (algo : string)
  | ClickSimulate
  | ClickStepForward
  | ClickStepBack
  | ClickPlayPause
  | ClickReset
  | ClickClear
  | ClickCard (idx : nat)
  | Fire (h : nat).

Definition handle (u : Ui) (e : Event) : Ui :=
  match e with
  | EditPages pages =>
      mkUi (ui_steps u) (ui_current u) (ui_playing u) (ui_timer u)
        (ui_intervals u) (ui_handles u) (ui_slots u) (ui_cards u)
        (ui_totalSteps u) (ui_faultsCount u) (ui_hitsCount u)
        (ui_incoming u) (ui_playLabel u) pages (ui_framesInput u)
        (ui_algorithm u)
  | EditFrames val =>
      mkUi (ui_steps u) (ui_current u) (ui_playing u) (ui_timer u)
        (ui_intervals u) (ui_handles u) (ui_slots u) (ui_cards u)
        (ui_totalSteps u) (ui_faultsCount u) (ui_hitsCount u)
        (ui_incoming u) (ui_playLabel u) (ui_pagesInput u) val
        (ui_algorithm u)
  | SelectAlgorithm algo =>
      mkUi (ui_steps u) (ui_current u) (ui_playing u) (ui_timer u)
        (ui_intervals u) (ui_handles u) (ui_slots u) (ui_cards u)
        (ui_totalSteps u) (ui_faultsCount u) (ui_hitsCount u)
        (ui_incoming u) (ui_playLabel u) (ui_pagesInput u)
        (ui_framesInput u) algo
  | ClickSimulate => onSimulate u
  | ClickStepForward => nextStep (stopPlaying u)
  | ClickStepBack => prevStep (stopPlaying u)
  | ClickPlayPause => playToggle u
  | ClickReset => resetToInitial (stopPlaying u)
  | ClickClear => onClear u
  | ClickCard idx =>
      if decide (idx < ui_cards u) then goToStep (Z.of_nat idx) u else u
  | Fire h => if decide (h ∈ ui_intervals u) then tick u else u
  end.

(** A page as the script finds it when it is loaded: no steps, nothing
    playing, no interval. *)
Definition loaded (u : Ui) : Prop :=
  ui_steps u = [] ∧ ui_current u = (-1)%Z ∧ ui_playing u = false
  ∧ ui_timer u = None ∧ ui_intervals u = [] ∧ ui_cards u = 0
  ∧ ui_playLabel u = Play ∧ recognised (ui_algorithm u).

(** An event the form allows: the selector offers the three algorithms. *)
Definition offered (e : Event) : Prop :=
  match e with
  | SelectAlgorithm algo => recognised algo
  | _ => True
  end.

(** What holds of the page whatever happens on it. *)
Definition UiInv (u : Ui) : Prop :=
  (ui_current u = (-1)%Z
   ∨ (0 ≤ ui_current u < Z.of_nat (length (ui_steps u)))%Z)
  ∧ match ui_timer u with
    | Some h => ui_playing u = true ∧ ui_intervals u = [h] ∧ h ≠ 0
                ∧ ui_steps u ≠ []
    | None => ui_playing u = false ∧ ui_intervals u = []
    end
  ∧ ui_playLabel u = (if ui_playing u then Pause else Play)
  ∧ ui_cards u = length (ui_steps u)
  ∧ recognised (ui_algorithm u)
  ∧ (ui_steps u = []
     ∨ ∃ pages C algo, (1 ≤ C)%Z ∧ recognised algo
         ∧ ui_steps u = steps (computeSteps pages C algo)
         ∧ ui_slots u = Z.to_nat C)
  ∧ ((0 ≤ ui_current u)%Z →
     ui_totalSteps u = Z.of_nat (length (ui_steps u))
     ∧ ui_faultsCount u =
         Z.of_nat (length (filter (λ s, hit s = false)
                             (take (Z.to_nat (ui_current u + 1))
                                (ui_steps u))))
     ∧ ui_hitsCount u = (ui_current u + 1 - ui_faultsCount u)%Z
     ∧ ui_incoming u = page <$> ui_steps u !! Z.to_nat (ui_current u)).
End Controls.

(** ** [parsePages] *)

(** A JavaScript string is its sequence of UTF-16 code units.  [Number],
    the conversion of a token to a number, is a parameter: [None] stands
    for NaN. *)

(** The code units [\s] matches and [trim] strips: white space and line
    terminators. *)
Definition isSpace (c : N) : bool :=
  bool_decide (c ∈ [9; 10; 11; 12; 13; 32; 160; 5760; 8192; 8193; 8194; 8195;
                    8196; 8197; 8198; 8199; 8200; 8201; 8202; 8232; 8233;
                    8239; 8287; 12288; 65279]%N).

(** What [[\s,;]] matches. *)
Definition isSeparator (c : N) : bool :=
  isSpace c || bool_decide (c = 44%N) || bool_decide (c = 59%N).

Fixpoint trimStart (s : list N) : list N :=
  match s with
  | [] => []
  | c :: s' => if isSpace c then trimStart s' else s
  end.

(** [s.trim()] *)
Definition trim (s : list N) : list N :=
  reverse (trimStart (reverse (trimStart s))).

(** [s.split(/[\s,;]+/)], reading [s] from the left: [cur] is the piece
    being read, latest unit first, and [insep] tells that the unit before
    was a separator.  Every maximal run of separators ends a piece, also
    at the very start; the last piece is always kept, also when empty. *)
Fixpoint split_go (cur : list N) (insep : bool) (s : list N)
  : list (list N) :=
  match s with
  | [] => [reverse cur]
  | c :: s' =>
      if isSeparator c then
        if insep then split_go [] true s'
        else reverse cur :: split_go [] true s'
      else split_go (c :: cur) false s'
  end.

Definition split (s : list N) : list (list N) := split_go [] false s.

(** [input.trim().split(/[\s,;]+/)] *)
Definition tokens (input : list N) : list (list N) := split (trim input).

(** A page identifier: a number, or the token itself when it is not one. *)
Inductive Token (A : Type) : Type :=
  | TNum (n : A)
  | TStr (s : list N).
Arguments TNum {A} n.
Arguments TStr {A} s.

Definition parsePages {A : Type} (Number : list N → option A)
    (input : list N) : list (Token A) :=
  if decide (input = []) then []
  else
    (λ s, match Number s with
          | Some n => TNum n
          | None => TStr s
          end) <$> tokens input.

(** A first piece followed by separator runs and further pieces. *)
Fixpoint weave (t : list N) (rest : list (list N * list N)) : list N :=
  match rest with
  | [] => t
  | (sep, t') :: rest' => t ++ sep ++ weave t' rest'
  end.

(** ** Scenario 1 of the specification *)

Definition scenario1 : list Z := [7; 0; 1; 2; 0; 3; 0; 4]%Z.

(** ** Numbers that can be NaN *)

(** Numbers for the runs below: NaN ([None]) or an integer. *)
Definition number_isNaN (p : option Z) : bool :=
  match p with
  | None => true
  | Some _ => false
  end.

(** The pages of the text [x 1 2 x 3 x]. *)
Definition pagesNaN : list (option Z) :=
  [None; Some 1; Some 2; None; Some 3; None]%Z.

(** ** A session on the page *)

(** The page as loaded, with the form's defaults. *)
Definition page0 : Ui (Page:=Z) :=
  mkUi [] (-1) false None [] 0 3 0 0 0 0 None Play [] (Some (inject_Z 3))
    "fifo".

(** Scenario 1 is typed in, LRU selected, the run simulated. *)
Definition session1 : list (Event (Page:=Z)) :=
  [EditPages scenario1; EditFrames (Some (inject_Z 3)); SelectAlgorithm "lru";
   ClickSimulate].

(** * Properties *)

(** ** Facts about the array methods *)

Section ArrayFacts.
Context {A : Type} `{EqDecision A}.
Implicit Types (l : list A) (x y : A).

Lemma includes_true l x : includes l x = true ↔ x ∈ l.
Proof. apply bool_decide_eq_true. Qed.

Lemma includes_false l x : includes l x = false ↔ x ∉ l.
Proof. apply bool_decide_eq_false. Qed.

Lemma findIndex_ge P `{∀ y, Decision (P y)} l : (-1 ≤ findIndex P l)%Z.
Proof. unfold findIndex. destruct (list_find P l) as [[k ?]|]; lia. Qed.

Lemma findIndex_found P `{∀ y, Decision (P y)} l (k : nat) :
  findIndex P l = Z.of_nat k ↔
  ∃ y, l !! k = Some y ∧ P y ∧ ∀ j z, l !! j = Some z → j < k → ¬ P z.
Proof.
  unfold findIndex. destruct (list_find P l) as [[k' y]|] eqn:E.
  - apply list_find_Some in E. split.
    + intros Hk. assert (k' = k) as -> by lia. eauto.
    + intros (z & Hz & HP & Hmin). f_equal.
      destruct E as (Hy & HPy & Hmin').
      destruct (Nat.lt_trichotomy k' k) as [Hlt|[->|Hlt]]; [|done|].
      * by destruct (Hmin _ _ Hy Hlt).
      * by destruct (Hmin' _ _ Hz Hlt).
  - apply list_find_None in E. split; [lia|].
    intros (y & Hy & HP & _). rewrite Forall_forall in E.
    destruct (E y); [by eapply list_elem_of_lookup_2|done].
Qed.

Lemma findIndex_none P `{∀ y, Decision (P y)} l :
  findIndex P l = (-1)%Z ↔ ∀ y, y ∈ l → ¬ P y.
Proof.
  unfold findIndex. destruct (list_find P l) as [[k y]|] eqn:E.
  - apply list_find_Some in E as (Hy & HP & _). split; [lia|].
    intros Hno. destruct (Hno y); [by eapply list_elem_of_lookup_2|done].
  - apply list_find_None in E. rewrite Forall_forall in E. done.
Qed.

Lemma findIndex_cases P `{∀ y, Decision (P y)} l :
  findIndex P l = (-1)%Z ∨ ∃ k : nat, findIndex P l = Z.of_nat k.
Proof.
  unfold findIndex. destruct (list_find P l) as [[k ?]|]; eauto.
Qed.

Lemma indexOf_none l x : indexOf l x = (-1)%Z ↔ x ∉ l.
Proof.
  unfold indexOf. rewrite (findIndex_none (λ y, y = x)). split.
  - intros Hno Hx. by eapply Hno.
  - by intros Hx y Hy ->.
Qed.

Lemma indexOf_elem l x :
  x ∈ l →
  ∃ k : nat, indexOf l x = Z.of_nat k ∧ l !! k = Some x
             ∧ ∀ j, j < k → l !! j ≠ Some x.
Proof.
  intros Hx. destruct (findIndex_cases (λ y, y = x) l) as [Hn|[k Hk]].
  - by apply indexOf_none in Hn.
  - exists k. split; [done|].
    apply (findIndex_found (λ y, y = x)) in Hk as (y & Hy & -> & Hmin).
    split; [done|]. intros j Hj Hl. by eapply Hmin.
Qed.

Lemma indexOf_notin l x : x ∉ l → indexOf l x = (-1)%Z.
Proof. apply indexOf_none. Qed.

Lemma indexOf_neg l x : indexOf l x = (-1)%Z → x ∉ l.
Proof. apply indexOf_none. Qed.

Lemma indexOf_first l x (k : nat) :
  l !! k = Some x → (∀ j, j < k → l !! j ≠ Some x) →
  indexOf l x = Z.of_nat k.
Proof.
  intros Hk Hmin. apply (findIndex_found (λ y, y = x)). exists x. split_and!; [done..|].
  intros j z Hj Hlt ->. by eapply Hmin.
Qed.

Lemma indexOf_NoDup l x (k : nat) :
  NoDup l → l !! k = Some x → indexOf l x = Z.of_nat k.
Proof.
  intros Hnd Hk. apply indexOf_first; [done|].
  intros j Hj Hl. pose proof (NoDup_lookup _ _ _ _ Hnd Hl Hk). lia.
Qed.

Lemma findLastIndex_snoc P `{∀ y, Decision (P y)} l x :
  findLastIndex P (l ++ [x]) =
  if decide (P x) then Z.of_nat (length l) else findLastIndex P l.
Proof.
  unfold findLastIndex. rewrite reverse_snoc, length_app. simpl.
  destruct (decide (P x)); simpl; [lia|].
  destruct (list_find P (reverse l)) as [[k ?]|]; simpl; [lia|done].
Qed.

Lemma findLastIndex_nil P `{∀ y, Decision (P y)} :
  findLastIndex P [] = (-1)%Z.
Proof. done. Qed.

Lemma findLastIndex_range P `{∀ y, Decision (P y)} l :
  (-1 ≤ findLastIndex P l < Z.of_nat (length l))%Z.
Proof.
  induction l as [|x l IH] using rev_ind; [done|].
  rewrite findLastIndex_snoc, length_app. simpl. case_decide; lia.
Qed.

Lemma findLastIndex_found P `{∀ y, Decision (P y)} l (k : nat) :
  findLastIndex P l = Z.of_nat k → ∃ y, l !! k = Some y ∧ P y.
Proof.
  induction l as [|x l IH] using rev_ind;
    [rewrite findLastIndex_nil; lia|].
  rewrite findLastIndex_snoc. case_decide.
  - intros Hk. assert (k = length l) as -> by lia. exists x.
    by rewrite lookup_app_r, Nat.sub_diag by lia.
  - intros Hk. destruct (IH Hk) as (y & Hy & HP). exists y.
    split; [|done]. by apply lookup_app_l_Some.
Qed.

Lemma findLastIndex_none P `{∀ y, Decision (P y)} l :
  findLastIndex P l = (-1)%Z ↔ ∀ y, y ∈ l → ¬ P y.
Proof.
  induction l as [|x l IH] using rev_ind.
  - split; [|done]. intros _ y Hy. by apply elem_of_nil in Hy.
  - rewrite findLastIndex_snoc. case_decide.
    + split; [lia|]. intros Hno.
      destruct (Hno x); [apply elem_of_app; right; by left|done].
    + rewrite IH. split.
      * intros Hno y [Hy| ->%list_elem_of_singleton]%elem_of_app; eauto.
      * intros Hno y Hy. apply Hno, elem_of_app. by left.
Qed.

Lemma lastIndexOf_snoc l x y :
  lastIndexOf (l ++ [x]) y =
  if decide (x = y) then Z.of_nat (length l) else lastIndexOf l y.
Proof.
  unfold lastIndexOf. by rewrite (findLastIndex_snoc (λ z, z = y)).
Qed.

Lemma lastIndexOf_range l x : (-1 ≤ lastIndexOf l x < Z.of_nat (length l))%Z.
Proof. apply (findLastIndex_range (λ z, z = x)). Qed.

Lemma lastIndexOf_none l x : lastIndexOf l x = (-1)%Z ↔ x ∉ l.
Proof.
  unfold lastIndexOf. rewrite (findLastIndex_none (λ z, z = x)). split.
  - intros Hno Hx. by eapply Hno.
  - by intros Hx y Hy ->.
Qed.

Lemma lastIndexOf_elem l x : x ∈ l → (0 ≤ lastIndexOf l x)%Z.
Proof.
  intros Hx. pose proof (lastIndexOf_range l x).
  destruct (decide (lastIndexOf l x = -1)%Z) as [Hn|]; [|lia].
  by apply lastIndexOf_none in Hn.
Qed.

Lemma lastIndexOf_notin l x : x ∉ l → lastIndexOf l x = (-1)%Z.
Proof. apply lastIndexOf_none. Qed.

Lemma lastIndexOf_inj l x y :
  (0 ≤ lastIndexOf l x)%Z → lastIndexOf l x = lastIndexOf l y → x = y.
Proof.
  intros Hx Heq.
  destruct (findLastIndex_found (λ z, z = x) l (Z.to_nat (lastIndexOf l x)))
    as (z & Hz & ->); [unfold lastIndexOf in *; lia|].
  destruct (findLastIndex_found (λ z, z = y) l (Z.to_nat (lastIndexOf l x)))
    as (z' & Hz' & ->); [unfold lastIndexOf in *; lia|].
  congruence.
Qed.

Lemma splice_replace l (k : nat) x :
  k < length l → splice l (Z.of_nat k) 1 [x] = <[k:=x]> l.
Proof.
  intros Hk. unfold splice. case_decide as Hneg; [lia|]. clear Hneg.
  replace (Z.to_nat (Z.min (Z.of_nat k) (Z.of_nat (length l)))) with k by lia.
  replace (Z.to_nat _) with (S k) by lia.
  revert k Hk. induction l as [|y l IH]; intros [|k] Hk; simpl in *;
    try lia; [by rewrite drop_0|].
  f_equal. apply IH. lia.
Qed.

Lemma splice_remove l (k : nat) :
  k < length l → splice l (Z.of_nat k) 1 [] = delete k l.
Proof.
  intros Hk. unfold splice. case_decide as Hneg; [lia|]. clear Hneg.
  replace (Z.to_nat (Z.min (Z.of_nat k) (Z.of_nat (length l)))) with k by lia.
  replace (Z.to_nat _) with (S k) by lia.
  revert k Hk. induction l as [|y l IH]; intros [|k] Hk; simpl in *;
    try lia; [by rewrite drop_0|].
  f_equal. apply IH. lia.
Qed.

Lemma forEach_app {V} (f : V → A → nat → V) l1 l2 i s :
  forEach f (l1 ++ l2) i s = forEach f l2 (i + length l1) (forEach f l1 i s).
Proof.
  revert i s. induction l1 as [|x l1 IH]; intros i s; simpl.
  - by rewrite Nat.add_0_r.
  - rewrite IH. f_equal. lia.
Qed.

Lemma forEach_take_S {V} (f : V → A → nat → V) l n x s :
  l !! n = Some x →
  forEach f (take (S n) l) 0 s = f (forEach f (take n l) 0 s) x n.
Proof.
  intros Hx. rewrite (take_S_r _ _ _ Hx), forEach_app. simpl.
  rewrite length_take_le; [done|]. apply lookup_lt_Some in Hx. lia.
Qed.
Lemma elem_of_splice (l items : list A) start count q :
  q ∈ splice l start count items → q ∈ l ∨ q ∈ items.
Proof.
  unfold splice. rewrite !elem_of_app.
  intros [Hq|[Hq|Hq]]; [left|by right|left].
  - by eapply subseteq_take.
  - by eapply subseteq_drop.
Qed.

End ArrayFacts.

(** ** One access *)

Section AccessFacts.
Context {Page : Type} `{Countable Page}.
Implicit Types (pages : list Page) (s : Vars (Page:=Page)) (x : Page).
Implicit Types (C : Z) (algo : string) (i n : nat).

Lemma recognised_cases algo :
  recognised algo →
  algo = "fifo" ∨ (algo ≠ "fifo" ∧ algo = "lru")
  ∨ (algo ≠ "fifo" ∧ algo ≠ "lru" ∧ algo = "optimal").
Proof. intros [-> | [-> | ->]]; [by left|right; by left|right; by right]. Qed.

Lemma access_hit pages C algo s x i :
  x ∈ v_memory s →
  access pages C algo s x i =
  mkVars (v_memory s) (v_fifoQueue s) (<[x := Z.of_nat i]> (v_lastUsed s))
    (v_result s ++ [mkStep i x (v_memory s) true (-1) Hit])
    (v_faults s) (S (v_hits s)).
Proof. intros Hx%includes_true. unfold access. by rewrite Hx. Qed.

Lemma access_free pages C algo s x i :
  x ∉ v_memory s → (Z.of_nat (length (v_memory s)) < C)%Z →
  access pages C algo s x i =
  mkVars (v_memory s ++ [x]) (v_fifoQueue s ++ [x])
    (<[x := Z.of_nat i]> (v_lastUsed s))
    (v_result s ++ [mkStep i x (v_memory s ++ [x]) false
                      (Z.of_nat (length (v_memory s ++ [x])) - 1)
                      PlacedIntoFreeSlot])
    (S (v_faults s)) (v_hits s).
Proof.
  intros Hx%includes_false Hlt. unfold access. rewrite Hx.
  by rewrite decide_True.
Qed.

(** A fault with no free slot, under a recognised algorithm: the frames,
    the record and the counters. *)
Lemma access_full pages C algo s x i :
  recognised algo →
  x ∉ v_memory s → ¬ (Z.of_nat (length (v_memory s)) < C)%Z →
  let v := victimOf pages algo s i in
  let s' := access pages C algo s x i in
  v_memory s' = splice (v_memory s) (indexOf_opt (v_memory s) v) 1 [x]
  ∧ v_result s' =
      v_result s ++ [mkStep i x (v_memory s') false
                       (indexOf_opt (v_memory s) v) (replacedInfo algo v)]
  ∧ v_faults s' = S (v_faults s) ∧ v_hits s' = v_hits s.
Proof.
  intros Halgo Hx%includes_false Hfull. unfold access, victimOf, replacedInfo.
  rewrite Hx, decide_False by done.
  destruct (recognised_cases algo Halgo) as [-> | [[? ->] | (? & ? & ->)]].
  - rewrite !decide_True by done. by destruct (shift (v_fifoQueue s)).
  - repeat (case_decide; try done).
  - repeat (case_decide; try done).
Qed.

Lemma access_full_fifo pages C s x i :
  x ∉ v_memory s → ¬ (Z.of_nat (length (v_memory s)) < C)%Z →
  v_fifoQueue (access pages C "fifo" s x i) = (shift (v_fifoQueue s)).2 ++ [x].
Proof.
  intros Hx%includes_false Hfull. unfold access.
  rewrite Hx, decide_False, decide_True by done.
  by destruct (shift (v_fifoQueue s)).
Qed.

Lemma access_full_lru pages C s x i :
  x ∉ v_memory s → ¬ (Z.of_nat (length (v_memory s)) < C)%Z →
  v_lastUsed (access pages C "lru" s x i) =
  <[x := Z.of_nat i]>
    (delete_opt (lru_scan (v_lastUsed s) (v_memory s)).1 (v_lastUsed s)).
Proof.
  intros Hx%includes_false Hfull. unfold access.
  by rewrite Hx, !decide_False, decide_True by done.
Qed.

(** Under any selector: an access appends at most one record, describing
    that access, and counts once. *)
Lemma access_emits pages C algo s x i :
  let s' := access pages C algo s x i in
  v_faults s' + v_hits s' = S (v_faults s + v_hits s)
  ∧ ((v_result s' = v_result s ∧ v_memory s' = v_memory s
      ∧ ¬ recognised algo)
     ∨ ∃ r, v_result s' = v_result s ++ [r] ∧ index r = i ∧ page r = x
            ∧ memory r = v_memory s'
            ∧ hit r = includes (v_memory s) x).
Proof.
  unfold access. destruct (includes (v_memory s) x) eqn:Hinc; simpl.
  { split; [lia|]. right. eexists. by split_and!. }
  case_decide; simpl.
  { split; [lia|]. right. eexists. by split_and!. }
  case_decide.
  { destruct (shift (v_fifoQueue s)). simpl.
    split; [lia|]. right. eexists. by split_and!. }
  repeat case_decide; simpl; (split; [lia|]);
    try (right; eexists; by split_and!).
  left. split_and!; [done..|]. by intros [?|[?|?]].
Qed.
End AccessFacts.

(** ** The victim scans *)

Section ScanFacts.
Context {Page : Type} `{Countable Page}.
Implicit Types (l future : list Page) (lu : gmap Page Z).

Lemma lookup_snoc_inv {B} (l : list B) (x y : B) j :
  (l ++ [x]) !! j = Some y →
  (j < length l ∧ l !! j = Some y) ∨ (j = length l ∧ y = x).
Proof.
  intros Hj. destruct (decide (j < length l)) as [Hlt|Hge].
  - left. by rewrite lookup_app_l in Hj.
  - right. rewrite lookup_app_r in Hj by lia.
    destruct (j - length l) as [|d] eqn:E; simpl in Hj; [|done].
    split; [lia|congruence].
Qed.

(** The LRU scan keeps the first page with the smallest recorded use. *)
Lemma lru_scan_inv lu l :
  let val p := default (-1)%Z (lu !! p) in
  match lru_scan lu l with
  | (None, b) => l = [] ∧ b = PosInf
  | (Some v, b) =>
      b = Fin (val v)
      ∧ ∃ k, l !! k = Some v
             ∧ (∀ j q, l !! j = Some q → (val v ≤ val q)%Z)
             ∧ (∀ j q, j < k → l !! j = Some q → (val v < val q)%Z)
  end.
Proof.
  intros val. unfold lru_scan.
  assert (∀ p, default (-1)%Z (lu !! p) = val p) as Hval by done.
  clearbody val.
  induction l as [|x l IH] using rev_ind; [done|].
  rewrite foldl_snoc.
  destruct (foldl _ _ l) as [[v|] b]; simpl; rewrite Hval.
  - destruct IH as (-> & k & Hk & Hmin & Hfirst). simpl.
    case_bool_decide as Hlt.
    + split; [done|]. exists (length l). split_and!.
      * by rewrite lookup_app_r, Nat.sub_diag by lia.
      * intros j q [[_ Hq]|[_ ->]]%lookup_snoc_inv; [|lia].
        specialize (Hmin _ _ Hq). lia.
      * intros j q Hj Hq. rewrite lookup_app_l in Hq by done.
        specialize (Hmin _ _ Hq). lia.
    + split; [done|]. exists k. split_and!.
      * by apply lookup_app_l_Some.
      * intros j q [[_ Hq]|[_ ->]]%lookup_snoc_inv; [by eapply Hmin|lia].
      * intros j q Hj Hq. apply lookup_lt_Some in Hk.
        rewrite lookup_app_l in Hq by lia. by eapply Hfirst.
  - destruct IH as [-> ->]. simpl. split; [done|]. exists 0. split_and!.
    + done.
    + by intros [|[|j]] q [= ->].
    + intros j q Hj. lia.
Qed.

(** The Optimal scan keeps the last page that is never used again if there
    is one, and the first page with the farthest next use otherwise. *)
Lemma optimal_scan_inv future l :
  let nxt p := indexOf future p in
  match optimal_scan future l with
  | (f, None) => l = [] ∧ f = Fin (-1)
  | (f, Some v) =>
      ∃ k, l !! k = Some v
           ∧ ((f = PosInf ∧ nxt v = (-1)%Z
               ∧ ∀ j q, k < j → l !! j = Some q → nxt q ≠ (-1)%Z)
              ∨ (f = Fin (nxt v)
                 ∧ (∀ j q, l !! j = Some q → (0 ≤ nxt q ≤ nxt v)%Z)
                 ∧ (∀ j q, j < k → l !! j = Some q → (nxt q < nxt v)%Z)))
  end.
Proof.
  intros nxt. unfold optimal_scan.
  assert (∀ p, indexOf future p = nxt p) as Hnxt by done.
  assert (∀ p, -1 ≤ nxt p)%Z as Hge by (intros p; apply findIndex_ge).
  clearbody nxt.
  induction l as [|x l IH] using rev_ind; [done|].
  rewrite foldl_snoc. specialize (Hge x).
  destruct (foldl _ _ l) as [f [v|]]; simpl; rewrite Hnxt.
  - destruct IH as (k & Hk & IH). pose proof (lookup_lt_Some _ _ _ Hk) as Hkl.
    case_decide as Hdead.
    { exists (length l). split.
      - by rewrite lookup_app_r, Nat.sub_diag by lia.
      - left. split_and!; [done..|].
        intros j q Hj Hq%lookup_lt_Some. rewrite length_app in Hq.
        simpl in Hq. lia. }
    destruct IH as [(-> & Hv & Hlast)|(-> & Hmax & Hfirst)]; simpl.
    + exists k. split; [by apply lookup_app_l_Some|]. left.
      split_and!; [done..|].
      intros j q Hj [[_ Hq]|[_ ->]]%lookup_snoc_inv; [by eapply Hlast|done].
    + case_bool_decide as Hlt.
      * exists (length l). split.
        { by rewrite lookup_app_r, Nat.sub_diag by lia. }
        right. split_and!; [done|..].
        -- intros j q [[_ Hq]|[_ ->]]%lookup_snoc_inv; [|lia].
           specialize (Hmax _ _ Hq). lia.
        -- intros j q Hj Hq. rewrite lookup_app_l in Hq by done.
           specialize (Hmax _ _ Hq). lia.
      * exists k. split; [by apply lookup_app_l_Some|]. right.
        split_and!; [done|..].
        -- intros j q [[_ Hq]|[_ ->]]%lookup_snoc_inv; [by eapply Hmax|lia].
        -- intros j q Hj Hq. rewrite lookup_app_l in Hq by lia.
           by eapply Hfirst.
  - destruct IH as [-> ->]. simpl. case_decide as Hdead.
    + exists 0. split; [done|]. left. split_and!; [done..|].
      intros j q Hj Hq%lookup_lt_Some. simpl in Hq. lia.
    + simpl. rewrite bool_decide_eq_true_2 by lia.
      exists 0. split; [done|]. right. split_and!; [done|..].
      * intros [|[|j]] q [= ->]. lia.
      * intros j q Hj. lia.
Qed.
End ScanFacts.

(** ** Runs *)

Section RunFacts.
Context {Page : Type} `{Countable Page}.
Implicit Types (pages : list Page) (s : Vars (Page:=Page)) (x : Page).
Implicit Types (C : Z) (algo : string) (i n : nat).
Implicit Types (rs : list (Step (Page:=Page))).

Lemma replace_Permutation (l : list Page) k v x :
  l !! k = Some v → <[k:=x]> l ≡ₚ x :: delete k l.
Proof.
  intros Hk. rewrite insert_take_drop by (by eapply lookup_lt_Some).
  rewrite delete_take_drop. by rewrite Permutation_middle.
Qed.

Lemma replace_NoDup (l : list Page) k v x :
  NoDup l → l !! k = Some v → x ∉ l → NoDup (<[k:=x]> l).
Proof.
  intros Hnd Hk Hx. rewrite (replace_Permutation _ _ _ _ Hk).
  pose proof (delete_Permutation _ _ _ Hk) as Hp.
  assert (NoDup (v :: delete k l)) as [_ Hnd']%NoDup_cons by by rewrite <- Hp.
  apply NoDup_cons. split; [|done].
  intros Hin. apply Hx. rewrite Hp. by right.
Qed.

Lemma replace_elem (l : list Page) k v x q :
  NoDup l → l !! k = Some v →
  q ∈ <[k:=x]> l ↔ q = x ∨ (q ∈ l ∧ q ≠ v).
Proof.
  intros Hnd Hk. rewrite (replace_Permutation _ _ _ _ Hk), elem_of_cons.
  pose proof (delete_Permutation _ _ _ Hk) as Hp.
  assert (q ∈ l ↔ q = v ∨ q ∈ delete k l) as ->.
  { by rewrite <- elem_of_cons, <- Hp. }
  assert (NoDup (v :: delete k l)) as [Hv _]%NoDup_cons by by rewrite <- Hp.
  split.
  - intros [?|?]; [by left|]. right. split; [by right|by intros ->].
  - intros [?|[[?|?] ?]]; [by left|done|by right].
Qed.

Lemma framesBefore_app rs rs' k :
  k ≤ length rs → framesBefore (rs ++ rs') k = framesBefore rs k.
Proof.
  destruct k as [|j]; [done|]. intros Hj. simpl.
  by rewrite lookup_app_l by lia.
Qed.

Lemma framesBefore_snoc rs r :
  framesBefore (rs ++ [r]) (S (length rs)) = memory r.
Proof. simpl. by rewrite lookup_app_r, Nat.sub_diag by lia. Qed.

Lemma framesBefore_take rs k i :
  k ≤ i → framesBefore (take i rs) k = framesBefore rs k.
Proof.
  destruct k as [|j]; [done|]. intros Hj. simpl.
  by rewrite lookup_take_lt by lia.
Qed.

Lemma varsAt_0 pages C algo : varsAt pages C algo 0 = init.
Proof. unfold varsAt. by rewrite take_0. Qed.

Lemma varsAt_S pages C algo n x :
  pages !! n = Some x →
  varsAt pages C algo (S n) = access pages C algo (varsAt pages C algo n) x n.
Proof. apply forEach_take_S. Qed.

Lemma computeSteps_varsAt pages C algo :
  computeSteps pages C algo =
  let s := varsAt pages C algo (length pages) in
  mkResult (v_result s) (mkTotals (v_faults s) (v_hits s)).
Proof. unfold computeSteps, varsAt. by rewrite take_ge. Qed.

Lemma varsAt_ind pages C algo (P : nat → Vars (Page:=Page) → Prop) :
  P 0 init →
  (∀ n x, pages !! n = Some x → P n (varsAt pages C algo n) →
          P (S n) (access pages C algo (varsAt pages C algo n) x n)) →
  ∀ n, n ≤ length pages → P n (varsAt pages C algo n).
Proof.
  intros H0 HS n. induction n as [|n IH]; intros Hn.
  - by rewrite varsAt_0.
  - destruct (lookup_lt_is_Some_2 pages n) as [x Hx]; [lia|].
    rewrite (varsAt_S _ _ _ _ _ Hx). apply HS; [done|]. apply IH. lia.
Qed.

(** The victim is a resident page, and the slot recorded is its slot. *)
Lemma victim_resident pages algo s i :
  recognised algo → v_memory s ≠ [] → NoDup (v_memory s) →
  (algo = "fifo" → v_fifoQueue s ≡ₚ v_memory s) →
  ∃ v k, victimOf pages algo s i = Some v ∧ v_memory s !! k = Some v
         ∧ indexOf_opt (v_memory s) (victimOf pages algo s i) = Z.of_nat k.
Proof.
  intros Halgo Hne Hnd Hq.
  assert (∃ v, victimOf pages algo s i = Some v ∧ v ∈ v_memory s)
    as (v & Hv & [k Hk]%list_elem_of_lookup_1).
  { unfold victimOf.
    destruct (recognised_cases algo Halgo) as [-> | [[? ->] | (? & ? & ->)]].
    - rewrite decide_True by done. specialize (Hq eq_refl).
      destruct (v_fifoQueue s) as [|v q] eqn:E.
      + apply Permutation_nil_l in Hq. by destruct Hne.
      + exists v. split; [done|]. rewrite <- Hq. by left.
    - rewrite decide_False, decide_True by done.
      pose proof (lru_scan_inv (v_lastUsed s) (v_memory s)) as Hscan.
      destruct (lru_scan _ _) as [[v|] b]; simpl in *.
      + destruct Hscan as (_ & k & Hk & _). exists v.
        split; [done|]. by eapply list_elem_of_lookup_2.
      + by destruct Hscan as [? _].
    - rewrite !decide_False by done.
      pose proof (optimal_scan_inv (drop (S i) pages) (v_memory s)) as Hscan.
      destruct (optimal_scan _ _) as [f [v|]]; simpl in *.
      + destruct Hscan as (k & Hk & _). exists v.
        split; [done|]. by eapply list_elem_of_lookup_2.
      + by destruct Hscan as [? _]. }
  exists v, k. rewrite Hv. split_and!; [done..|]. by apply indexOf_NoDup.
Qed.

Lemma Inv_init C algo : (0 ≤ C)%Z → Inv C algo 0 (init (Page:=Page)).
Proof.
  intros HC. unfold Inv; simpl.
  split_and!; [done|done|done|lia|constructor|done].
Qed.

Lemma Inv_access pages C algo n s x :
  (1 ≤ C)%Z → recognised algo →
  Inv C algo n s → Inv C algo (S n) (access pages C algo s x n).
Proof.
  intros HC Halgo (Hlen & Hcnt & Hmem & Hcap & Hnd & Hq). subst n.
  destruct (decide (x ∈ v_memory s)) as [Hx|Hx].
  { rewrite access_hit by done.
    unfold Inv; cbn [v_result v_memory v_faults v_hits v_fifoQueue].
    rewrite length_app, framesBefore_snoc. simpl.
    split_and!; try done; lia. }
  destruct (decide (Z.of_nat (length (v_memory s)) < C)%Z) as [Hfree|Hfull].
  { rewrite access_free by done.
    unfold Inv; cbn [v_result v_memory v_faults v_hits v_fifoQueue].
    rewrite !length_app, framesBefore_snoc. simpl.
    split_and!; try done; try lia.
    - apply NoDup_app. split_and!; [done| |apply NoDup_singleton].
      intros q Hq' ->%list_elem_of_singleton. done.
    - intros Hf. by rewrite (Hq Hf). }
  destruct (access_full pages C algo s x (length (v_result s)) Halgo Hx Hfull)
    as (Hm' & Hr' & Hf' & Hh').
  destruct (victim_resident pages algo s (length (v_result s)) Halgo)
    as (v & k & Hv & Hk & Hidx); [|done..|].
  { intros E. rewrite E in Hfull. simpl in Hfull. lia. }
  rewrite Hidx, splice_replace in Hm' by (by eapply lookup_lt_Some).
  unfold Inv. rewrite Hr', Hf', Hh', Hm'.
  rewrite length_app, framesBefore_snoc, length_insert. simpl.
  split_and!; try done; try lia.
  - by eapply replace_NoDup.
  - intros ->. rewrite access_full_fifo by done.
    unfold victimOf in Hv. rewrite decide_True in Hv by done.
    specialize (Hq eq_refl). destruct (v_fifoQueue s) as [|v' q]; [done|].
    simpl in *. injection Hv as ->.
    rewrite (replace_Permutation _ _ _ _ Hk), <- Permutation_cons_append.
    apply Permutation_skip. rewrite (delete_Permutation _ _ _ Hk) in Hq.
    by apply Permutation_cons_inv in Hq.
Qed.

Lemma Inv_varsAt pages C algo n :
  (1 ≤ C)%Z → recognised algo → n ≤ length pages →
  Inv C algo n (varsAt pages C algo n).
Proof.
  intros HC Halgo. apply (varsAt_ind pages C algo (Inv C algo)).
  - apply Inv_init. lia.
  - intros k x _ HI. by apply Inv_access.
Qed.
End RunFacts.

(** ** The record of each access *)

Section StepFacts.
Context {Page : Type} `{Countable Page}.
Implicit Types (pages : list Page) (s : Vars (Page:=Page)) (x : Page).
Implicit Types (C : Z) (algo : string) (i n : nat).
Implicit Types (rs : list (Step (Page:=Page))) (r : Step (Page:=Page)).

Lemma framesBefore_last rs :
  framesBefore rs (length rs) = from_option memory [] (last rs).
Proof. rewrite last_lookup. by destruct rs. Qed.

(** The three ways an access goes under a recognised algorithm. *)
Lemma access_shape pages C algo n s x :
  (1 ≤ C)%Z → recognised algo → Inv C algo n s →
  let s' := access pages C algo s x n in
  ∃ r, v_result s' = v_result s ++ [r]
    ∧ ((x ∈ v_memory s ∧ r = mkStep n x (v_memory s) true (-1) Hit
        ∧ v_faults s' = v_faults s ∧ v_hits s' = S (v_hits s))
       ∨ ((x ∉ v_memory s) ∧ (Z.of_nat (length (v_memory s)) < C)%Z
          ∧ r = mkStep n x (v_memory s ++ [x]) false
                  (Z.of_nat (length (v_memory s))) PlacedIntoFreeSlot
          ∧ v_faults s' = S (v_faults s) ∧ v_hits s' = v_hits s)
       ∨ ((x ∉ v_memory s) ∧ Z.of_nat (length (v_memory s)) = C
          ∧ (∃ v k, victimOf pages algo s n = Some v
                    ∧ v_memory s !! k = Some v
                    ∧ r = mkStep n x (<[k:=x]> (v_memory s)) false
                            (Z.of_nat k) (replacedInfo algo (Some v)))
          ∧ v_faults s' = S (v_faults s) ∧ v_hits s' = v_hits s)).
Proof.
  intros HC Halgo (Hlen & Hcnt & Hmem & Hcap & Hnd & Hq).
  destruct (decide (x ∈ v_memory s)) as [Hx|Hx].
  { simpl. rewrite access_hit by done. eexists. split; [done|].
    left. by split_and!. }
  destruct (decide (Z.of_nat (length (v_memory s)) < C)%Z) as [Hfree|Hfull].
  { simpl. rewrite access_free by done. eexists. split; [done|].
    right; left. split_and!; try done. f_equal.
    rewrite length_app. simpl. lia. }
  destruct (access_full pages C algo s x n Halgo Hx Hfull)
    as (Hm' & Hr' & Hf' & Hh').
  destruct (victim_resident pages algo s n Halgo) as (v & k & Hv & Hk & Hidx);
    [|done..|].
  { intros E. rewrite E in Hfull. simpl in Hfull. lia. }
  rewrite Hidx, splice_replace in Hm' by (by eapply lookup_lt_Some).
  simpl. rewrite Hr', Hf', Hh', Hm'. eexists. split; [done|].
  right; right. split_and!; [done|lia| |done..].
  exists v, k. split_and!; [done..|]. by rewrite Hidx, Hv.
Qed.

Lemma result_take pages C algo n m :
  (1 ≤ C)%Z → recognised algo → n ≤ m → m ≤ length pages →
  v_result (varsAt pages C algo n) = take n (v_result (varsAt pages C algo m)).
Proof.
  intros HC Halgo Hnm. induction m as [|m IH]; intros Hm.
  - assert (n = 0) as -> by lia. by rewrite take_0, varsAt_0.
  - destruct (decide (n = S m)) as [->|Hne].
    + rewrite take_ge; [done|].
      destruct (Inv_varsAt pages C algo (S m) HC Halgo Hm) as [-> _]. lia.
    + destruct (lookup_lt_is_Some_2 pages m) as [x Hx]; [lia|].
      rewrite (varsAt_S _ _ _ _ _ Hx).
      pose proof (Inv_varsAt pages C algo m HC Halgo ltac:(lia)) as HI.
      destruct (access_shape pages C algo m _ x HC Halgo HI) as (r & -> & _).
      destruct HI as [Hlen _].
      rewrite take_app_le by lia. apply IH; lia.
Qed.

Lemma steps_length pages C algo :
  (1 ≤ C)%Z → recognised algo →
  length (steps (computeSteps pages C algo)) = length pages.
Proof.
  intros HC Halgo. rewrite computeSteps_varsAt. simpl.
  by destruct (Inv_varsAt pages C algo (length pages) HC Halgo ltac:(lia)).
Qed.

(** Step [i] of the result is the record of access [i]. *)
Lemma steps_lookup pages C algo i r :
  (1 ≤ C)%Z → recognised algo →
  steps (computeSteps pages C algo) !! i = Some r →
  let s := varsAt pages C algo i in
  ∃ x, pages !! i = Some x
    ∧ v_result (access pages C algo s x i) = v_result s ++ [r]
    ∧ v_result s = take i (steps (computeSteps pages C algo))
    ∧ v_memory s = framesBefore (steps (computeSteps pages C algo)) i
    ∧ Inv C algo i s.
Proof.
  intros HC Halgo Hr. rewrite computeSteps_varsAt in *. simpl in *.
  pose proof (Inv_varsAt pages C algo (length pages) HC Halgo ltac:(lia))
    as [Hlen _].
  pose proof (lookup_lt_Some _ _ _ Hr) as Hi. rewrite Hlen in Hi.
  destruct (lookup_lt_is_Some_2 pages i) as [x Hx]; [lia|].
  pose proof (Inv_varsAt pages C algo i HC Halgo ltac:(lia)) as HI.
  exists x. split_and!; [done| | | |done].
  - rewrite <- (varsAt_S _ _ _ _ _ Hx).
    rewrite (result_take pages C algo (S i) (length pages)) by (done || lia).
    rewrite (result_take pages C algo i (length pages)) by (done || lia).
    by apply take_S_r.
  - apply result_take; (done || lia).
  - destruct HI as (_ & _ & -> & _).
    rewrite (result_take pages C algo i (length pages)) by (done || lia).
    by apply framesBefore_take.
Qed.

Lemma step_shape pages C algo i r :
  (1 ≤ C)%Z → recognised algo →
  steps (computeSteps pages C algo) !! i = Some r →
  let s := varsAt pages C algo i in
  let before := framesBefore (steps (computeSteps pages C algo)) i in
  ∃ x, pages !! i = Some x ∧ v_memory s = before
    ∧ ((x ∈ before ∧ r = mkStep i x before true (-1) Hit)
       ∨ ((x ∉ before) ∧ (Z.of_nat (length before) < C)%Z
          ∧ r = mkStep i x (before ++ [x]) false
                  (Z.of_nat (length before)) PlacedIntoFreeSlot)
       ∨ ((x ∉ before) ∧ Z.of_nat (length before) = C
          ∧ ∃ v k, victimOf pages algo s i = Some v ∧ before !! k = Some v
                   ∧ r = mkStep i x (<[k:=x]> before) false
                           (Z.of_nat k) (replacedInfo algo (Some v)))).
Proof.
  intros HC Halgo Hr.
  destruct (steps_lookup pages C algo i r HC Halgo Hr)
    as (x & Hx & Hres & _ & Hmem & HI).
  destruct (access_shape pages C algo i _ x HC Halgo HI) as (r' & Hres' & Hsh).
  rewrite Hres in Hres'. apply app_inj_tail in Hres' as [_ <-].
  cbv zeta. exists x. rewrite <- Hmem. split_and!; [done..|].
  destruct Hsh as [(? & ? & _)|[(? & ? & ? & _)|(? & ? & ? & _)]]; eauto 10.
Qed.
End StepFacts.

(** ** Counting, hits, slots and frames *)

Section Records.
Context {Page : Type} `{Countable Page}.
Implicit Types (pages : list Page) (s : Vars (Page:=Page)) (x : Page).
Implicit Types (C : Z) (algo : string) (i n : nat).
Implicit Types (rs : list (Step (Page:=Page))) (r : Step (Page:=Page)).

(** C1. For every page sequence, every capacity of at least one and every
    recognised algorithm, [computeSteps] returns as many step records as
    there are accesses, and totals with faults + hits equal to that number:
    access [i] appends exactly the record at position [i], and adds one to
    exactly one of the two counters. *)
Theorem C1_steps_and_totals pages C algo :
  (1 ≤ C)%Z → recognised algo →
  let res := computeSteps pages C algo in
  length (steps res) = length pages
  ∧ faults (totals res) + hits (totals res) = length pages
  ∧ ∀ i x, pages !! i = Some x →
      let s := varsAt pages C algo i in
      let s' := varsAt pages C algo (S i) in
      ∃ r, steps res !! i = Some r ∧ v_result s' = v_result s ++ [r]
        ∧ index r = i ∧ page r = x
        ∧ ((hit r = true ∧ v_hits s' = S (v_hits s)
            ∧ v_faults s' = v_faults s)
           ∨ (hit r = false ∧ v_faults s' = S (v_faults s)
              ∧ v_hits s' = v_hits s)).
Proof.
  intros HC Halgo res. subst res. rewrite computeSteps_varsAt. simpl.
  pose proof (Inv_varsAt pages C algo (length pages) HC Halgo ltac:(lia))
    as (Hlen & Hcnt & _).
  split_and!; [done..|]. intros i x Hx.
  pose proof (lookup_lt_Some _ _ _ Hx) as Hi.
  pose proof (Inv_varsAt pages C algo i HC Halgo ltac:(lia)) as HI.
  rewrite (varsAt_S _ _ _ _ _ Hx).
  destruct (access_shape pages C algo i _ x HC Halgo HI) as (r & Hr & Hsh).
  exists r. split.
  { rewrite <- (lookup_take_lt _ (S i)) by lia.
    rewrite <- (result_take pages C algo (S i)) by (done || lia).
    rewrite (varsAt_S _ _ _ _ _ Hx), Hr. destruct HI as [Hl _].
    by rewrite lookup_app_r, Hl, Nat.sub_diag by lia. }
  split; [done|].
  destruct Hsh as [(_ & -> & ? & ?)|[(_ & _ & -> & ? & ?)|
                   (_ & _ & (v & k & _ & _ & ->) & ? & ?)]]; simpl; auto 10.
Qed.

(** What every run keeps, whatever the selector and the capacity: the
    frames are those of the last record, and each record's hit flag tells
    whether its page is in the snapshot before it. *)
Lemma hit_flags pages C algo n :
  n ≤ length pages →
  let s := varsAt pages C algo n in
  v_memory s = from_option memory [] (last (v_result s))
  ∧ ∀ k r, v_result s !! k = Some r →
           hit r = true ↔ page r ∈ framesBefore (v_result s) k.
Proof.
  apply (varsAt_ind pages C algo (λ _ s,
    v_memory s = from_option memory [] (last (v_result s))
    ∧ ∀ k r, v_result s !! k = Some r →
             hit r = true ↔ page r ∈ framesBefore (v_result s) k)).
  - split; [done|]. by intros k r.
  - intros i x _ [Hmem Hrs].
    destruct (access_emits pages C algo (varsAt pages C algo i) x i)
      as [_ [(-> & -> & _)|(r & -> & _ & Hp & Hm & Hh)]]; [done|].
    rewrite last_snoc. simpl. split; [done|].
    intros k r' [[Hk Hr']|[-> ->]]%lookup_snoc_inv.
    + rewrite framesBefore_app by lia. by apply Hrs.
    + rewrite framesBefore_app, framesBefore_last, <- Hmem by lia.
      rewrite Hh, Hp. apply includes_true.
Qed.

(** C5. In every run, the record at position [i] has [hit = true] exactly
    when its page is an entry of the snapshot recorded at step [i - 1] (of
    the empty frame set for [i = 0]).  Under a recognised algorithm and a
    capacity of at least one that record is the record of access [i], and
    that snapshot is the frame array as it stands when access [i] begins:
    the test comes before the frames are modified. *)
Theorem C5_hit_iff_resident pages C algo i r :
  steps (computeSteps pages C algo) !! i = Some r →
  let before := framesBefore (steps (computeSteps pages C algo)) i in
  (hit r = true ↔ page r ∈ before)
  ∧ ((1 ≤ C)%Z → recognised algo →
     pages !! i = Some (page r)
     ∧ before = v_memory (varsAt pages C algo i)
     ∧ hit r = includes (v_memory (varsAt pages C algo i)) (page r)).
Proof.
  intros Hr before. subst before. split.
  - rewrite computeSteps_varsAt in *. simpl in *.
    by apply (hit_flags pages C algo (length pages)).
  - intros HC Halgo.
    destruct (step_shape pages C algo i r HC Halgo Hr) as (x & Hx & Hm & Hsh).
    rewrite Hm.
    destruct Hsh as [(Hin & ->)|[(Hin & _ & ->)|(Hin & _ & v & k & _ & _ & ->)]];
      simpl; split_and!; try done; symmetry;
      by (apply includes_true || apply includes_false).
Qed.

(** C7, as the code has it.  Under a recognised algorithm and a capacity of
    at least one, [replacedIndex] is [-1] exactly on a hit.  On a fault
    that fills a free slot it is the index of the slot just filled, the
    number of frames in use before the access; on a fault with all frames
    full it is the slot of the resident page that is evicted. *)
Theorem C7_replacedIndex pages C algo i r :
  (1 ≤ C)%Z → recognised algo →
  steps (computeSteps pages C algo) !! i = Some r →
  let before := framesBefore (steps (computeSteps pages C algo)) i in
  (replacedIndex r = (-1)%Z ↔ hit r = true)
  ∧ (hit r = false → (Z.of_nat (length before) < C)%Z →
     replacedIndex r = Z.of_nat (length before)
     ∧ memory r = before ++ [page r])
  ∧ (hit r = false → Z.of_nat (length before) = C →
     ∃ k v, replacedIndex r = Z.of_nat k ∧ before !! k = Some v
            ∧ v ∉ memory r).
Proof.
  intros HC Halgo Hr before.
  destruct (steps_lookup pages C algo i r HC Halgo Hr)
    as (_ & _ & _ & _ & Hmem & _ & _ & _ & _ & Hnd & _).
  destruct (step_shape pages C algo i r HC Halgo Hr) as (x & Hx & Hm & Hsh).
  fold before in Hsh, Hmem. rewrite Hmem in Hnd.
  destruct Hsh as [(Hin & ->)|[(Hin & Hlt & ->)|(Hin & Hfull & v & k & _ & Hk & ->)]];
    simpl.
  - split_and!; [done|done|done].
  - split_and!; [split; [lia|done]|done|lia].
  - split_and!; [split; [lia|done]|lia|].
    intros _ _. exists k, v. split_and!; [done..|].
    rewrite (replace_elem _ _ _ _ _ Hnd Hk).
    intros [->|[_ ?]]; [|done]. apply Hin. by eapply list_elem_of_lookup_2.
Qed.

(** C8. Under a recognised algorithm and a capacity of at least one: on a
    hit the snapshot recorded equals the previous one; on a fault with all
    frames full the new snapshot has the same length [C], holds the
    accessed page at the recorded slot, and equals the previous snapshot at
    every other slot. *)
Theorem C8_frame_effect pages C algo i r :
  (1 ≤ C)%Z → recognised algo →
  steps (computeSteps pages C algo) !! i = Some r →
  let before := framesBefore (steps (computeSteps pages C algo)) i in
  (hit r = true → memory r = before)
  ∧ (hit r = false → Z.of_nat (length before) = C →
     Z.of_nat (length (memory r)) = C
     ∧ ∃ k, replacedIndex r = Z.of_nat k ∧ k < length before
            ∧ memory r !! k = Some (page r)
            ∧ ∀ j, j ≠ k → memory r !! j = before !! j).
Proof.
  intros HC Halgo Hr before.
  destruct (step_shape pages C algo i r HC Halgo Hr) as (x & Hx & Hm & Hsh).
  fold before in Hsh.
  destruct Hsh as [(Hin & ->)|[(Hin & Hlt & ->)|(Hin & Hfull & v & k & _ & Hk & ->)]];
    simpl.
  - done.
  - split; [done|]. lia.
  - split; [done|]. intros _ _. rewrite length_insert. split; [done|].
    pose proof (lookup_lt_Some _ _ _ Hk) as Hlt.
    exists k. split_and!; [done..| |].
    + by apply list_lookup_insert_eq.
    + intros j Hj. by apply list_lookup_insert_ne.
Qed.

(** Under any selector and any capacity the counters add up, and there
    is at most one record per access. *)
Lemma any_run_counts pages C algo n :
  n ≤ length pages →
  let s := varsAt pages C algo n in
  v_faults s + v_hits s = n ∧ length (v_result s) ≤ n.
Proof.
  apply (varsAt_ind pages C algo (λ n s,
    v_faults s + v_hits s = n ∧ length (v_result s) ≤ n)).
  - done.
  - intros i x _ [Hcnt Hlen].
    destruct (access_emits pages C algo (varsAt pages C algo i) x i)
      as [-> [(-> & _)|(r & -> & _)]].
    + split; lia.
    + rewrite length_app. simpl. split; lia.
Qed.

(** C6, as the code has it.  [computeSteps] has no rejection path: for
    every capacity, also below one, and every selector, also an unrecognised
    one, it returns a result, whose totals add up to the number of accesses
    and which has at most one record per access.  The capacity guard is
    [clampFrames], applied by the caller: it raises every value below one
    to one instead of rejecting it. *)
Theorem C6_no_rejection :
  (∀ val, (1 ≤ clampFrames val)%Z)
  ∧ ∀ pages C algo,
      ∃ res, computeSteps_completion pages C algo = Returned res
        ∧ faults (totals res) + hits (totals res) = length pages
        ∧ length (steps res) ≤ length pages.
Proof.
  split; [intros val; unfold clampFrames; lia|].
  intros pages C algo. eexists. split; [reflexivity|].
  rewrite computeSteps_varsAt. simpl.
  by apply (any_run_counts pages C algo (length pages)).
Qed.

End Records.

(** ** Victim selection *)

Section Victims.
Context {Page : Type} `{Countable Page}.
Implicit Types (pages : list Page) (s : Vars (Page:=Page)) (x : Page).
Implicit Types (C : Z) (algo : string) (i n : nat).
Implicit Types (rs : list (Step (Page:=Page))) (r : Step (Page:=Page)).

(** The frames after an access under a recognised algorithm. *)
Lemma access_memory pages C algo n s x :
  (1 ≤ C)%Z → recognised algo → Inv C algo n s →
  let s' := access pages C algo s x n in
  (x ∈ v_memory s ∧ v_memory s' = v_memory s)
  ∨ ((x ∉ v_memory s) ∧ (Z.of_nat (length (v_memory s)) < C)%Z
     ∧ v_memory s' = v_memory s ++ [x])
  ∨ ((x ∉ v_memory s) ∧ Z.of_nat (length (v_memory s)) = C
     ∧ ∃ v k, victimOf pages algo s n = Some v ∧ v_memory s !! k = Some v
              ∧ v_memory s' = <[k:=x]> (v_memory s)).
Proof.
  intros HC Halgo HI. cbv zeta.
  destruct (access_shape pages C algo n s x HC Halgo HI) as (r & Hr & Hsh).
  destruct (access_emits pages C algo s x n)
    as [_ [(_ & _ & Hno)|(r' & Hr' & _ & _ & Hm & _)]]; [done|].
  rewrite Hr in Hr'. apply app_inj_tail in Hr' as [_ <-]. rewrite <- Hm.
  destruct Hsh as [(? & -> & _)|[(? & ? & -> & _)|
                   (? & ? & (v & k & ? & ? & ->) & _)]]; simpl; eauto 10.
Qed.

Lemma nextUse_dead pages i q :
  indexOf (drop (S i) pages) q = (-1)%Z → nextUse pages i q = PosInf.
Proof. intros E. unfold nextUse. by rewrite E, decide_True. Qed.

Lemma nextUse_live pages i q :
  indexOf (drop (S i) pages) q ≠ (-1)%Z →
  nextUse pages i q = Fin (Z.of_nat (S i) + indexOf (drop (S i) pages) q).
Proof. intros E. unfold nextUse. by rewrite decide_False. Qed.

(** C4. Under Optimal, on a fault with all frames full, one resident page
    is evicted: the frames after the access are the frames before it with
    the accessed page written over that page, which is no longer resident.
    The page evicted has the largest next use among the resident pages, a
    page that never reappears counting as [+∞]; when it never reappears, no
    page after it in display order never reappears either: the last such
    page scanned wins; and when its next use is finite, no resident page
    has a later finite next use. *)
Theorem C4_optimal_victim pages C i r :
  (1 ≤ C)%Z →
  steps (computeSteps pages C "optimal") !! i = Some r →
  let before := framesBefore (steps (computeSteps pages C "optimal")) i in
  hit r = false → Z.of_nat (length before) = C →
  ∃ k v, replacedIndex r = Z.of_nat k ∧ before !! k = Some v
    ∧ info r = OptimalReplaced (Some v)
    ∧ memory r = <[k:=page r]> before
    ∧ (v ∉ memory r)
    ∧ (∀ q, q ∈ memory r ↔ q = page r ∨ (q ∈ before ∧ q ≠ v))
    ∧ (∀ q, q ∈ before → num_le (nextUse pages i q) (nextUse pages i v))
    ∧ (nextUse pages i v = PosInf →
       ∀ j q, k < j → before !! j = Some q → nextUse pages i q ≠ PosInf)
    ∧ (∀ q a b, q ∈ before → nextUse pages i v = Fin a →
                nextUse pages i q = Fin b → (b ≤ a)%Z).
Proof.
  intros HC Hr before Hhit Hfull.
  assert (recognised "optimal") as Halgo by (right; by right).
  destruct (steps_lookup pages C _ i r HC Halgo Hr)
    as (_ & _ & _ & _ & _ & _ & _ & _ & _ & Hnd & _).
  destruct (step_shape pages C _ i r HC Halgo Hr) as (x & Hx & Hm & Hsh).
  fold before in Hsh, Hm.
  destruct Hsh as [(_ & ->)|[(_ & ? & _)|(Hin & _ & v & k & Hv & Hk & ->)]];
    [done|lia|]. simpl.
  assert (NoDup before) as Hndb by by rewrite <- Hm.
  assert (∀ q, q ∈ <[k:=x]> before ↔ q = x ∨ (q ∈ before ∧ q ≠ v)) as Hel
    by (intros q; by apply replace_elem).
  assert (v ∉ <[k:=x]> before) as Hgone.
  { rewrite Hel. intros [->|[_ ?]]; [|done].
    apply Hin. by eapply list_elem_of_lookup_2. }
  exists k, v. split_and!; [done..| | |].
  all: unfold victimOf in Hv; simpl in Hv.
  all: pose proof (optimal_scan_inv (drop (S i) pages)
                     (v_memory (varsAt pages C "optimal" i))) as Hscan.
  all: destruct (optimal_scan _ _) as [f [v'|]]; simpl in Hv; [|done].
  all: injection Hv as ->; destruct Hscan as (k' & Hk' & Hscan).
  all: rewrite Hm in Hk', Hscan, Hnd.
  all: assert (k' = k) as -> by by eapply NoDup_lookup.
  all: destruct Hscan as [(_ & Hdead & Hlast)|(_ & Hmax & Hfirst)].
  - intros q Hq. by rewrite (nextUse_dead _ _ v).
  - intros q [j Hj]%list_elem_of_lookup_1. unfold num_le.
    destruct (Hmax _ _ Hj) as [Hq0 Hqv]. destruct (Hmax _ _ Hk) as [Hv0 _].
    rewrite !nextUse_live by lia. simpl. apply bool_decide_eq_false. lia.
  - intros _ j q Hj Hq. rewrite nextUse_live by by eapply Hlast. done.
  - destruct (Hmax _ _ Hk) as [Hv0 _]. by rewrite nextUse_live by lia.
  - intros q a b _. by rewrite (nextUse_dead _ _ v).
  - intros q a b [j Hj]%list_elem_of_lookup_1.
    destruct (Hmax _ _ Hj) as [Hq0 Hqv]. destruct (Hmax _ _ Hk) as [Hv0 _].
    rewrite !nextUse_live by lia. intros [= <-] [= <-]. lia.
Qed.

Lemma lastUse_S pages n x q :
  pages !! n = Some x →
  lastUse pages (S n) q =
  if decide (x = q) then Z.of_nat n else lastUse pages n q.
Proof.
  intros Hx. unfold lastUse.
  rewrite (take_S_r _ _ _ Hx), lastIndexOf_snoc, length_take_le; [done|].
  apply lookup_lt_Some in Hx. lia.
Qed.

Lemma elem_of_take_S pages n x q :
  pages !! n = Some x → q ∈ take (S n) pages ↔ q ∈ take n pages ∨ q = x.
Proof.
  intros Hx. rewrite (take_S_r _ _ _ Hx), elem_of_app, list_elem_of_singleton.
  done.
Qed.

Lemma LruInv_access pages C n s x :
  (1 ≤ C)%Z → pages !! n = Some x →
  Inv C "lru" n s → LruInv pages n s →
  LruInv pages (S n) (access pages C "lru" s x n).
Proof.
  intros HC Hx HI HL.
  assert (recognised "lru") as Halgo by (right; by left).
  assert (∀ q (lu : gmap Page Z),
            (q = x ∨ (q ∈ v_memory s ∧ lu !! q = v_lastUsed s !! q)) →
            q ∈ take (S n) pages
            ∧ <[x:=Z.of_nat n]> lu !! q = Some (lastUse pages (S n) q))
    as Hstep.
  { intros q lu Hq. rewrite (elem_of_take_S _ _ _ _ Hx), (lastUse_S _ _ _ _ Hx).
    destruct (decide (x = q)) as [->|Hne].
    - rewrite lookup_insert_eq. auto.
    - destruct Hq as [->|[Hq Hlu]]; [done|].
      rewrite lookup_insert_ne, Hlu by done. destruct (HL q Hq). auto. }
  destruct (decide (x ∈ v_memory s)) as [Hin|Hin].
  { rewrite access_hit by done. intros q Hq. simpl in *. apply Hstep. auto. }
  destruct (decide (Z.of_nat (length (v_memory s)) < C)%Z) as [Hfree|Hfull].
  { rewrite access_free by done. intros q Hq. simpl in *. apply Hstep.
    apply elem_of_app in Hq as [Hq| ->%list_elem_of_singleton]; auto. }
  destruct (access_memory pages C "lru" n s x HC Halgo HI)
    as [(? & _)|[(_ & ? & _)|(_ & _ & v & k & Hv & Hk & Hm)]]; [done..|].
  intros q Hq. rewrite Hm in Hq. rewrite access_full_lru by done.
  unfold victimOf in Hv. simpl in Hv. rewrite Hv. simpl. apply Hstep.
  destruct HI as (_ & _ & _ & _ & Hnd & _).
  apply (replace_elem _ _ _ _ _ Hnd Hk) in Hq as [->|[Hq Hne]]; [by left|].
  right. split; [done|]. by apply lookup_delete_ne.
Qed.

Lemma LruInv_varsAt pages C n :
  (1 ≤ C)%Z → n ≤ length pages → LruInv pages n (varsAt pages C "lru" n).
Proof.
  intros HC. induction n as [|n IH]; intros Hn.
  - rewrite varsAt_0. by intros q Hq%elem_of_nil.
  - destruct (lookup_lt_is_Some_2 pages n) as [x Hx]; [lia|].
    rewrite (varsAt_S _ _ _ _ _ Hx). apply LruInv_access; [done..| |].
    + apply Inv_varsAt; [done|right; by left|lia].
    + apply IH. lia.
Qed.








End Victims.

(** ** [simulate] against [computeSteps] *)

Section Extrema.
Context {A : Type} `{EqDecision A}.
Implicit Types (l : list A).

Lemma num_lt_irrefl a : num_lt a a = false.
Proof. destruct a; simpl; [done| |done]. apply bool_decide_eq_false. lia. Qed.

Lemma num_le_trans a b c :
  num_lt a b = false → num_lt b c = false → num_lt a c = false.
Proof.
  destruct a, b, c; simpl; try done.
  rewrite !bool_decide_eq_false. lia.
Qed.

Lemma num_lt_asym a b : num_lt a b = true → num_lt b a = false.
Proof.
  destruct a, b; simpl; try done.
  rewrite bool_decide_eq_true, bool_decide_eq_false. lia.
Qed.

(** [Math.min] of a non-empty array of finite numbers is one of them, and
    none is smaller. *)
Lemma Math_min_fmap (f : A → Z) l :
  l ≠ [] →
  ∃ q, q ∈ l ∧ Math_min ((λ m, Fin (f m)) <$> l) = Fin (f q)
       ∧ ∀ q', q' ∈ l → (f q ≤ f q')%Z.
Proof.
  induction l as [|a l IH]; [done|]. intros _.
  destruct l as [|b l].
  - exists a. split_and!; [by left|done|].
    intros q' ->%list_elem_of_singleton. lia.
  - destruct IH as (q & Hq & Hmin & Hle); [done|].
    rewrite fmap_cons. unfold Math_min in *. rewrite foldr_cons, Hmin.
    unfold num_min. simpl. case_bool_decide as Hlt.
    + exists q. split_and!; [by right|done|].
      intros q' [->|Hq']%elem_of_cons; [lia|by apply Hle].
    + exists a. split_and!; [by left|done|].
      intros q' [->|Hq']%elem_of_cons; [lia|].
      specialize (Hle _ Hq'). lia.
Qed.

(** [Math.max] of a non-empty array is one of its entries, and none is
    larger. *)
Lemma Math_max_fmap (g : A → num) l :
  l ≠ [] →
  ∃ q, q ∈ l ∧ Math_max (g <$> l) = g q
       ∧ ∀ q', q' ∈ l → num_lt (g q) (g q') = false.
Proof.
  induction l as [|a l IH]; [done|]. intros _.
  destruct l as [|b l].
  - exists a. simpl. unfold num_max.
    assert (num_lt (g a) NegInf = false) as -> by by destruct (g a).
    split_and!; [by left|done|].
    intros q' ->%list_elem_of_singleton. apply num_lt_irrefl.
  - destruct IH as (q & Hq & Hmax & Hle); [done|].
    rewrite fmap_cons. unfold Math_max in *. rewrite foldr_cons, Hmax.
    unfold num_max. destruct (num_lt (g a) (g q)) eqn:Hlt.
    + exists q. split_and!; [by right|done|].
      intros q' [->|Hq']%elem_of_cons; [by apply num_lt_asym|by apply Hle].
    + exists a. split_and!; [by left|done|].
      intros q' [->|Hq']%elem_of_cons; [apply num_lt_irrefl|].
      eapply num_le_trans; [done|]. by apply Hle.
Qed.

(** The slot [indexes.indexOf(m)] picks, when [m] is the value of some
    page. *)
Lemma indexOf_fmap {B} `{EqDecision B} (g : A → B) l q :
  q ∈ l →
  ∃ k v, indexOf (g <$> l) (g q) = Z.of_nat k ∧ l !! k = Some v
         ∧ g v = g q.
Proof.
  intros Hq.
  destruct (indexOf_elem (g <$> l) (g q)) as (k & Hk & Hl & _).
  { by apply list_elem_of_fmap_2. }
  rewrite list_lookup_fmap in Hl.
  destruct (l !! k) as [v|] eqn:E; simpl in Hl; [|done].
  exists k, v. split_and!; [done..|]. congruence.
Qed.

Lemma indexOf_inj l a b :
  indexOf l a ≠ (-1)%Z → indexOf l a = indexOf l b → a = b.
Proof.
  intros Ha Hab.
  destruct (decide (a ∈ l)) as [Hin|Hin]; [|by apply indexOf_notin in Hin].
  destruct (indexOf_elem l a Hin) as (k & Hk & Hl & _).
  destruct (decide (b ∈ l)) as [Hin'|Hin'].
  - destruct (indexOf_elem l b Hin') as (k' & Hk' & Hl' & _).
    assert (k = k') as -> by lia. congruence.
  - apply indexOf_notin in Hin'. congruence.
Qed.

Lemma subset_Permutation l1 l2 :
  NoDup l1 → length l1 = length l2 → (∀ q, q ∈ l1 → q ∈ l2) → l1 ≡ₚ l2.
Proof.
  intros Hnd Hlen Hsub. apply submseteq_length_Permutation; [|lia].
  by apply NoDup_submseteq.
Qed.

(** Removing the page at one slot and appending another page. *)
Lemma delete_snoc_facts l k v x :
  NoDup l → l !! k = Some v → x ∉ l →
  delete k l ++ [x] ≡ₚ x :: delete k l
  ∧ NoDup (delete k l ++ [x])
  ∧ length (delete k l ++ [x]) = length l
  ∧ ∀ q, q ∈ delete k l ++ [x] ↔ q = x ∨ (q ∈ l ∧ q ≠ v).
Proof.
  intros Hnd Hk Hx. pose proof (delete_Permutation _ _ _ Hk) as Hp.
  assert (NoDup (v :: delete k l)) as [Hv Hnd']%NoDup_cons by by rewrite <- Hp.
  assert (delete k l ++ [x] ≡ₚ x :: delete k l) as Hp'.
  { by rewrite <- Permutation_cons_append. }
  split_and!; [done| | |].
  - rewrite Hp'. apply NoDup_cons. split; [|done].
    intros Hin. apply Hx. rewrite Hp. by right.
  - rewrite Hp', (Permutation_length Hp). done.
  - intros q. rewrite Hp', elem_of_cons.
    assert (q ∈ l ↔ q = v ∨ q ∈ delete k l) as ->.
    { by rewrite <- elem_of_cons, <- Hp. }
    split.
    + intros [?|?]; [by left|]. right. split; [by right|by intros ->].
    + intros [?|[[?|?] ?]]; [by left|done|by right].
Qed.
End Extrema.

Section Refinement.
Context {Page : Type} `{Countable Page}.
Variable isNaN : Page → bool.
Implicit Types (pages : list Page) (s : Vars (Page:=Page)) (x : Page).
Implicit Types (t : SimVars (Page:=Page)) (m : list Page).
Implicit Types (C : Z) (algo : string) (i n : nat).

Lemma sim_hit pages C algo t x i :
  x ∈ sim_memory t →
  simulate_access isNaN pages C algo t x i =
  mkSimVars (sim_memory t) (sim_faults t)
    (sim_output t ++ [(x, sim_memory t, true)]).
Proof. intros Hx%includes_true. unfold simulate_access. by rewrite Hx. Qed.

Lemma sim_free pages C algo t x i :
  x ∉ sim_memory t → (Z.of_nat (length (sim_memory t)) < C)%Z →
  simulate_access isNaN pages C algo t x i =
  mkSimVars (sim_memory t ++ [x]) (S (sim_faults t))
    (sim_output t ++ [(x, sim_memory t ++ [x], false)]).
Proof.
  intros Hx%includes_false Hlt. unfold simulate_access.
  by rewrite Hx, decide_True.
Qed.

Lemma sim_full pages C algo t x i :
  x ∉ sim_memory t → ¬ (Z.of_nat (length (sim_memory t)) < C)%Z →
  simulate_access isNaN pages C algo t x i =
  let m := evictOf isNaN pages algo (sim_memory t) i ++ [x] in
  mkSimVars m (S (sim_faults t)) (sim_output t ++ [(x, m, false)]).
Proof.
  intros Hx%includes_false Hlt. unfold simulate_access, evictOf.
  by rewrite Hx, decide_False.
Qed.

(** Whatever page is NaN, an eviction of [simulate] removes one resident
    page. *)
Lemma evict_delete pages algo m n :
  recognised algo → m ≠ [] →
  ∃ k v, m !! k = Some v ∧ evictOf isNaN pages algo m n = delete k m.
Proof.
  intros Halgo Hne. unfold evictOf.
  destruct (recognised_cases algo Halgo) as [-> | [[? ->] | (? & ? & ->)]];
    simpl.
  - destruct m as [|v m]; [done|]. by exists 0, v.
  - destruct (Math_min_fmap (strictLastIndexOf isNaN (take n pages)) m Hne)
      as (q & Hq & -> & _).
    destruct (indexOf_fmap
                (λ p, Fin (strictLastIndexOf isNaN (take n pages) p)) m q Hq)
      as (k & v & -> & Hk & _).
    exists k, v. split; [done|]. apply splice_remove. by eapply lookup_lt_Some.
  - set (g p := let idx := strictIndexOf isNaN (drop (S n) pages) p in
                if decide (idx = -1)%Z then PosInf else Fin idx).
    destruct (Math_max_fmap g m Hne) as (q & Hq & Hmax & _). rewrite Hmax.
    destruct (indexOf_fmap g m q Hq) as (k & v & -> & Hk & _).
    exists k, v. split; [done|]. apply splice_remove. by eapply lookup_lt_Some.
Qed.

Lemma splice_by_ext {B} `{EqDecision B} (f g : Page → B)
    (pick : list B → B) m :
  Forall (λ p, f p = g p) m →
  splice m (indexOf (f <$> m) (pick (f <$> m))) 1 []
  = splice m (indexOf (g <$> m) (pick (g <$> m))) 1 [].
Proof. intros E%Forall_fmap_ext_1. by rewrite E. Qed.

(** On pages none of which is NaN the strict searches are the plain
    ones. *)
Lemma evictOf_plain pages algo m n :
  Forall (λ p, isNaN p = false) m →
  evictOf isNaN pages algo m n = evictOf (λ _, false) pages algo m n.
Proof.
  intros Hm. unfold evictOf. repeat case_decide; try done; cbv zeta.
  - apply splice_by_ext. eapply Forall_impl; [exact Hm|].
    intros p Hp. unfold strictLastIndexOf. by rewrite Hp.
  - apply splice_by_ext. eapply Forall_impl; [exact Hm|].
    intros p Hp. unfold strictIndexOf. by rewrite Hp.
Qed.

(** The frames of [simulate] hold pages of the sequence only. *)
Lemma sim_access_sub pages C algo t x i q :
  q ∈ sim_memory (simulate_access isNaN pages C algo t x i) →
  q ∈ sim_memory t ∨ q = x.
Proof.
  unfold simulate_access. destruct (includes (sim_memory t) x); simpl;
    [auto|].
  case_decide.
  - rewrite elem_of_app, list_elem_of_singleton. tauto.
  - rewrite elem_of_app, list_elem_of_singleton. intros [Hq|?]; [left|by right].
    repeat case_decide; try done.
    + destruct (sim_memory t); simpl in *; [done|by right].
    + apply elem_of_splice in Hq as [?|?%elem_of_nil]; done.
    + apply elem_of_splice in Hq as [?|?%elem_of_nil]; done.
Qed.

Lemma simAt_memory_sub pages C algo n q :
  n ≤ length pages →
  q ∈ sim_memory (simAt isNaN pages C algo n) → q ∈ take n pages.
Proof.
  revert q. induction n as [|n IH]; intros q Hn.
  - unfold simAt. by rewrite take_0.
  - destruct (lookup_lt_is_Some_2 pages n) as [x Hx]; [lia|].
    unfold simAt. rewrite (forEach_take_S _ _ _ _ _ Hx).
    fold (simAt isNaN pages C algo n).
    rewrite (take_S_r _ _ _ Hx), elem_of_app, list_elem_of_singleton.
    intros [Hq| ->]%sim_access_sub; [left|by right]. apply IH; [lia|done].
Qed.

Lemma evict_lru pages m n :
  Forall (λ p, isNaN p = false) m → m ≠ [] →
  ∃ k v, m !! k = Some v ∧ evictOf isNaN pages "lru" m n = delete k m
    ∧ ∀ q, q ∈ m →
           (lastIndexOf (take n pages) v ≤ lastIndexOf (take n pages) q)%Z.
Proof.
  intros Hnan Hne. rewrite evictOf_plain by done.
  unfold evictOf, strictLastIndexOf. simpl.
  destruct (Math_min_fmap (lastIndexOf (take n pages)) m Hne)
    as (q & Hq & -> & Hmin).
  destruct (indexOf_fmap (λ p, Fin (lastIndexOf (take n pages) p)) m q Hq)
    as (k & v & -> & Hk & Hv).
  exists k, v. split_and!; [done| |].
  - apply splice_remove. by eapply lookup_lt_Some.
  - intros q' Hq'. injection Hv as ->. by apply Hmin.
Qed.

Lemma evict_optimal pages m n :
  let g p := let idx := indexOf (drop (S n) pages) p in
             if decide (idx = -1)%Z then PosInf else Fin idx in
  Forall (λ p, isNaN p = false) m → m ≠ [] →
  ∃ k v, m !! k = Some v ∧ evictOf isNaN pages "optimal" m n = delete k m
    ∧ ∀ q, q ∈ m → num_lt (g v) (g q) = false.
Proof.
  intros g Hnan Hne. rewrite evictOf_plain by done.
  unfold evictOf, strictIndexOf. simpl.
  destruct (Math_max_fmap g m Hne) as (q & Hq & Hmax & Hle).
  fold g. rewrite Hmax.
  destruct (indexOf_fmap g m q Hq) as (k & v & -> & Hk & Hv).
  exists k, v. split_and!; [done| |].
  - apply splice_remove. by eapply lookup_lt_Some.
  - intros q' Hq'. rewrite Hv. by apply Hle.
Qed.

(** Under Optimal the two victims agree as soon as one of them is used
    again. *)
Lemma optimal_victims_agree future (m1 m2 : list Page) v1 v2 k1 :
  let nxt p := indexOf future p in
  let g p := if decide (nxt p = -1)%Z then PosInf else Fin (nxt p) in
  NoDup m1 → NoDup m2 → length m2 = length m1 →
  (∀ q, q ∈ future → q ∈ m2 ↔ q ∈ m1) →
  (optimal_scan future m1).2 = Some v1 → m1 !! k1 = Some v1 →
  v2 ∈ m2 → (∀ q, q ∈ m2 → num_lt (g v2) (g q) = false) →
  nxt v1 ≠ (-1)%Z ∨ nxt v2 ≠ (-1)%Z → v1 = v2.
Proof.
  intros nxt g Hnd1 Hnd2 Hlen Hrel Hv1 Hk1 Hv2 Hmax2 Hlive.
  assert (∀ p, nxt p ≠ (-1)%Z → p ∈ future) as Hfut.
  { intros p Hp. destruct (decide (p ∈ future)); [done|].
    by apply indexOf_notin in n. }
  assert (∀ p, (-1 ≤ nxt p)%Z) as Hge by (intros p; apply findIndex_ge).
  pose proof (optimal_scan_inv future m1) as Hscan. fold nxt in Hscan.
  destruct (optimal_scan future m1) as [f [v|]]; simpl in Hv1; [|done].
  injection Hv1 as ->. destruct Hscan as (k & Hk & Hscan).
  assert (k = k1) as -> by by apply (NoDup_lookup m1 k k1 v1).
  assert (v1 ∈ m1) as Hv1 by by eapply list_elem_of_lookup_2.
  assert (nxt v2 ≠ (-1)%Z → ∀ q, q ∈ m2 → nxt q ≠ (-1)%Z) as Hall2.
  { intros Hl q Hq E. specialize (Hmax2 q Hq). unfold g in Hmax2.
    destruct (decide (nxt v2 = -1)%Z); [done|].
    by destruct (decide (nxt q = -1)%Z). }
  assert (nxt v1 ≠ (-1)%Z → ∀ q, q ∈ m1 → nxt q ≠ (-1)%Z) as Hall1.
  { intros Hl q [j Hj]%list_elem_of_lookup_1.
    destruct Hscan as [(_ & ? & _)|(_ & Hmax & _)]; [done|].
    specialize (Hmax _ _ Hj). lia. }
  assert (m1 ≡ₚ m2) as Hperm.
  { destruct (decide (nxt v1 = -1)%Z) as [Hd|Hl].
    - destruct Hlive as [?|Hl2]; [done|]. symmetry.
      apply subset_Permutation; [done..|].
      intros q Hq. apply Hrel; [|done]. by apply Hfut, Hall2.
    - apply subset_Permutation; [done..|].
      intros q Hq. apply Hrel; [|done]. by apply Hfut, Hall1. }
  assert (nxt v1 ≠ (-1)%Z) as Hl1.
  { destruct Hlive as [?|Hl2]; [done|]. apply (Hall2 Hl2). by rewrite <- Hperm. }
  assert (nxt v2 ≠ (-1)%Z) as Hl2.
  { apply (Hall1 Hl1). by rewrite Hperm. }
  destruct Hscan as [(_ & ? & _)|(_ & Hmax & _)]; [done|].
  assert (v2 ∈ m1) as [j Hj]%list_elem_of_lookup_1 by by rewrite Hperm.
  specialize (Hmax _ _ Hj).
  assert (v1 ∈ m2) as Hin by by rewrite <- Hperm.
  specialize (Hmax2 _ Hin). unfold g in Hmax2.
  rewrite !decide_False in Hmax2 by done. simpl in Hmax2.
  apply bool_decide_eq_false in Hmax2.
  symmetry. apply (indexOf_inj future); [done|]. fold (nxt v1) (nxt v2). lia.
Qed.

Lemma SimRel_access pages C algo n s t x :
  (1 ≤ C)%Z → recognised algo → pages !! n = Some x →
  Forall (λ p, isNaN p = false) (sim_memory t) →
  Inv C algo n s → (algo = "lru" → LruInv pages n s) →
  SimRel pages algo n s t →
  SimRel pages algo (S n) (access pages C algo s x n)
    (simulate_access isNaN pages C algo t x n).
Proof.
  intros HC Halgo Hx Hnan HI HL (Hf & Ho & Hnd' & Hlen' & Rf & Rl & Ro).
  pose proof HI as (Hlen & _ & _ & Hcap & Hnd & Hq).
  assert (drop n pages = x :: drop (S n) pages) as Hdrop
    by by apply drop_S.
  assert (x ∈ sim_memory t ↔ x ∈ v_memory s) as Hiff.
  { destruct (recognised_cases algo Halgo) as [-> | [[? ->] | (? & ? & ->)]].
    - by rewrite Rf, Hq.
    - by rewrite Rl.
    - apply Ro; [done|]. rewrite Hdrop. by left. }
  destruct (decide (x ∈ v_memory s)) as [Hin|Hin].
  { rewrite access_hit by done. rewrite sim_hit by by apply Hiff.
    unfold SimRel; simpl. rewrite !fmap_app. simpl.
    split_and!; try done; [by rewrite Ho|].
    intros Ha q Hq'. apply Ro; [done|]. rewrite Hdrop. by right. }
  assert (x ∉ sim_memory t) as Hin' by by rewrite Hiff.
  destruct (decide (Z.of_nat (length (v_memory s)) < C)%Z) as [Hfree|Hfull].
  { rewrite access_free by done. rewrite sim_free by (done || lia).
    unfold SimRel; simpl. rewrite !fmap_app, !length_app. simpl.
    split_and!.
    - by rewrite Hf.
    - by rewrite Ho.
    - apply NoDup_app. split_and!; [done| |apply NoDup_singleton].
      by intros q Hq' ->%list_elem_of_singleton.
    - lia.
    - intros Ha. by rewrite Rf.
    - intros Ha. by rewrite Rl.
    - intros Ha q Hq'. rewrite !elem_of_app, Ro; [done..|].
      rewrite Hdrop. by right. }
  destruct (access_full pages C algo s x n Halgo Hin Hfull)
    as (Hm' & Hr' & Hf' & Hh').
  destruct (victim_resident pages algo s n Halgo) as (v & k & Hv & Hk & Hidx);
    [|done..|].
  { intros E. rewrite E in Hfull. simpl in Hfull. lia. }
  rewrite Hidx, splice_replace in Hm' by (by eapply lookup_lt_Some).
  rewrite sim_full by (done || lia).
  assert (sim_memory t ≠ []) as Hne.
  { intros E. rewrite E in Hlen'. simpl in *. lia. }
  unfold SimRel. cbv zeta. cbn [sim_faults sim_output sim_memory].
  rewrite Hr', Hf', Hm', !fmap_app, length_insert. simpl.
  rewrite Hf, Ho. split; [done|]. split; [done|].
  destruct (recognised_cases algo Halgo) as [-> | [[? ->] | (? & ? & ->)]].
  - specialize (Rf eq_refl). specialize (Hq eq_refl).
    rewrite access_full_fifo by done. unfold evictOf. simpl.
    rewrite Rf in *. unfold victimOf in Hv. simpl in Hv.
    destruct (v_fifoQueue s) as [|v' q'] eqn:E; [done|]. simpl in *.
    injection Hv as ->. apply NoDup_cons in Hnd' as [Hv' Hnd'].
    split_and!; try done.
    + apply NoDup_app. split_and!; [done| |apply NoDup_singleton].
      intros q Hq' ->%list_elem_of_singleton. apply Hin'. by right.
    + rewrite length_app. simpl. lia.
  - specialize (Rl eq_refl). specialize (HL eq_refl).
    destruct (evict_lru pages (sim_memory t) n Hnan Hne)
      as (k' & v' & Hk' & -> & Hmin).
    unfold victimOf in Hv. simpl in Hv.
    pose proof (lru_scan_inv (v_lastUsed s) (v_memory s)) as Hscan.
    destruct (lru_scan _ _) as [[w|] b]; simpl in Hv; [|done].
    injection Hv as ->. destruct Hscan as (_ & _ & _ & Hmin1 & _).
    assert (v ∈ v_memory s) as Hvin by by eapply list_elem_of_lookup_2.
    assert (v' ∈ v_memory s) as Hvin'.
    { rewrite <- Rl. by eapply list_elem_of_lookup_2. }
    assert (v' = v) as ->.
    { destruct (HL v Hvin) as [Hpast Hlu]. destruct (HL v' Hvin') as [_ Hlu'].
      pose proof Hvin' as [j Hj]%list_elem_of_lookup_1.
      specialize (Hmin1 _ _ Hj). rewrite Hlu, Hlu' in Hmin1. simpl in Hmin1.
      assert (v ∈ sim_memory t) as Hvs by by rewrite Rl.
      specialize (Hmin _ Hvs). unfold lastUse in *. symmetry.
      apply (lastIndexOf_inj (take n pages)); [by apply lastIndexOf_elem|lia]. }
    destruct (delete_snoc_facts _ _ _ x Hnd' Hk' Hin') as (Hp & Hnd'' & Hl'' & _).
    split_and!; try done; [congruence|].
    intros _. rewrite Hp, (replace_Permutation _ _ _ _ Hk).
    apply Permutation_skip.
    rewrite (delete_Permutation _ _ _ Hk') in Rl.
    rewrite (delete_Permutation (v_memory s) _ _ Hk) in Rl.
    by apply Permutation_cons_inv in Rl.
  - specialize (Ro eq_refl).
    destruct (evict_optimal pages (sim_memory t) n Hnan Hne)
      as (k' & v' & Hk' & -> & Hmax).
    destruct (delete_snoc_facts _ _ _ x Hnd' Hk' Hin') as (_ & Hnd'' & Hl'' & He).
    split_and!; try done; [congruence|].
    intros _ q Hq'. rewrite He, (replace_elem _ _ _ _ _ Hnd Hk).
    assert (q ∈ sim_memory t ↔ q ∈ v_memory s) as Hqiff.
    { apply Ro. rewrite Hdrop. by right. }
    assert (q = v ∨ q = v' → v = v') as Hagree.
    { intros Hor. unfold victimOf in Hv. simpl in Hv.
      eapply (optimal_victims_agree (drop (S n) pages)
                (v_memory s) (sim_memory t) v v' k); try done.
      - intros p Hp. apply Ro. rewrite Hdrop. by right.
      - by eapply list_elem_of_lookup_2.
      - assert (indexOf (drop (S n) pages) q ≠ (-1)%Z) as Hlive
          by by intros E%indexOf_none.
        destruct Hor as [<- | <-]; [by left|by right]. }
    split.
    + intros [->|[Hqs Hne']]; [by left|]. right.
      split; [by apply Hqiff|]. intros ->. apply Hne', Hagree. by left.
    + intros [->|[Hqs Hne']]; [by left|]. right.
      split; [by apply Hqiff|]. intros ->. apply Hne'. symmetry.
      apply Hagree. by right.
Qed.

Lemma SimRel_at pages C algo n :
  (1 ≤ C)%Z → recognised algo → Forall (λ p, isNaN p = false) pages →
  n ≤ length pages →
  SimRel pages algo n (varsAt pages C algo n) (simAt isNaN pages C algo n).
Proof.
  intros HC Halgo Hnan. induction n as [|n IH]; intros Hn.
  - unfold simAt. rewrite varsAt_0, take_0. simpl.
    unfold SimRel; simpl. split_and!; try done; constructor.
  - destruct (lookup_lt_is_Some_2 pages n) as [x Hx]; [lia|].
    unfold simAt. rewrite (varsAt_S _ _ _ _ _ Hx), (forEach_take_S _ _ _ _ _ Hx).
    apply SimRel_access; [done..| | | |].
    + fold (simAt isNaN pages C algo n). rewrite Forall_forall in *.
      intros q Hq%simAt_memory_sub; [|lia]. apply Hnan.
      by eapply subseteq_take.
    + apply Inv_varsAt; [done..|lia].
    + intros ->. apply LruInv_varsAt; [done|lia].
    + apply IH. lia.
Qed.

(** C10. For every page sequence none of whose pages is NaN, every
    capacity of at least one and every recognised algorithm, [computeSteps]
    and the loop of [simulate] classify every access alike, hit or fault,
    and count the same number of faults. *)
Theorem C10_simulate_agrees pages C algo :
  (1 ≤ C)%Z → recognised algo → Forall (λ p, isNaN p = false) pages →
  hit <$> steps (computeSteps pages C algo)
  = snd <$> sim_output (simulate isNaN pages C algo)
  ∧ faults (totals (computeSteps pages C algo))
    = sim_faults (simulate isNaN pages C algo).
Proof.
  intros HC Halgo Hnan.
  destruct (SimRel_at pages C algo (length pages) HC Halgo Hnan ltac:(lia))
    as (Hf & Ho & _).
  rewrite computeSteps_varsAt. simpl.
  unfold simAt in *. rewrite take_ge in * by lia. done.
Qed.
End Refinement.

(** ** What the frames hold *)

Section Frames.
Context {Page : Type} `{Countable Page}.
Implicit Types (pages : list Page) (s : Vars (Page:=Page)) (x : Page).
Implicit Types (C : Z) (algo : string) (i n : nat).
Implicit Types (rs : list (Step (Page:=Page))) (r : Step (Page:=Page)).

(** Under any selector and capacity, an access adds no page but the one
    accessed. *)
Lemma access_memory_sub pages C algo s x i q :
  q ∈ v_memory (access pages C algo s x i) → q ∈ v_memory s ∨ q = x.
Proof.
  assert (∀ a b, q ∈ splice (v_memory s) a b [x] → q ∈ v_memory s ∨ q = x)
    as Hsp.
  { intros a b [?|?%list_elem_of_singleton]%elem_of_splice; auto. }
  unfold access. destruct (includes (v_memory s) x); simpl; [auto|].
  case_decide; simpl.
  { intros [?|?%list_elem_of_singleton]%elem_of_app; auto. }
  case_decide; [destruct (shift (v_fifoQueue s)); simpl; apply Hsp|].
  repeat case_decide; simpl; solve [auto | apply Hsp].
Qed.

Lemma access_faults pages C algo s x i :
  v_faults (access pages C algo s x i) =
  if includes (v_memory s) x then v_faults s else S (v_faults s).
Proof.
  unfold access. destruct (includes (v_memory s) x); simpl; [done|].
  case_decide; [done|].
  case_decide; [by destruct (shift (v_fifoQueue s))|].
  by repeat case_decide.
Qed.

Lemma memory_from_pages pages C algo n :
  n ≤ length pages →
  ∀ q, q ∈ v_memory (varsAt pages C algo n) → q ∈ take n pages.
Proof.
  apply (varsAt_ind pages C algo (λ n s, ∀ q, q ∈ v_memory s → q ∈ take n pages)).
  - by intros q Hq%elem_of_nil.
  - intros k x Hx IH q Hq. rewrite (take_S_r _ _ _ Hx), elem_of_app.
    apply access_memory_sub in Hq as [Hq| ->]; [left; by apply IH|].
    right. by left.
Qed.

(** The record of access [i] carries the frames left by that access. *)
Lemma step_memory pages C algo i r :
  (1 ≤ C)%Z → recognised algo →
  steps (computeSteps pages C algo) !! i = Some r →
  pages !! i = Some (page r)
  ∧ memory r = v_memory (varsAt pages C algo (S i))
  ∧ page r ∈ memory r.
Proof.
  intros HC Halgo Hr.
  destruct (steps_lookup pages C algo i r HC Halgo Hr)
    as (x & Hx & Hres & _ & _ & HI).
  rewrite (varsAt_S _ _ _ _ _ Hx).
  destruct (access_emits pages C algo (varsAt pages C algo i) x i)
    as [_ [(_ & _ & Hno)|(r' & Hr' & _ & Hp & Hm & _)]]; [done|].
  rewrite Hres in Hr'. apply app_inj_tail in Hr' as [_ <-].
  rewrite Hp, Hm. split_and!; [done..|].
  destruct (access_memory pages C algo i _ x HC Halgo HI)
    as [(? & ->)|[(_ & _ & ->)|(_ & _ & v & k & _ & Hk & ->)]].
  - done.
  - apply elem_of_app. right. by left.
  - apply list_elem_of_insert. by eapply lookup_lt_Some.
Qed.

(** X1. Under a recognised algorithm and a capacity of at least one, every
    snapshot holds at most [C] pages, holds no page twice, holds the page
    just accessed, and holds only pages accessed so far. *)
Theorem X1_frames_wellformed pages C algo i r :
  (1 ≤ C)%Z → recognised algo →
  steps (computeSteps pages C algo) !! i = Some r →
  (Z.of_nat (length (memory r)) ≤ C)%Z ∧ NoDup (memory r)
  ∧ page r ∈ memory r ∧ ∀ q, q ∈ memory r → q ∈ take (S i) pages.
Proof.
  intros HC Halgo Hr.
  destruct (step_memory pages C algo i r HC Halgo Hr) as (Hx & Hm & Hin).
  pose proof (lookup_lt_Some _ _ _ Hx) as Hi.
  destruct (Inv_varsAt pages C algo (S i) HC Halgo ltac:(lia))
    as (_ & _ & _ & Hcap & Hnd & _).
  rewrite Hm in *. split_and!; [done..|].
  apply memory_from_pages. lia.
Qed.

Lemma requeue_Permutation (queue m : list Page) k v x :
  NoDup m → queue ≡ₚ m → m !! k = Some v →
  requeue queue (Some v) x ≡ₚ <[k:=x]> m.
Proof.
  intros Hnd Hq Hk. unfold requeue. simpl.
  assert (v ∈ queue) as Hv by (rewrite Hq; by eapply list_elem_of_lookup_2).
  destruct (indexOf_elem queue v Hv) as (k' & -> & Hk' & _).
  rewrite decide_False by lia.
  rewrite splice_replace by by eapply lookup_lt_Some.
  rewrite (replace_Permutation _ _ _ _ Hk), (replace_Permutation _ _ _ _ Hk').
  apply Permutation_skip.
  rewrite (delete_Permutation _ _ _ Hk'), (delete_Permutation m _ _ Hk) in Hq.
  by apply Permutation_cons_inv in Hq.
Qed.

(** The queue and the map after a fault with no free slot. *)
Lemma access_full_meta pages C algo s x i v :
  recognised algo →
  x ∉ v_memory s → ¬ (Z.of_nat (length (v_memory s)) < C)%Z →
  victimOf pages algo s i = Some v → v ≠ x →
  let s' := access pages C algo s x i in
  v_lastUsed s' = <[x := Z.of_nat i]> (delete v (v_lastUsed s))
  ∧ v_fifoQueue s' =
      if decide (algo = "fifo") then (shift (v_fifoQueue s)).2 ++ [x]
      else requeue (v_fifoQueue s) (Some v) x.
Proof.
  intros Halgo Hx%includes_false Hfull Hv Hne. cbv zeta.
  destruct (recognised_cases algo Halgo) as [-> | [[? ->] | (? & ? & ->)]];
    unfold victimOf in Hv; simpl in Hv; unfold access; rewrite Hx.
  - rewrite decide_False, !decide_True by done.
    destruct (shift (v_fifoQueue s)) as [old q]. simpl in *. subst old.
    simpl. split; [|done]. by rewrite delete_insert_ne.
  - rewrite !decide_False, decide_True by done. simpl. by rewrite Hv.
  - rewrite !decide_False, decide_True by done. simpl. by rewrite Hv.
Qed.

Lemma Bookkeeping_access pages C algo n s x :
  (1 ≤ C)%Z → recognised algo → pages !! n = Some x →
  Inv C algo n s → Bookkeeping pages n s →
  Bookkeeping pages (S n) (access pages C algo s x n).
Proof.
  intros HC Halgo Hx HI [Hq Hlu].
  pose proof HI as (_ & _ & _ & _ & Hnd & _).
  assert (∀ (lu : gmap Page Z) (m : list Page),
            (∀ q, q ≠ x → lu !! q = if decide (q ∈ m) then v_lastUsed s !! q
                                    else None) →
            (∀ q, q ≠ x → q ∈ m → q ∈ v_memory s) → x ∈ m →
            ∀ q, <[x:=Z.of_nat n]> lu !! q =
                 if decide (q ∈ m) then Some (lastUse pages (S n) q) else None)
    as Hstep.
  { intros lu m Hold Hsub Hxm q. rewrite (lastUse_S _ _ _ _ Hx).
    destruct (decide (x = q)) as [->|Hne].
    - by rewrite lookup_insert_eq, decide_True.
    - rewrite lookup_insert_ne, Hold by done. case_decide as Hqm; [|done].
      by rewrite Hlu, decide_True by auto. }
  destruct (decide (x ∈ v_memory s)) as [Hin|Hin].
  { rewrite access_hit by done. split; [done|]. simpl. apply Hstep; [|done..].
    intros q Hne. by case_decide; [|rewrite Hlu, decide_False]. }
  destruct (decide (Z.of_nat (length (v_memory s)) < C)%Z) as [Hfree|Hfull].
  { rewrite access_free by done. split; simpl; [by rewrite Hq|].
    apply Hstep.
    - intros q Hne. case_decide as Hqm.
      + done.
      + rewrite Hlu, decide_False; [done|]. intros ?. apply Hqm, elem_of_app.
        by left.
    - intros q Hne [?|?%list_elem_of_singleton]%elem_of_app; done.
    - apply elem_of_app. right. by left. }
  destruct (access_memory pages C algo n s x HC Halgo HI)
    as [(? & _)|[(_ & ? & _)|(_ & _ & v & k & Hv & Hk & Hm)]]; [done..|].
  assert (v ≠ x) as Hvx.
  { intros ->. apply Hin. by eapply list_elem_of_lookup_2. }
  destruct (access_full_meta pages C algo s x n v Halgo Hin Hfull Hv Hvx)
    as [Hlu' Hq'].
  split.
  - rewrite Hq', Hm. case_decide as Hf; [|by apply requeue_Permutation].
    subst algo. unfold victimOf in Hv. simpl in Hv.
    destruct (v_fifoQueue s) as [|v' q]; [done|]. simpl in *.
    injection Hv as ->.
    rewrite (replace_Permutation _ _ _ _ Hk), <- Permutation_cons_append.
    apply Permutation_skip. rewrite (delete_Permutation _ _ _ Hk) in Hq.
    by apply Permutation_cons_inv in Hq.
  - rewrite Hlu', Hm. apply Hstep.
    + intros q Hne. destruct (decide (q ∈ <[k:=x]> (v_memory s))) as [Hqm|Hqm].
      * apply (replace_elem _ _ _ _ _ Hnd Hk) in Hqm as [->|[_ Hqv]]; [done|].
        by rewrite lookup_delete_ne.
      * destruct (decide (q = v)) as [->|Hqv]; [by rewrite lookup_delete_eq|].
        rewrite lookup_delete_ne, Hlu, decide_False; [done| |done].
        intros Hq1. apply Hqm, (replace_elem _ _ _ _ _ Hnd Hk). auto.
    + intros q Hne [?|[? _]]%(replace_elem _ _ _ _ _ Hnd Hk); done.
    + apply list_elem_of_insert. by eapply lookup_lt_Some.
Qed.

(** X2. Under every recognised algorithm and a capacity of at least one,
    after [n] accesses [meta.fifoQueue] holds exactly the resident pages,
    and [meta.lastUsed] has an entry exactly for the resident pages, each
    the index of that page's latest access. *)
Theorem X2_bookkeeping pages C algo n :
  (1 ≤ C)%Z → recognised algo → n ≤ length pages →
  Bookkeeping pages n (varsAt pages C algo n).
Proof.
  intros HC Halgo. induction n as [|n IH]; intros Hn.
  - rewrite varsAt_0. split; [done|]. intros q.
    destruct (decide _) as [?%elem_of_nil|]; [done|apply lookup_empty].
  - destruct (lookup_lt_is_Some_2 pages n) as [x Hx]; [lia|].
    rewrite (varsAt_S _ _ _ _ _ Hx). apply Bookkeeping_access; [done..| |].
    + apply Inv_varsAt; [done..|lia].
    + apply IH. lia.
Qed.
End Frames.

(** ** Fault counts *)

Section Faults.
Context {Page : Type} `{Countable Page}.
Implicit Types (pages l : list Page) (s : Vars (Page:=Page)) (x : Page).
Implicit Types (C : Z) (algo : string) (i n : nat).
Implicit Types (rs : list (Step (Page:=Page))) (r : Step (Page:=Page)).

Lemma distinct_snoc l x :
  length (remove_dups (l ++ [x])) =
  if decide (x ∈ l) then length (remove_dups l)
  else S (length (remove_dups l)).
Proof.
  case_decide as Hx.
  - apply Permutation_length, NoDup_Permutation; [apply NoDup_remove_dups..|].
    intros q. rewrite !elem_of_remove_dups, elem_of_app, list_elem_of_singleton.
    split; [intros [?| ->]; done|auto].
  - change (S (length (remove_dups l))) with (length (x :: remove_dups l)).
    apply Permutation_length, NoDup_Permutation.
    + apply NoDup_remove_dups.
    + apply NoDup_cons. split; [by rewrite elem_of_remove_dups|].
      apply NoDup_remove_dups.
    + intros q. rewrite elem_of_cons, !elem_of_remove_dups, elem_of_app,
        list_elem_of_singleton. tauto.
Qed.

Lemma distinct_take_le l k :
  length (remove_dups (take k l)) ≤ length (remove_dups l).
Proof.
  apply submseteq_length, NoDup_submseteq; [apply NoDup_remove_dups|].
  intros q. rewrite !elem_of_remove_dups. apply subseteq_take.
Qed.

Lemma distinct_NoDup l m :
  NoDup m → (∀ q, q ∈ m ↔ q ∈ l) → length m = length (remove_dups l).
Proof.
  intros Hnd Hel. apply Permutation_length, NoDup_Permutation;
    [done|apply NoDup_remove_dups|].
  intros q. by rewrite elem_of_remove_dups.
Qed.

(** X3. For every selector and every capacity, the fault total is at
    least the number of distinct pages, the first access to a page always
    being a fault, and at most the number of accesses. *)
Theorem X3_fault_bounds pages C algo :
  length (remove_dups pages) ≤ faults (totals (computeSteps pages C algo))
  ∧ faults (totals (computeSteps pages C algo)) ≤ length pages.
Proof.
  rewrite computeSteps_varsAt. simpl. split.
  - rewrite <- (take_ge pages (length pages)) at 1 by lia.
    apply (varsAt_ind pages C algo
             (λ n s, length (remove_dups (take n pages)) ≤ v_faults s));
      [done| |done].
    intros n x Hx IH. pose proof (lookup_lt_Some _ _ _ Hx) as Hn.
    rewrite (take_S_r _ _ _ Hx), distinct_snoc, access_faults.
    case_decide as Hin.
    + destruct (includes _ x); lia.
    + rewrite (proj2 (includes_false _ x)); [lia|].
      intros Hm. apply Hin.
      by apply (memory_from_pages pages C algo n ltac:(lia)).
  - destruct (any_run_counts pages C algo (length pages)) as [Hc _]; [done|].
    lia.
Qed.

(** X4. When the distinct pages fit in the frames, under any selector no
    page is ever evicted: every access is a hit or fills a free slot, every
    access has its record, and the fault total is the number of distinct
    pages. *)
Theorem X4_no_eviction_when_fits pages C algo :
  (Z.of_nat (length (remove_dups pages)) ≤ C)%Z →
  let res := computeSteps pages C algo in
  faults (totals res) = length (remove_dups pages)
  ∧ length (steps res) = length pages
  ∧ Forall (λ r, info r = Hit ∨ info r = PlacedIntoFreeSlot) (steps res).
Proof.
  intros Hfit res. subst res. rewrite computeSteps_varsAt. simpl.
  pose proof (varsAt_ind pages C algo (λ n s,
    NoDup (v_memory s) ∧ (∀ q, q ∈ v_memory s ↔ q ∈ take n pages)
    ∧ v_faults s = length (v_memory s) ∧ length (v_result s) = n
    ∧ Forall (λ r, info r = Hit ∨ info r = PlacedIntoFreeSlot) (v_result s)))
    as Hind.
  destruct (Hind) with (n := length pages)
    as (Hnd & Hel & Hf & Hlen & Hall); [| |done|].
  - split_and!; [constructor|by intros q|done|done|constructor].
  - intros n x Hx (Hnd & Hel & Hf & Hlen & Hall).
    set (s := varsAt pages C algo n) in *.
    assert (∀ q, q ∈ take (S n) pages ↔ q ∈ take n pages ∨ q = x) as Hsn.
    { intros q. rewrite (take_S_r _ _ _ Hx), elem_of_app,
        list_elem_of_singleton. done. }
    destruct (decide (x ∈ v_memory s)) as [Hin|Hin].
    + rewrite access_hit by done. simpl. rewrite length_app. simpl.
      split_and!; [done| |done|lia|].
      * intros q. rewrite Hsn, Hel. split; [auto|].
        intros [?| ->]; [done|]. by apply Hel.
      * apply Forall_app. split; [done|]. constructor; [by left|constructor].
    + assert (Z.of_nat (length (v_memory s)) < C)%Z as Hfree.
      { pose proof (distinct_take_le pages (S n)) as Hle.
        rewrite (take_S_r _ _ _ Hx), distinct_snoc, decide_False in Hle
          by (by rewrite <- Hel).
        rewrite <- (distinct_NoDup _ _ Hnd Hel) in Hle. lia. }
      rewrite access_free by done. simpl. rewrite !length_app. simpl.
      split_and!; [| |lia|lia|].
      * apply NoDup_app. split_and!; [done| |apply NoDup_singleton].
        by intros q Hq ->%list_elem_of_singleton.
      * intros q. rewrite Hsn, elem_of_app, list_elem_of_singleton, Hel. done.
      * apply Forall_app. split; [done|]. constructor; [by right|constructor].
  - rewrite take_ge in Hel by lia. split_and!; [|done..].
    rewrite Hf. by apply distinct_NoDup.
Qed.

Lemma steps_hit_iff pages C algo i r :
  steps (computeSteps pages C algo) !! i = Some r →
  hit r = true ↔ page r ∈ framesBefore (steps (computeSteps pages C algo)) i.
Proof.
  intros Hr. rewrite computeSteps_varsAt in *. simpl in *.
  by apply (hit_flags pages C algo (length pages)).
Qed.

(** X5. With a single frame, under every recognised algorithm, the frame
    holds the page just accessed, and an access is a hit exactly when it
    repeats the page of the access before it. *)
Theorem X5_single_frame pages algo i r :
  recognised algo →
  steps (computeSteps pages 1 algo) !! i = Some r →
  memory r = [page r]
  ∧ (hit r = true ↔ ∃ j, i = S j ∧ pages !! j = Some (page r)).
Proof.
  intros Halgo Hr.
  assert (∀ k r', steps (computeSteps pages 1 algo) !! k = Some r' →
            pages !! k = Some (page r') ∧ memory r' = [page r']) as Hone.
  { intros k r' Hr'.
    destruct (step_memory pages 1 algo k r' ltac:(lia) Halgo Hr')
      as (Hx & Hm & Hin).
    pose proof (lookup_lt_Some _ _ _ Hx) as Hk.
    destruct (Inv_varsAt pages 1 algo (S k) ltac:(lia) Halgo ltac:(lia))
      as (_ & _ & _ & Hcap & _).
    rewrite <- Hm in Hcap. split; [done|].
    destruct (memory r') as [|a [|b m]]; simpl in Hcap; [|..|lia].
    - by apply elem_of_nil in Hin.
    - by apply list_elem_of_singleton in Hin as ->. }
  split; [by destruct (Hone _ _ Hr)|].
  rewrite (steps_hit_iff _ _ _ _ _ Hr). destruct i as [|j]; cbn [framesBefore].
  - split; [by intros ?%elem_of_nil|]. by intros (j & ? & _).
  - destruct (lookup_lt_is_Some_2 (steps (computeSteps pages 1 algo)) j)
      as [r' Hr']; [apply lookup_lt_Some in Hr; lia|].
    rewrite Hr'. simpl. destruct (Hone _ _ Hr') as [Hp ->].
    rewrite list_elem_of_singleton. split.
    + intros Heq. exists j. by rewrite Heq.
    + intros (j' & [= <-] & Hp'). congruence.
Qed.
End Faults.

(** ** LRU and recency *)

Section Recency.
Context {Page : Type} `{Countable Page}.
Implicit Types (pages l m : list Page) (s : Vars (Page:=Page)) (x : Page).
Implicit Types (C : Z) (algo : string) (i n c : nat).
Implicit Types (r : Step (Page:=Page)).

Lemma mru_snoc l x : mru (l ++ [x]) = touch x (mru l).
Proof. unfold mru. by rewrite foldl_snoc. Qed.

Lemma mru_elem l q : q ∈ mru l ↔ q ∈ l.
Proof.
  induction l as [|x l IH] using rev_ind; [done|].
  rewrite mru_snoc. unfold touch.
  rewrite elem_of_cons, list_elem_of_filter, IH, elem_of_app,
    list_elem_of_singleton.
  destruct (decide (q = x)); tauto.
Qed.

Lemma mru_NoDup l : NoDup (mru l).
Proof.
  induction l as [|x l IH] using rev_ind; [constructor|].
  rewrite mru_snoc. apply NoDup_cons. split; [|by apply NoDup_filter].
  rewrite list_elem_of_filter. by intros [? _].
Qed.

Lemma StronglySorted_filter_weaken (R R' : relation Page) (P : Page → Prop)
    `{∀ y, Decision (P y)} m :
  (∀ a b, P a → P b → R a b → R' a b) →
  StronglySorted R m → StronglySorted R' (filter P m).
Proof.
  intros HR Hs. induction Hs as [|a m Hs IH Hall]; [constructor|].
  rewrite filter_cons. case_decide as Ha; [|done].
  constructor; [done|]. apply Forall_forall.
  intros b [Hb Hin]%list_elem_of_filter. rewrite Forall_forall in Hall. auto.
Qed.

(** The recency list runs from the latest access back. *)
Lemma mru_sorted l :
  StronglySorted (λ a b, (lastIndexOf l b < lastIndexOf l a)%Z) (mru l).
Proof.
  induction l as [|x l IH] using rev_ind; [constructor|].
  rewrite mru_snoc. unfold touch. constructor.
  - eapply StronglySorted_filter_weaken; [|done]. simpl.
    intros a b Ha Hb.
    by rewrite !lastIndexOf_snoc, !decide_False by (by intros ->).
  - rewrite Forall_forall. intros b [Hb _]%list_elem_of_filter.
    rewrite !lastIndexOf_snoc, decide_False by (by intros ->).
    rewrite decide_True by done. apply lastIndexOf_range.
Qed.

Lemma filter_id (P : Page → Prop) `{∀ y, Decision (P y)} m :
  (∀ y, y ∈ m → P y) → filter P m = m.
Proof.
  induction m as [|a m IH]; intros Hall; [done|].
  rewrite filter_cons_True by (apply Hall; by left).
  f_equal. apply IH. intros y Hy. apply Hall. by right.
Qed.

Lemma take_filter_prefix (P : Page → Prop) `{∀ y, Decision (P y)} m c :
  (∀ y, y ∈ take c m → P y) → take c (filter P m) = take c m.
Proof.
  revert c. induction m as [|a m IH]; intros [|c] Hall; try done.
  simpl in Hall. rewrite filter_cons_True by (apply Hall; by left).
  simpl. f_equal. apply IH. intros y Hy. apply Hall. by right.
Qed.

(** Touching one of the first [c] pages permutes the first [c] pages. *)
Lemma take_touch_hit m c x :
  NoDup m → x ∈ take c m → take c (touch x m) ≡ₚ take c m.
Proof.
  intros Hnd (j & Hj & Hjc)%elem_of_take.
  rewrite <- (take_drop_middle _ _ _ Hj) in Hnd |- *.
  apply NoDup_app in Hnd as (_ & Hx1 & [Hx2 _]%NoDup_cons).
  assert (length (take j m) = j) as Hlen.
  { apply length_take_le. apply lookup_lt_Some in Hj. lia. }
  unfold touch. rewrite filter_app, filter_cons_False by (by intros ?).
  rewrite !filter_id.
  2:{ intros y Hy ->. done. }
  2:{ intros y Hy ->. by eapply Hx1; [|left]. }
  destruct c as [|c]; [lia|]. simpl.
  rewrite !take_app, Hlen.
  rewrite (take_ge (take j m) c), (take_ge (take j m) (S c)) by lia.
  replace (S c - j) with (S (c - j)) by lia. simpl.
  by rewrite Permutation_middle.
Qed.

(** Touching any other page pushes the first [c] pages down by one. *)
Lemma take_touch_miss m c x :
  x ∉ take (S c) m → take (S c) (touch x m) = x :: take c m.
Proof.
  intros Hx. unfold touch. simpl. f_equal. apply take_filter_prefix.
  intros y Hy ->. apply Hx.
  apply elem_of_take in Hy as (j & Hj & Hjc). apply elem_of_take.
  exists j. split; [done|lia].
Qed.

(** The LRU victim has the smallest last use among the resident pages. *)
Lemma lru_victim_min pages n s v :
  LruInv pages n s → victimOf pages "lru" s n = Some v →
  ∀ q, q ∈ v_memory s → (lastUse pages n v ≤ lastUse pages n q)%Z.
Proof.
  intros HL Hv q Hq. unfold victimOf in Hv. simpl in Hv.
  pose proof (lru_scan_inv (v_lastUsed s) (v_memory s)) as Hscan.
  destruct (lru_scan _ _) as [[w|] b]; simpl in Hv; [|done].
  injection Hv as ->. destruct Hscan as (_ & k & Hk & Hmin & _).
  pose proof Hq as [j Hj]%list_elem_of_lookup_1. specialize (Hmin _ _ Hj).
  destruct (HL q Hq) as [_ Hlq].
  destruct (HL v) as [_ Hlv]; [by eapply list_elem_of_lookup_2|].
  by rewrite Hlq, Hlv in Hmin.
Qed.

Lemma lru_recency_access pages C n s x :
  (1 ≤ C)%Z → pages !! n = Some x →
  Inv C "lru" n s → LruInv pages n s →
  v_memory s ≡ₚ take (Z.to_nat C) (mru (take n pages)) →
  v_memory (access pages C "lru" s x n)
  ≡ₚ take (Z.to_nat C) (mru (take (S n) pages)).
Proof.
  intros HC Hx HI HL Hm. assert (recognised "lru") as Halgo by (right; by left).
  rewrite (take_S_r _ _ _ Hx), mru_snoc.
  set (M := mru (take n pages)) in *.
  pose proof (mru_NoDup (take n pages)) as HndM. fold M in HndM.
  destruct (Z.to_nat C) as [|c] eqn:Ec; [lia|].
  destruct (access_memory pages C "lru" n s x HC Halgo HI)
    as [(Hin & ->)|[(Hin & Hfree & ->)|(Hin & Hfull & v & k & Hv & Hk & ->)]].
  - rewrite take_touch_hit; [done..|]. by rewrite <- Hm.
  - rewrite take_touch_miss by by rewrite <- Hm.
    rewrite <- Permutation_cons_append. apply Permutation_skip.
    rewrite Hm. apply Permutation_length in Hm.
    rewrite length_take in Hm. rewrite !take_ge; [done|lia..].
  - rewrite take_touch_miss by by rewrite <- Hm.
    rewrite (replace_Permutation _ _ _ _ Hk). apply Permutation_skip.
    pose proof (Permutation_length Hm) as Hlen. rewrite length_take in Hlen.
    destruct (lookup_lt_is_Some_2 M c) as [w Hw]; [lia|].
    rewrite (take_S_r _ _ _ Hw), <- Permutation_cons_append in Hm.
    assert (v = w) as ->.
    { assert (v ∈ w :: take c M) as [?|Hvt]%elem_of_cons; [|done|].
      { rewrite <- Hm. by eapply list_elem_of_lookup_2. }
      assert (w ∈ v_memory s) as Hwm by (rewrite Hm; by left).
      pose proof (lru_victim_min pages n s v HL Hv w Hwm) as Hmin.
      pose proof (mru_sorted (take n pages)) as Hs. fold M in Hs.
      rewrite <- (take_drop c M) in Hs.
      assert (w ∈ drop c M) as Hwd.
      { apply list_elem_of_lookup. exists 0.
        by rewrite lookup_drop, Nat.add_0_r. }
      pose proof (StronglySorted_app_1_elem_of _ _ _ _ _ Hs Hvt Hwd) as Hlt.
      unfold lastUse in Hmin. simpl in Hlt. lia. }
    rewrite (delete_Permutation _ _ _ Hk) in Hm.
    by apply Permutation_cons_inv in Hm.
Qed.

Lemma lru_recency_at pages C n :
  (1 ≤ C)%Z → n ≤ length pages →
  v_memory (varsAt pages C "lru" n) ≡ₚ take (Z.to_nat C) (mru (take n pages)).
Proof.
  intros HC. induction n as [|n IH]; intros Hn.
  - rewrite varsAt_0, take_0. change (mru []) with (@nil Page).
    by rewrite take_nil.
  - destruct (lookup_lt_is_Some_2 pages n) as [x Hx]; [lia|].
    rewrite (varsAt_S _ _ _ _ _ Hx). apply lru_recency_access; [done..| | |].
    + apply Inv_varsAt; [done|right; by left|lia].
    + apply LruInv_varsAt; [done|lia].
    + apply IH. lia.
Qed.

(** X6. Under LRU with a capacity of at least one, the frames after each
    access hold exactly the [C] most recently accessed distinct pages, all
    the distinct pages when there are fewer. *)
Theorem X6_lru_recency pages C i r :
  (1 ≤ C)%Z →
  steps (computeSteps pages C "lru") !! i = Some r →
  memory r ≡ₚ take (Z.to_nat C) (mru (take (S i) pages)).
Proof.
  intros HC Hr.
  destruct (step_memory pages C "lru" i r HC ltac:(right; by left) Hr)
    as (Hx & -> & _).
  apply lru_recency_at; [done|]. apply lookup_lt_Some in Hx. lia.
Qed.

Lemma lru_resident_mono pages C C' n q :
  (1 ≤ C)%Z → (C ≤ C')%Z → n ≤ length pages →
  q ∈ v_memory (varsAt pages C "lru" n) → q ∈ v_memory (varsAt pages C' "lru" n).
Proof.
  intros HC HC' Hn. rewrite !lru_recency_at by (done || lia).
  rewrite !elem_of_take. intros (j & Hj & Hlt). exists j. split; [done|lia].
Qed.

(** X7. LRU has the inclusion property: with more frames, every access
    that was a hit is still a hit, so the fault total never grows. *)
Theorem X7_lru_inclusion pages C C' :
  (1 ≤ C)%Z → (C ≤ C')%Z →
  (∀ i r r', steps (computeSteps pages C "lru") !! i = Some r →
             steps (computeSteps pages C' "lru") !! i = Some r' →
             hit r = true → hit r' = true)
  ∧ faults (totals (computeSteps pages C' "lru"))
    ≤ faults (totals (computeSteps pages C "lru")).
Proof.
  intros HC HC'. assert (recognised "lru") as Halgo by (right; by left).
  split.
  - intros i r r' Hr Hr'.
    destruct (step_shape pages C _ i r HC Halgo Hr) as (x & Hx & Hm & Hsh).
    destruct (step_shape pages C' _ i r' ltac:(lia) Halgo Hr')
      as (x' & Hx' & Hm' & Hsh').
    assert (x' = x) as -> by congruence.
    pose proof (lookup_lt_Some _ _ _ Hx) as Hi.
    destruct Hsh as [(Hin & ->)|[(_ & _ & ->)|(_ & _ & v & k & _ & _ & ->)]];
      [|done..].
    intros _. rewrite <- Hm in Hin.
    apply (lru_resident_mono pages C C' i x HC HC' ltac:(lia)) in Hin.
    rewrite Hm' in Hin.
    by destruct Hsh' as [(_ & ->)|[(Hno & _)|(Hno & _)]].
  - rewrite !computeSteps_varsAt. simpl.
    assert (∀ n, n ≤ length pages →
              v_faults (varsAt pages C' "lru" n)
              ≤ v_faults (varsAt pages C "lru" n)) as Hall; [|by apply Hall].
    induction n as [|n IH]; intros Hn; [by rewrite !varsAt_0|].
    destruct (lookup_lt_is_Some_2 pages n) as [x Hx]; [lia|].
    rewrite !(varsAt_S _ _ _ _ _ Hx), !access_faults.
    specialize (IH ltac:(lia)).
    destruct (includes (v_memory (varsAt pages C "lru" n)) x) eqn:E.
    + apply includes_true in E.
      apply (lru_resident_mono pages C C' n x HC HC' ltac:(lia)) in E.
      apply includes_true in E. by rewrite E.
    + destruct (includes (v_memory (varsAt pages C' "lru" n)) x); lia.
Qed.
End Recency.

(** ** The loop of [simulate], and unrecognised selectors *)

Section SimulateFacts.
Context {Page : Type} `{Countable Page}.
Variable isNaN : Page → bool.
Implicit Types (pages l : list Page) (s : Vars (Page:=Page)) (x : Page).
Implicit Types (t : SimVars (Page:=Page)).
Implicit Types (C : Z) (algo : string) (i n : nat).

(** Every access of [simulate] is rendered: the page, the frames it leaves
    and the hit flag. *)
Lemma sim_emits pages C algo t x i :
  let t' := simulate_access isNaN pages C algo t x i in
  sim_output t' =
    sim_output t ++ [(x, sim_memory t', includes (sim_memory t) x)]
  ∧ (x ∈ sim_memory t')
  ∧ sim_faults t' =
      if includes (sim_memory t) x then sim_faults t else S (sim_faults t).
Proof.
  unfold simulate_access. destruct (includes (sim_memory t) x) eqn:E; simpl.
  - split_and!; [done| |done]. by apply includes_true.
  - split_and!; [done| |done].
    case_decide; apply elem_of_app; right; by left.
Qed.

Lemma simAt_S pages C algo n x :
  pages !! n = Some x →
  simAt isNaN pages C algo (S n) =
  simulate_access isNaN pages C algo (simAt isNaN pages C algo n) x n.
Proof. apply forEach_take_S. Qed.

Lemma simAt_output pages C algo n :
  n ≤ length pages →
  length (sim_output (simAt isNaN pages C algo n)) = n
  ∧ ∀ m, n ≤ m → m ≤ length pages →
         sim_output (simAt isNaN pages C algo n)
         = take n (sim_output (simAt isNaN pages C algo m)).
Proof.
  intros Hn.
  assert (∀ k, k ≤ length pages →
            length (sim_output (simAt isNaN pages C algo k)) = k) as Hlen.
  { induction k as [|k IH]; intros Hk.
    - unfold simAt. by rewrite take_0.
    - destruct (lookup_lt_is_Some_2 pages k) as [x Hx]; [lia|].
      rewrite (simAt_S _ _ _ _ _ Hx).
      destruct (sim_emits pages C algo (simAt isNaN pages C algo k) x k) as [-> _].
      rewrite length_app, IH by lia. simpl. lia. }
  split; [by apply Hlen|].
  induction m as [|m IH]; intros Hnm Hm.
  - assert (n = 0) as -> by lia. by rewrite take_0.
  - destruct (decide (n = S m)) as [->|Hne].
    + by rewrite take_ge by (rewrite Hlen; lia).
    + destruct (lookup_lt_is_Some_2 pages m) as [x Hx]; [lia|].
      rewrite (simAt_S _ _ _ _ _ Hx).
      destruct (sim_emits pages C algo (simAt isNaN pages C algo m) x m) as [-> _].
      rewrite take_app_le by (rewrite Hlen; lia). apply IH; lia.
Qed.

(** Whatever page is NaN, the frames of [simulate] never hold a page
    twice nor more than [C] pages. *)
Lemma sim_frames_inv pages C algo n :
  (1 ≤ C)%Z → recognised algo → n ≤ length pages →
  NoDup (sim_memory (simAt isNaN pages C algo n))
  ∧ (Z.of_nat (length (sim_memory (simAt isNaN pages C algo n))) ≤ C)%Z.
Proof.
  intros HC Halgo. induction n as [|n IH]; intros Hn.
  - unfold simAt. rewrite take_0. simpl. split; [constructor|lia].
  - destruct (lookup_lt_is_Some_2 pages n) as [x Hx]; [lia|].
    destruct IH as [Hnd Hcap]; [lia|]. rewrite (simAt_S _ _ _ _ _ Hx).
    set (t := simAt isNaN pages C algo n) in *.
    destruct (decide (x ∈ sim_memory t)) as [Hin|Hin].
    { by rewrite sim_hit. }
    destruct (decide (Z.of_nat (length (sim_memory t)) < C)%Z) as [Hfree|Hfull].
    { rewrite sim_free by done. simpl. rewrite length_app. simpl.
      split; [|lia]. apply NoDup_app. split_and!; [done| |apply NoDup_singleton].
      by intros q Hq ->%list_elem_of_singleton. }
    rewrite sim_full by done. simpl.
    destruct (evict_delete isNaN pages algo (sim_memory t) n Halgo)
      as (k & v & Hk & ->).
    { intros E. rewrite E in Hfull. simpl in Hfull. lia. }
    destruct (delete_snoc_facts _ _ _ x Hnd Hk Hin) as (_ & Hnd' & Hl & _).
    split; [done|]. rewrite Hl. lia.
Qed.

(** X8. Under a recognised algorithm and a capacity of at least one, the
    loop of [simulate] renders one entry per access, carrying the page of
    that access and frames that hold at most [C] pages, no page twice, and
    the page just accessed. *)
Theorem X8_simulate_frames pages C algo :
  (1 ≤ C)%Z → recognised algo →
  length (sim_output (simulate isNaN pages C algo)) = length pages
  ∧ ∀ i o, sim_output (simulate isNaN pages C algo) !! i = Some o →
      pages !! i = Some o.1.1
      ∧ (Z.of_nat (length o.1.2) ≤ C)%Z ∧ NoDup o.1.2 ∧ o.1.1 ∈ o.1.2.
Proof.
  intros HC Halgo.
  assert (simulate isNaN pages C algo = simAt isNaN pages C algo (length pages)) as ->.
  { unfold simulate, simAt. by rewrite take_ge. }
  destruct (simAt_output pages C algo (length pages)) as [Hlen _]; [done|].
  split; [done|]. intros i o Ho.
  pose proof (lookup_lt_Some _ _ _ Ho) as Hi. rewrite Hlen in Hi.
  destruct (lookup_lt_is_Some_2 pages i) as [x Hx]; [lia|].
  destruct (simAt_output pages C algo (S i)) as [HlenS Hpre]; [lia|].
  rewrite <- (lookup_take_lt _ (S i)), <- Hpre in Ho by lia.
  rewrite (simAt_S _ _ _ _ _ Hx) in Ho.
  destruct (sim_emits pages C algo (simAt isNaN pages C algo i) x i)
    as (Hout & Hin & _).
  destruct (simAt_output pages C algo i) as [Hleni _]; [lia|].
  rewrite Hout, lookup_app_r, Hleni, Nat.sub_diag in Ho by lia.
  injection Ho as <-. simpl. rewrite <- (simAt_S _ _ _ _ _ Hx).
  destruct (sim_frames_inv pages C algo (S i) HC Halgo ltac:(lia))
    as [Hnd Hcap].
  split_and!; [done|lia|done|].
  by rewrite (simAt_S _ _ _ _ _ Hx).
Qed.

(** X9. Under an unrecognised selector the loop of [simulate] never
    evicts: it appends every page that is not resident, so its frames end
    up holding every distinct page once, whatever the capacity, and its
    fault count is the number of distinct pages. *)
Theorem X9_simulate_unrecognised pages C algo :
  ¬ recognised algo →
  let t := simulate isNaN pages C algo in
  NoDup (sim_memory t) ∧ (∀ q, q ∈ sim_memory t ↔ q ∈ pages)
  ∧ length (sim_memory t) = length (remove_dups pages)
  ∧ sim_faults t = length (remove_dups pages).
Proof.
  intros Hno t. subst t.
  assert (simulate isNaN pages C algo = simAt isNaN pages C algo (length pages)) as ->.
  { unfold simulate, simAt. by rewrite take_ge. }
  assert (∀ n, n ≤ length pages →
            let t := simAt isNaN pages C algo n in
            NoDup (sim_memory t) ∧ (∀ q, q ∈ sim_memory t ↔ q ∈ take n pages)
            ∧ sim_faults t = length (sim_memory t)) as Hall.
  { induction n as [|n IH]; intros Hn.
    - unfold simAt. rewrite take_0. simpl. split_and!; [constructor|done..].
    - destruct (lookup_lt_is_Some_2 pages n) as [x Hx]; [lia|].
      destruct IH as (Hnd & Hel & Hf); [lia|]. cbv zeta.
      rewrite (simAt_S _ _ _ _ _ Hx).
      set (t := simAt isNaN pages C algo n) in *.
      assert (∀ q, q ∈ take (S n) pages ↔ q ∈ take n pages ∨ q = x) as Hsn.
      { intros q. by rewrite (take_S_r _ _ _ Hx), elem_of_app,
          list_elem_of_singleton. }
      destruct (decide (x ∈ sim_memory t)) as [Hin|Hin].
      + rewrite sim_hit by done. simpl. split_and!; [done| |done].
        intros q. rewrite Hsn, Hel. split; [auto|].
        intros [?| ->]; [done|]. by apply Hel.
      + assert (sim_memory (simulate_access isNaN pages C algo t x n)
                = sim_memory t ++ [x]
                ∧ sim_faults (simulate_access isNaN pages C algo t x n)
                  = S (sim_faults t)) as [-> ->].
        { unfold simulate_access.
          rewrite (proj2 (includes_false _ _) Hin). simpl.
          split; [|done]. case_decide; [done|].
          rewrite !decide_False; [done|..]; intros ->; apply Hno.
          - right; by right.
          - right; by left.
          - by left. }
        rewrite length_app. simpl. split_and!; [| |lia].
        * apply NoDup_app. split_and!; [done| |apply NoDup_singleton].
          by intros q Hq ->%list_elem_of_singleton.
        * intros q. by rewrite Hsn, elem_of_app, list_elem_of_singleton, Hel. }
  destruct (Hall (length pages)) as (Hnd & Hel & Hf); [done|].
  rewrite take_ge in Hel by lia.
  pose proof (distinct_NoDup _ _ Hnd Hel) as Hd.
  split_and!; [done..|lia].
Qed.

(** X10. Under an unrecognised selector [computeSteps] never evicts either,
    but it drops what it cannot place: every record is a hit or a free-slot
    fill, a fault that finds the frames full leaves no record and no
    change, the frames end up holding [min(C, distinct pages)] pages, and
    the records number the hits plus the frames in use. *)
Theorem X10_computeSteps_unrecognised pages C algo :
  ¬ recognised algo → (0 ≤ C)%Z →
  let res := computeSteps pages C algo in
  let final := v_memory (varsAt pages C algo (length pages)) in
  Forall (λ r, info r = Hit ∨ info r = PlacedIntoFreeSlot) (steps res)
  ∧ length (steps res) = hits (totals res) + length final
  ∧ Z.of_nat (length final) = Z.min C (Z.of_nat (length (remove_dups pages))).
Proof.
  intros Hno HC res final. subst res final.
  rewrite computeSteps_varsAt. simpl.
  pose proof (varsAt_ind pages C algo (λ n s,
    NoDup (v_memory s) ∧ (Z.of_nat (length (v_memory s)) ≤ C)%Z
    ∧ ((Z.of_nat (length (v_memory s)) < C)%Z →
       ∀ q, q ∈ take n pages → q ∈ v_memory s)
    ∧ length (v_result s) = v_hits s + length (v_memory s)
    ∧ Forall (λ r, info r = Hit ∨ info r = PlacedIntoFreeSlot) (v_result s)))
    as Hind.
  destruct Hind with (n := length pages)
    as (Hnd & Hcap & Hall & Hlen & HF); [| |done|].
  - simpl. split_and!; [constructor|lia| |done|constructor].
    by intros _ q Hq%elem_of_nil.
  - intros n x Hx (Hnd & Hcap & Hall & Hlen & HF).
    set (s := varsAt pages C algo n) in *.
    assert (∀ q, q ∈ take (S n) pages ↔ q ∈ take n pages ∨ q = x) as Hsn.
    { intros q. by rewrite (take_S_r _ _ _ Hx), elem_of_app,
        list_elem_of_singleton. }
    destruct (decide (x ∈ v_memory s)) as [Hin|Hin].
    + rewrite access_hit by done. simpl. rewrite length_app. simpl.
      split_and!; [done|done| |lia|].
      * intros Hlt q [?| ->]%Hsn; [by apply Hall|done].
      * apply Forall_app. split; [done|]. constructor; [by left|constructor].
    + destruct (decide (Z.of_nat (length (v_memory s)) < C)%Z) as [Hfree|Hfull].
      * rewrite access_free by done. simpl. rewrite !length_app. simpl.
        split_and!; [|lia| |lia|].
        -- apply NoDup_app. split_and!; [done| |apply NoDup_singleton].
           by intros q Hq ->%list_elem_of_singleton.
        -- intros _ q [?| ->]%Hsn; apply elem_of_app; [left|right; by left].
           by apply Hall.
        -- apply Forall_app. split; [done|].
           constructor; [by right|constructor].
      * assert (access pages C algo s x n =
                mkVars (v_memory s) (v_fifoQueue s) (v_lastUsed s)
                  (v_result s) (S (v_faults s)) (v_hits s)) as ->.
        { unfold access. rewrite (proj2 (includes_false _ _) Hin).
          rewrite !decide_False; [done|..]; try done; intros ->; apply Hno.
          - right; by right.
          - right; by left.
          - by left. }
        simpl. split_and!; [done|done| |done|done]. intros Hlt. lia.
  - split_and!; [done..|].
    pose proof (memory_from_pages pages C algo (length pages) ltac:(lia)) as Hsub.
    rewrite take_ge in Hsub, Hall by lia.
    assert (length (v_memory (varsAt pages C algo (length pages)))
            ≤ length (remove_dups pages)) as Hle.
    { apply submseteq_length, NoDup_submseteq; [done|].
      intros q Hq. apply elem_of_remove_dups. auto. }
    destruct (decide (Z.of_nat (length (v_memory (varsAt pages C algo
                (length pages)))) < C)%Z) as [Hlt|Hge]; [|lia].
    assert (length (v_memory (varsAt pages C algo (length pages)))
            = length (remove_dups pages)) as Heq; [|lia].
    apply distinct_NoDup; [done|].
    intros q. split; [apply Hsub|]. by apply Hall.
Qed.

(** X11. [clampFrames] never returns less than one, returns an integer of
    at least one unchanged, floors a larger fraction, and turns NaN and
    everything below one into one; applying it to its own result changes
    nothing. *)
Theorem X11_clampFrames :
  clampFrames None = 1%Z
  ∧ (∀ n : Z, clampFrames (Some (inject_Z n)) = Z.max 1 n)
  ∧ (∀ q, Qlt q 1 → clampFrames (Some q) = 1%Z)
  ∧ (∀ q, Qle 1 q →
          Qle (inject_Z (clampFrames (Some q))) q
          ∧ Qlt q (inject_Z (clampFrames (Some q) + 1)))
  ∧ ∀ val, clampFrames (Some (inject_Z (clampFrames val))) = clampFrames val.
Proof.
  unfold clampFrames. split_and!.
  - done.
  - intros n. by rewrite Qfloor_Z.
  - intros q Hq. assert (Qfloor q < 1)%Z; [|lia].
    rewrite Zlt_Qlt. eapply Qle_lt_trans; [apply Qfloor_le|done].
  - intros q Hq. pose proof (Qfloor_resp_le _ _ Hq) as Hle.
    change (Qfloor 1) with 1%Z in Hle. rewrite Z.max_r by done.
    split; [apply Qfloor_le|apply Qlt_floor].
  - intros val. rewrite Qfloor_Z. lia.
Qed.
End SimulateFacts.

(** ** The controls *)

Section ControlFacts.
Context {Page : Type} `{Countable Page}.
Implicit Types (u : Ui (Page:=Page)) (e : Event (Page:=Page)).
Implicit Types (st : Step (Page:=Page)) (h : nat) (i idx : Z).

Lemma stopPlaying_inv u :
  UiInv u →
  stopPlaying u =
  mkUi (ui_steps u) (ui_current u) false None [] (ui_handles u) (ui_slots u)
    (ui_cards u) (ui_totalSteps u) (ui_faultsCount u) (ui_hitsCount u)
    (ui_incoming u) Play (ui_pagesInput u) (ui_framesInput u)
    (ui_algorithm u).
Proof.
  intros (_ & Ht & _). unfold stopPlaying. destruct (ui_timer u) as [h|].
  - destruct Ht as (_ & -> & Hh & _). rewrite decide_False by done.
    by rewrite filter_cons_False by (by intros ?).
  - by destruct Ht as [_ ->].
Qed.

Lemma UiInv_stopPlaying u : UiInv u → UiInv (stopPlaying u).
Proof.
  intros HI. rewrite stopPlaying_inv by done.
  destruct HI as (Hc & _ & _ & Hcards & Halgo & Hst & Hcnt).
  unfold UiInv. simpl. by split_and!.
Qed.

Lemma UiInv_startPlaying u :
  UiInv u → ui_timer u = None → UiInv (startPlaying u).
Proof.
  intros HI Hn. unfold startPlaying. case_decide as Hlen; [done|].
  destruct HI as (Hc & Ht & _ & Hcards & Halgo & Hst & Hcnt).
  rewrite Hn in Ht. destruct Ht as [_ ->].
  unfold UiInv. simpl. split_and!; try done.
  intros E. by rewrite E in Hlen.
Qed.

Lemma UiInv_playToggle u : UiInv u → UiInv (playToggle u).
Proof.
  intros HI. unfold playToggle. destruct (ui_playing u) eqn:Hp.
  - by apply UiInv_stopPlaying.
  - apply UiInv_startPlaying; [done|].
    destruct HI as (_ & Ht & _). destruct (ui_timer u); [|done].
    destruct Ht as [? _]. congruence.
Qed.

(** [applyStep] at a step that exists. *)
Lemma applyStep_valid idx a u st :
  ui_steps u !! Z.to_nat idx = Some st → (0 ≤ idx)%Z →
  applyStep idx a u =
  let faults :=
    Z.of_nat (length (filter (λ s, hit s = false)
                        (take (Z.to_nat (idx + 1)) (ui_steps u)))) in
  mkUi (ui_steps u) idx (ui_playing u) (ui_timer u) (ui_intervals u)
    (ui_handles u) (ui_slots u) (ui_cards u)
    (Z.of_nat (length (ui_steps u))) faults (idx + 1 - faults)
    (Some (page st)) (ui_playLabel u) (ui_pagesInput u) (ui_framesInput u)
    (ui_algorithm u).
Proof.
  intros Hst Hidx. unfold applyStep.
  pose proof (lookup_lt_Some _ _ _ Hst) as Hlt.
  rewrite decide_False by lia. by rewrite Hst.
Qed.

Lemma applyStep_invalid idx a u :
  (idx < 0 ∨ Z.of_nat (length (ui_steps u)) ≤ idx)%Z → applyStep idx a u = u.
Proof. intros Hidx. unfold applyStep. by rewrite decide_True. Qed.

(** [applyStep] moves [current] and the display, nothing else. *)
Lemma applyStep_keeps idx a u :
  let u' := applyStep idx a u in
  ui_steps u' = ui_steps u ∧ ui_playing u' = ui_playing u
  ∧ ui_timer u' = ui_timer u ∧ ui_intervals u' = ui_intervals u
  ∧ ui_slots u' = ui_slots u
  ∧ ((0 ≤ idx < Z.of_nat (length (ui_steps u)))%Z → ui_current u' = idx)
  ∧ (¬ (0 ≤ idx < Z.of_nat (length (ui_steps u)))%Z → u' = u).
Proof.
  cbv zeta.
  destruct (decide (idx < 0 ∨ Z.of_nat (length (ui_steps u)) ≤ idx)%Z)
    as [Hout|Hin].
  - rewrite applyStep_invalid by done. split_and!; try done. lia.
  - destruct (lookup_lt_is_Some_2 (ui_steps u) (Z.to_nat idx)) as [st Hst];
      [lia|].
    rewrite (applyStep_valid _ _ _ _ Hst) by lia. simpl.
    split_and!; try done. lia.
Qed.

Lemma UiInv_applyStep idx a u : UiInv u → UiInv (applyStep idx a u).
Proof.
  intros HI.
  destruct (decide (idx < 0 ∨ Z.of_nat (length (ui_steps u)) ≤ idx)%Z)
    as [Hout|Hin]; [by rewrite applyStep_invalid|].
  destruct (lookup_lt_is_Some_2 (ui_steps u) (Z.to_nat idx)) as [st Hst];
    [lia|].
  rewrite (applyStep_valid _ _ _ _ Hst) by lia.
  destruct HI as (Hc & Ht & Hl & Hcards & Halgo & Hsteps & Hcnt).
  unfold UiInv. simpl. split_and!; try done; [right; lia|].
  intros _. by rewrite Hst.
Qed.

(** [goToStep] goes to the nearest step there is. *)
Lemma goToStep_clamp i u :
  ui_steps u ≠ [] →
  goToStep i u =
  applyStep (Z.max 0 (Z.min i (Z.of_nat (length (ui_steps u)) - 1))) true u.
Proof.
  intros Hne. unfold goToStep.
  assert (0 < length (ui_steps u)) by (destruct (ui_steps u); [done|simpl; lia]).
  f_equal. repeat case_decide; lia.
Qed.

Lemma goToStep_empty i u : ui_steps u = [] → goToStep i u = u.
Proof.
  intros E. unfold goToStep. apply applyStep_invalid. rewrite E. simpl.
  repeat case_decide; lia.
Qed.

Lemma UiInv_goToStep i u : UiInv u → UiInv (goToStep i u).
Proof. intros HI. unfold goToStep. by apply UiInv_applyStep. Qed.

Lemma goToStep_keeps i u :
  let u' := goToStep i u in
  ui_steps u' = ui_steps u ∧ ui_playing u' = ui_playing u
  ∧ ui_timer u' = ui_timer u ∧ ui_intervals u' = ui_intervals u
  ∧ ui_slots u' = ui_slots u
  ∧ ((0 ≤ i < Z.of_nat (length (ui_steps u)))%Z → ui_current u' = i).
Proof.
  cbv zeta. unfold goToStep.
  match goal with |- context [applyStep ?j true u] => set (k := j) end.
  assert ((0 ≤ i < Z.of_nat (length (ui_steps u)))%Z → k = i) as Hk.
  { intros Hi. subst k. repeat case_decide; lia. }
  destruct (applyStep_keeps k true u) as (H1 & H2 & H3 & H4 & H5 & H6 & _).
  split_and!; try done. intros Hi. rewrite (Hk Hi) in *. by apply H6.
Qed.

Lemma UiInv_nextStep u : UiInv u → UiInv (nextStep u).
Proof.
  intros HI. unfold nextStep. case_decide.
  - by apply UiInv_goToStep.
  - by apply UiInv_stopPlaying.
Qed.

Lemma UiInv_prevStep u : UiInv u → UiInv (prevStep u).
Proof.
  intros HI. unfold prevStep. case_decide; [|done]. by apply UiInv_goToStep.
Qed.

Lemma UiInv_tick u : UiInv u → UiInv (tick u).
Proof.
  intros HI. unfold tick. case_decide.
  - by apply UiInv_stopPlaying, UiInv_nextStep.
  - by apply UiInv_nextStep.
Qed.

Lemma UiInv_resetToInitial u : UiInv u → UiInv (resetToInitial u).
Proof.
  intros HI. unfold resetToInitial. case_decide; [done|].
  apply UiInv_stopPlaying.
  destruct HI as (Hc & Ht & Hl & Hcards & Halgo & Hsteps & Hcnt).
  unfold UiInv. simpl. split_and!; try done; try (by left); lia.
Qed.

Lemma UiInv_onClear u : UiInv u → UiInv (onClear u).
Proof.
  intros HI. unfold onClear, clearVisualization, buildFrameSlots.
  rewrite (stopPlaying_inv u) by done. cbn [ui_steps ui_current ui_playing
    ui_timer ui_intervals ui_handles ui_slots ui_cards ui_totalSteps
    ui_faultsCount ui_hitsCount ui_incoming ui_playLabel ui_pagesInput
    ui_framesInput ui_algorithm].
  unfold stopPlaying. simpl. unfold UiInv. simpl.
  split_and!; try done; try (by left); lia.
Qed.

Lemma steps_nonempty (pages : list Page) C algo :
  (1 ≤ C)%Z → recognised algo → pages ≠ [] →
  steps (computeSteps pages C algo) ≠ [].
Proof.
  intros HC Halgo Hne E. apply (f_equal length) in E.
  rewrite steps_length in E by done. by destruct pages.
Qed.

Lemma UiInv_onSimulate u : UiInv u → UiInv (onSimulate u).
Proof.
  intros HI. unfold onSimulate. rewrite (stopPlaying_inv u) by done.
  cbn [ui_steps ui_current ui_playing ui_timer ui_intervals ui_handles
    ui_slots ui_cards ui_totalSteps ui_faultsCount ui_hitsCount ui_incoming
    ui_playLabel ui_pagesInput ui_framesInput ui_algorithm].
  case_decide as Hp.
  { rewrite <- (stopPlaying_inv u) by done. by apply UiInv_stopPlaying. }
  destruct HI as (Hc & Ht & Hl & Hcards & Halgo & Hsteps & Hcnt).
  assert (1 ≤ clampFrames (ui_framesInput u))%Z as HC
    by (unfold clampFrames; lia).
  unfold buildFrameSlots. cbn [ui_steps ui_current ui_playing ui_timer
    ui_intervals ui_handles ui_slots ui_cards ui_totalSteps ui_faultsCount
    ui_hitsCount ui_incoming ui_playLabel ui_pagesInput ui_framesInput
    ui_algorithm].
  match goal with |- UiInv (if _ then ?v else goToStep 0 ?v) =>
    assert (UiInv v) as HI'
  end.
  { unfold UiInv. simpl. split_and!; try done; try (by left); try lia.
    right. eexists _, _, _. by split_and!. }
  case_decide; [done|]. by apply UiInv_goToStep.
Qed.

Lemma UiInv_handle u e : offered e → UiInv u → UiInv (handle u e).
Proof.
  intros He HI. destruct e; simpl.
  - destruct HI as (? & ? & ? & ? & ? & ? & ?). unfold UiInv. simpl.
    by split_and!.
  - destruct HI as (? & ? & ? & ? & ? & ? & ?). unfold UiInv. simpl.
    by split_and!.
  - destruct HI as (? & ? & ? & ? & ? & ? & ?). unfold UiInv. simpl.
    by split_and!.
  - by apply UiInv_onSimulate.
  - by apply UiInv_nextStep, UiInv_stopPlaying.
  - by apply UiInv_prevStep, UiInv_stopPlaying.
  - by apply UiInv_playToggle.
  - by apply UiInv_resetToInitial, UiInv_stopPlaying.
  - by apply UiInv_onClear.
  - case_decide; [|done]. by apply UiInv_goToStep.
  - case_decide; [|done]. by apply UiInv_tick.
Qed.

Lemma UiInv_loaded u : loaded u → UiInv u.
Proof.
  intros (Hs & Hc & Hp & Ht & Hi & Hcd & Hl & Ha).
  unfold UiInv. rewrite Hs, Hc, Hp, Ht, Hi, Hcd, Hl. simpl.
  split_and!; try done; try (by left); lia.
Qed.

Lemma UiInv_reach u (evs : list (Event (Page:=Page))) :
  loaded u → Forall offered evs → UiInv (foldl handle u evs).
Proof.
  intros Hu Hevs. apply UiInv_loaded in Hu. revert u Hu.
  induction Hevs as [|e evs He _ IH]; intros u Hu; [done|].
  simpl. apply IH. by apply UiInv_handle.
Qed.

Lemma stopPlaying_keeps u :
  ui_steps (stopPlaying u) = ui_steps u
  ∧ ui_current (stopPlaying u) = ui_current u
  ∧ ui_slots (stopPlaying u) = ui_slots u
  ∧ ui_playing (stopPlaying u) = false.
Proof.
  unfold stopPlaying. destruct (ui_timer u); [case_decide|]; by simpl.
Qed.

(** The totals are the numbers of fault records and of hit records. *)
Lemma totals_count (pages : list Page) C algo :
  (1 ≤ C)%Z → recognised algo →
  faults (totals (computeSteps pages C algo))
  = length (filter (λ s, hit s = false) (steps (computeSteps pages C algo)))
  ∧ hits (totals (computeSteps pages C algo))
    = length (filter (λ s, hit s = true) (steps (computeSteps pages C algo))).
Proof.
  intros HC Halgo. rewrite computeSteps_varsAt. simpl.
  assert (∀ n, n ≤ length pages →
            let s := varsAt pages C algo n in
            v_faults s = length (filter (λ s, hit s = false) (v_result s))
            ∧ v_hits s = length (filter (λ s, hit s = true) (v_result s)))
    as Hall; [|by apply Hall].
  induction n as [|n IH]; intros Hn; [by rewrite varsAt_0|].
  destruct (lookup_lt_is_Some_2 pages n) as [x Hx]; [lia|].
  destruct IH as [IHf IHh]; [lia|]. cbv zeta.
  rewrite (varsAt_S _ _ _ _ _ Hx).
  pose proof (Inv_varsAt pages C algo n HC Halgo ltac:(lia)) as HI.
  destruct (access_shape pages C algo n _ x HC Halgo HI) as (r & -> & Hsh).
  rewrite !filter_app, !length_app, <- IHf, <- IHh.
  destruct Hsh as [(_ & -> & -> & ->)|[(_ & _ & -> & -> & ->)|
                   (_ & _ & (v & k & _ & _ & ->) & -> & ->)]];
    rewrite !filter_cons, !filter_nil; simpl; lia.
Qed.

Lemma totals_sum (pages : list Page) C algo :
  faults (totals (computeSteps pages C algo))
  + hits (totals (computeSteps pages C algo)) = length pages.
Proof.
  rewrite computeSteps_varsAt. simpl.
  by destruct (any_run_counts pages C algo (length pages)).
Qed.

(** X12. Under a recognised algorithm and a capacity of at least one, the
    fault total is the number of records that are faults and the hit total
    the number of records that are hits, so that adding up the records, as
    the page does, gives the totals. *)
Theorem X12_totals_are_record_counts (pages : list Page) C algo :
  (1 ≤ C)%Z → recognised algo →
  let res := computeSteps pages C algo in
  faults (totals res) = length (filter (λ s, hit s = false) (steps res))
  ∧ hits (totals res) = length (filter (λ s, hit s = true) (steps res)).
Proof. intros HC Halgo. by apply totals_count. Qed.

(** X13. Whatever is edited, clicked or fired on a freshly loaded page,
    [current] is [-1] or the index of a step there is, and the timeline has
    one card per step. *)
Theorem X13_current_in_range u (evs : list (Event (Page:=Page))) :
  loaded u → Forall offered evs →
  let u' := foldl handle u evs in
  (ui_current u' = (-1)%Z
   ∨ (0 ≤ ui_current u' < Z.of_nat (length (ui_steps u')))%Z)
  ∧ ui_cards u' = length (ui_steps u').
Proof.
  intros Hu Hevs. by destruct (UiInv_reach u evs Hu Hevs) as (? & _ & _ & ? & _).
Qed.

(** X14. Whatever happens on a freshly loaded page, it is playing exactly
    when its one live interval is the one [timer] holds, and it has no live
    interval otherwise: no click sequence starts a second interval or
    leaves one running.  It plays only when there are steps, and the
    button reads Pause exactly while it plays. *)
Theorem X14_one_timer u (evs : list (Event (Page:=Page))) :
  loaded u → Forall offered evs →
  let u' := foldl handle u evs in
  (ui_playing u' = true ↔ ∃ h, ui_timer u' = Some h)
  ∧ ui_intervals u' = match ui_timer u' with Some h => [h] | None => [] end
  ∧ (ui_playing u' = true → ui_steps u' ≠ [])
  ∧ ui_playLabel u' = (if ui_playing u' then Pause else Play).
Proof.
  intros Hu Hevs. destruct (UiInv_reach u evs Hu Hevs) as (_ & Ht & Hl & _).
  cbv zeta. destruct (ui_timer _) as [h|].
  - destruct Ht as (Hp & Hi & _ & Hs). rewrite Hp in *.
    split_and!; [|done..]. split; eauto.
  - destruct Ht as [Hp Hi]. rewrite Hp in *.
    split_and!; [|done..]. split; [done|]. by intros [h ?].
Qed.

(** X15. Once a step is shown, the counters on the page are those of the
    steps up to it: the step count, the faults among the first
    [current + 1] records, the hits as the rest, and the incoming tile
    shows the page of the step; at the last step they are the totals of
    the run. *)
Theorem X15_counters u (evs : list (Event (Page:=Page))) :
  loaded u → Forall offered evs →
  let u' := foldl handle u evs in
  (0 ≤ ui_current u')%Z →
  ui_totalSteps u' = Z.of_nat (length (ui_steps u'))
  ∧ ui_faultsCount u' =
      Z.of_nat (length (filter (λ s, hit s = false)
                          (take (Z.to_nat (ui_current u' + 1)) (ui_steps u'))))
  ∧ (ui_faultsCount u' + ui_hitsCount u' = ui_current u' + 1)%Z
  ∧ ui_incoming u' = page <$> ui_steps u' !! Z.to_nat (ui_current u')
  ∧ ∃ pages C algo,
      ui_steps u' = steps (computeSteps pages C algo)
      ∧ (ui_current u' = Z.of_nat (length (ui_steps u')) - 1 →
         ui_faultsCount u' = Z.of_nat (faults (totals (computeSteps pages C algo)))
         ∧ ui_hitsCount u' = Z.of_nat (hits (totals (computeSteps pages C algo))))%Z.
Proof.
  intros Hu Hevs u' Hcur.
  destruct (UiInv_reach u evs Hu Hevs) as (Hc & _ & _ & _ & _ & Hst & Hcnt).
  fold u' in Hc, Hst, Hcnt. destruct (Hcnt Hcur) as (Ht & Hf & Hh & Hin).
  split_and!; [done|done|lia|done|].
  destruct Hst as [E|(pages & C & algo & HC & Halgo & Hsteps & _)].
  { rewrite E in Hc. simpl in Hc. lia. }
  exists pages, C, algo. split; [done|]. intros Hlast.
  destruct (totals_count pages C algo HC Halgo) as [Hft Hht].
  pose proof (totals_sum pages C algo) as Hsum.
  pose proof (steps_length pages C algo HC Halgo) as Hlen.
  assert (ui_faultsCount u'
          = Z.of_nat (faults (totals (computeSteps pages C algo)))) as Hfeq.
  { rewrite Hf, Hlast, take_ge by lia. by rewrite Hsteps, Hft. }
  split; [done|]. rewrite Hh, Hfeq, Hlast, Hsteps, Hlen. lia.
Qed.

(** X16. The tile is always dropped on a slot that exists: for every step
    the page can show, the target slot is one of the slots built, the
    slots show the whole snapshot followed by placeholders, on a fault the
    target is the slot that received the page, and on a hit it is the last
    slot in use. *)
Theorem X16_target_slot u (evs : list (Event (Page:=Page))) k st :
  loaded u → Forall offered evs →
  let u' := foldl handle u evs in
  ui_steps u' !! k = Some st →
  (0 ≤ targetIdx st < Z.of_nat (ui_slots u'))%Z
  ∧ slotContents st (ui_slots u') =
      (Some <$> memory st)
      ++ replicate (ui_slots u' - length (memory st)) None
  ∧ length (memory st) ≤ ui_slots u'
  ∧ (hit st = false →
     memory st !! Z.to_nat (targetIdx st) = Some (page st))
  ∧ (hit st = true → targetIdx st = (Z.of_nat (length (memory st)) - 1)%Z).
Proof.
  intros Hu Hevs u' Hk.
  destruct (UiInv_reach u evs Hu Hevs) as (_ & _ & _ & _ & _ & Hst & _).
  fold u' in Hst.
  destruct Hst as [E|(pages & C & algo & HC & Halgo & Hsteps & Hslots)].
  { by rewrite E in Hk. }
  rewrite Hsteps in Hk. rewrite Hslots.
  destruct (step_memory pages C algo k st HC Halgo Hk) as (Hx & Hm & _).
  pose proof (lookup_lt_Some _ _ _ Hx) as Hlt.
  destruct (Inv_varsAt pages C algo (S k) HC Halgo ltac:(lia))
    as (_ & _ & _ & Hcap & _).
  rewrite <- Hm in Hcap.
  destruct (step_shape pages C algo k st HC Halgo Hk) as (x & _ & _ & Hsh).
  assert (slotContents st (Z.to_nat C) =
          (Some <$> memory st)
          ++ replicate (Z.to_nat C - length (memory st)) None) as Hslot.
  { unfold slotContents. apply list_eq. intros j.
    rewrite list_lookup_fmap.
    destruct (decide (j < Z.to_nat C)) as [Hj|Hj].
    - rewrite lookup_seq_lt by done. simpl.
      destruct (decide (j < length (memory st))) as [Hjm|Hjm].
      + rewrite lookup_app_l by (rewrite length_fmap; lia).
        rewrite list_lookup_fmap.
        by destruct (lookup_lt_is_Some_2 (memory st) j Hjm) as [q ->].
      + rewrite lookup_app_r by (rewrite length_fmap; lia).
        rewrite length_fmap, lookup_replicate_2 by lia.
        by rewrite lookup_ge_None_2 by lia.
    - rewrite lookup_seq_ge by lia. simpl. symmetry.
      apply lookup_ge_None_2.
      rewrite length_app, length_fmap, length_replicate. lia. }
  split; [|split; [done|split; [lia|split]]].
  - unfold targetIdx.
    destruct Hsh as [(Hin & ->)|[(_ & Hfree & ->)|(_ & Hfull & v & j & _ & Hj & ->)]];
      simpl in *.
    + destruct (framesBefore _ k); [by apply elem_of_nil in Hin|].
      simpl in *. lia.
    + rewrite decide_True by lia. rewrite length_app in Hcap. simpl in *. lia.
    + apply lookup_lt_Some in Hj. rewrite decide_True by lia. lia.
  - unfold targetIdx.
    destruct Hsh as [(Hin & ->)|[(_ & Hfree & ->)|(_ & Hfull & v & j & _ & Hj & ->)]];
      simpl; [done|..]; intros _.
    + rewrite decide_True by lia. rewrite Nat2Z.id.
      by rewrite lookup_app_r, Nat.sub_diag by lia.
    + apply lookup_lt_Some in Hj. rewrite decide_True by lia.
      rewrite Nat2Z.id. by apply list_lookup_insert_eq.
  - unfold targetIdx.
    by destruct Hsh as [(Hin & ->)|[(_ & Hfree & ->)|(_ & Hfull & v & j & _ & Hj & ->)]].
Qed.

Lemma tick_advance u h :
  UiInv u → ui_timer u = Some h →
  (ui_current u < Z.of_nat (length (ui_steps u)) - 1)%Z →
  let u' := handle u (Fire h) in
  UiInv u' ∧ ui_timer u' = Some h ∧ ui_steps u' = ui_steps u
  ∧ ui_playing u' = true ∧ ui_current u' = (ui_current u + 1)%Z.
Proof.
  intros HI Ht Hlt. pose proof HI as (Hc & Htm & _). rewrite Ht in Htm.
  destruct Htm as (Hp & Hi & _ & _). cbv zeta. cbn [handle].
  rewrite decide_True by (rewrite Hi; by apply list_elem_of_singleton).
  unfold tick, nextStep.
  destruct (decide (ui_current u < Z.of_nat (length (ui_steps u)) - 1)%Z);
    [|done].
  destruct (goToStep_keeps (ui_current u + 1) u)
    as (Hs & Hp' & Ht' & _ & _ & Hcur).
  specialize (Hcur ltac:(lia)).
  rewrite decide_False by lia.
  split_and!; [by apply UiInv_goToStep|congruence..|done].
Qed.

Lemma tick_stop u h :
  UiInv u → ui_timer u = Some h →
  ¬ (ui_current u < Z.of_nat (length (ui_steps u)) - 1)%Z →
  let u' := handle u (Fire h) in
  ui_current u' = ui_current u ∧ ui_playing u' = false
  ∧ ui_timer u' = None ∧ ui_intervals u' = []
  ∧ ui_steps u' = ui_steps u.
Proof.
  intros HI Ht Hlt. pose proof HI as (Hc & Htm & _). rewrite Ht in Htm.
  destruct Htm as (Hp & Hi & _ & _). cbv zeta. cbn [handle].
  rewrite decide_True by (rewrite Hi; by apply list_elem_of_singleton).
  unfold tick, nextStep.
  destruct (decide (ui_current u < Z.of_nat (length (ui_steps u)) - 1)%Z);
    [done|].
  destruct (stopPlaying_keeps u) as (Hs & Hcur & _).
  rewrite decide_True by done.
  rewrite (stopPlaying_inv (stopPlaying u)) by by apply UiInv_stopPlaying.
  simpl. by rewrite Hs, Hcur.
Qed.

Lemma play_progress u h j :
  UiInv u → ui_timer u = Some h →
  (Z.of_nat j ≤ Z.of_nat (length (ui_steps u)) - 1 - ui_current u)%Z →
  let u' := foldl handle u (replicate j (Fire h)) in
  UiInv u' ∧ ui_timer u' = Some h ∧ ui_steps u' = ui_steps u
  ∧ ui_playing u' = true ∧ ui_current u' = (ui_current u + Z.of_nat j)%Z.
Proof.
  revert u. induction j as [|j IH]; intros u HI Ht Hj; cbv zeta.
  - simpl. pose proof HI as (_ & Htm & _).
    rewrite Ht in Htm. destruct Htm as [Hp _].
    split; [done|]. split; [done|]. split; [done|]. split; [done|lia].
  - cbn [replicate foldl].
    destruct (tick_advance u h HI Ht ltac:(lia)) as (HI' & Ht' & Hs' & _ & Hc').
    cbv zeta in Hs', Hc'.
    destruct (IH (handle u (Fire h)) HI' Ht') as (HI2 & Ht2 & Hs2 & Hp2 & Hc2).
    { rewrite Hs', Hc'. lia. }
    cbv zeta in Hs2, Hc2.
    split; [done|]. split; [done|]. split; [by rewrite Hs2|].
    split; [done|]. rewrite Hc2, Hc'. lia.
Qed.

(** X17. Playing runs to the last step and stops there: while steps
    remain, each firing of the interval moves one step on and keeps
    playing; the firing at the last step stops the play and clears the
    interval, leaving the last step shown. *)
Theorem X17_play_runs_to_end u (evs : list (Event (Page:=Page))) h :
  loaded u → Forall offered evs →
  let u1 := foldl handle u evs in
  ui_timer u1 = Some h →
  let last := (Z.of_nat (length (ui_steps u1)) - 1)%Z in
  let k := Z.to_nat (last - ui_current u1) in
  (∀ j, j ≤ k →
        let u2 := foldl handle u1 (replicate j (Fire h)) in
        ui_current u2 = (ui_current u1 + Z.of_nat j)%Z
        ∧ ui_playing u2 = true)
  ∧ let u3 := foldl handle u1 (replicate (S k) (Fire h)) in
    ui_current u3 = last ∧ ui_playing u3 = false ∧ ui_timer u3 = None
    ∧ ui_intervals u3 = [].
Proof.
  intros Hu Hevs u1 Ht last k.
  pose proof (UiInv_reach u evs Hu Hevs) as HI. fold u1 in HI.
  assert (ui_current u1 ≤ last)%Z as Hle.
  { destruct HI as (Hc & _). subst last. lia. }
  split.
  - intros j Hj.
    by destruct (play_progress u1 h j HI Ht ltac:(lia)) as (_ & _ & _ & ? & ?).
  - cbv zeta. rewrite replicate_S_end, foldl_snoc.
    destruct (play_progress u1 h k HI Ht ltac:(lia))
      as (HI2 & Ht2 & Hs2 & _ & Hc2).
    destruct (tick_stop _ h HI2 Ht2) as (Hc3 & Hp3 & Ht3 & Hi3 & _).
    { rewrite Hs2, Hc2. fold last. lia. }
    split_and!; [|done..]. rewrite Hc3, Hc2. lia.
Qed.

Lemma stopPlaying_idem u : UiInv u → stopPlaying (stopPlaying u) = stopPlaying u.
Proof. intros HI. by rewrite (stopPlaying_inv u HI). Qed.

(** [stopPlaying] and [applyStep] write different variables. *)
Lemma stopPlaying_applyStep idx a u :
  stopPlaying (applyStep idx a u) = applyStep idx a (stopPlaying u).
Proof.
  unfold applyStep. destruct (stopPlaying_keeps u) as (Hs & _). rewrite Hs.
  case_decide; [done|].
  destruct (ui_steps u !! Z.to_nat idx); [|done].
  unfold stopPlaying. simpl.
  destruct (ui_timer u) as [h|]; simpl; [case_decide|]; done.
Qed.

(** Showing the step that is shown changes nothing. *)
Lemma applyStep_shown a u :
  UiInv u → (0 ≤ ui_current u)%Z → applyStep (ui_current u) a u = u.
Proof.
  intros (Hc & _ & _ & _ & _ & _ & Hcnt) Hge.
  destruct Hc as [?|Hr]; [lia|].
  destruct (lookup_lt_is_Some_2 (ui_steps u) (Z.to_nat (ui_current u)))
    as [st Hst]; [lia|].
  rewrite (applyStep_valid _ a u st Hst Hge).
  destruct (Hcnt Hge) as (Ht & Hf & Hh & Hi). rewrite Hst in Hi.
  cbv zeta. rewrite <- Hf, <- Hh, <- Ht. simpl in Hi. rewrite <- Hi.
  by destruct u.
Qed.

(** What a step shows does not depend on the step shown before. *)
Lemma applyStep_twice j k a b u :
  (0 ≤ k < Z.of_nat (length (ui_steps u)))%Z →
  applyStep k a (applyStep j b u) = applyStep k a u.
Proof.
  intros Hk.
  destruct (decide (0 ≤ j < Z.of_nat (length (ui_steps u)))%Z) as [Hj|Hj].
  - destruct (lookup_lt_is_Some_2 (ui_steps u) (Z.to_nat j)) as [sj Hsj]; [lia|].
    destruct (lookup_lt_is_Some_2 (ui_steps u) (Z.to_nat k)) as [sk Hsk]; [lia|].
    rewrite (applyStep_valid j b u sj Hsj) by lia. cbv zeta.
    rewrite (applyStep_valid k a u sk Hsk) by lia.
    by rewrite (applyStep_valid k a _ sk) by (done || lia).
  - by destruct (applyStep_keeps j b u) as (_ & _ & _ & _ & _ & _ & ->).
Qed.

Lemma goToStep_in_range i u :
  (0 ≤ i < Z.of_nat (length (ui_steps u)))%Z →
  goToStep i u = applyStep i true u.
Proof.
  intros Hi. rewrite goToStep_clamp.
  - f_equal. lia.
  - intros E. rewrite E in Hi. simpl in Hi. lia.
Qed.

(** X18. The step buttons stop a running playback and then step.  Stepping
    forward and then back, or back and then forward, returns to the same
    step and leaves the page as it was but for the playback stopped;
    stepping back from the first step, or from before it, and stepping
    forward from the last step do not move, and do nothing but stop the
    playback: the play flag is cleared, the timer handle and its interval
    are removed and the button reads Play again.  So once a step is shown,
    only reset, clear and simulate lead back to no step. *)
Theorem X18_forward_back u (evs : list (Event (Page:=Page))) :
  loaded u → Forall offered evs →
  let u1 := foldl handle u evs in
  let last := (Z.of_nat (length (ui_steps u1)) - 1)%Z in
  ((0 ≤ ui_current u1 < last)%Z →
   handle (handle u1 ClickStepForward) ClickStepBack = stopPlaying u1
   ∧ ui_current (handle (handle u1 ClickStepForward) ClickStepBack)
     = ui_current u1)
  ∧ ((0 < ui_current u1)%Z →
     handle (handle u1 ClickStepBack) ClickStepForward = stopPlaying u1
     ∧ ui_current (handle (handle u1 ClickStepBack) ClickStepForward)
       = ui_current u1)
  ∧ ((ui_current u1 ≤ 0)%Z →
     handle u1 ClickStepBack = stopPlaying u1
     ∧ ui_current (handle u1 ClickStepBack) = ui_current u1)
  ∧ (ui_current u1 = last →
     handle u1 ClickStepForward = stopPlaying u1
     ∧ ui_current (handle u1 ClickStepForward) = ui_current u1)
  ∧ stopPlaying u1 =
      mkUi (ui_steps u1) (ui_current u1) false None [] (ui_handles u1)
        (ui_slots u1) (ui_cards u1) (ui_totalSteps u1) (ui_faultsCount u1)
        (ui_hitsCount u1) (ui_incoming u1) Play (ui_pagesInput u1)
        (ui_framesInput u1) (ui_algorithm u1).
Proof.
  intros Hu Hevs u1 last.
  pose proof (UiInv_reach u evs Hu Hevs) as HI. fold u1 in HI.
  pose proof HI as (Hc & _).
  pose proof (UiInv_stopPlaying u1 HI) as HIw.
  pose proof (stopPlaying_idem u1 HI) as Hidem.
  destruct (stopPlaying_keeps u1) as (Hs & Hcur & _).
  set (w := stopPlaying u1) in *.
  assert (∀ k a, (0 ≤ k < Z.of_nat (length (ui_steps w)))%Z →
            ui_current (applyStep k a w) = k
            ∧ ui_steps (applyStep k a w) = ui_steps w
            ∧ stopPlaying (applyStep k a w) = applyStep k a w) as Hstep.
  { intros k a Hk.
    destruct (applyStep_keeps k a w) as (Hs' & _ & _ & _ & _ & Hc' & _).
    split_and!; [by apply Hc'|done|].
    by rewrite stopPlaying_applyStep, Hidem. }
  assert ((0 ≤ ui_current u1 < last)%Z →
          handle (handle u1 ClickStepForward) ClickStepBack = w) as Hfb.
  { intros Hr. cbn [handle]. fold w. unfold nextStep.
    rewrite decide_True by (rewrite Hcur, Hs; lia).
    rewrite goToStep_in_range by (rewrite Hcur, Hs; lia).
    destruct (Hstep (ui_current w + 1)%Z true) as (Hc1 & Hs1 & ->);
      [rewrite Hcur, Hs; lia|].
    unfold prevStep. rewrite decide_True by (rewrite Hc1, Hcur; lia).
    rewrite goToStep_in_range by (rewrite Hc1, Hs1, Hcur, Hs; lia).
    rewrite Hc1, applyStep_twice by (rewrite Hcur, Hs; lia).
    replace (ui_current w + 1 - 1)%Z with (ui_current w) by lia.
    apply applyStep_shown; [done|]. rewrite Hcur. lia. }
  assert ((0 < ui_current u1)%Z →
          handle (handle u1 ClickStepBack) ClickStepForward = w) as Hbf.
  { intros Hr. cbn [handle]. fold w. unfold prevStep.
    rewrite decide_True by (rewrite Hcur; lia).
    rewrite goToStep_in_range by (rewrite Hcur, Hs; lia).
    destruct (Hstep (ui_current w - 1)%Z true) as (Hc1 & Hs1 & ->);
      [rewrite Hcur, Hs; lia|].
    unfold nextStep. rewrite decide_True by (rewrite Hc1, Hs1, Hcur, Hs; lia).
    rewrite goToStep_in_range by (rewrite Hc1, Hs1, Hcur, Hs; lia).
    rewrite Hc1, applyStep_twice by (rewrite Hcur, Hs; lia).
    replace (ui_current w - 1 + 1)%Z with (ui_current w) by lia.
    apply applyStep_shown; [done|]. rewrite Hcur. lia. }
  assert ((ui_current u1 ≤ 0)%Z → handle u1 ClickStepBack = w) as Hb.
  { intros Hr. cbn [handle]. fold w. unfold prevStep.
    by rewrite decide_False by (rewrite Hcur; lia). }
  assert (ui_current u1 = last → handle u1 ClickStepForward = w) as Hf.
  { intros Hr. cbn [handle]. fold w. unfold nextStep.
    by rewrite decide_False by (rewrite Hcur, Hs; lia). }
  split_and!.
  - intros Hr. by rewrite Hfb.
  - intros Hr. by rewrite Hbf.
  - intros Hr. by rewrite Hb.
  - intros Hr. by rewrite Hf.
  - by apply stopPlaying_inv.
Qed.
End ControlFacts.

(** ** Reading the page list *)

Section ParseFacts.
Implicit Types (s t cur : list N) (c : N).

Lemma split_go_nonempty cur b s : split_go cur b s ≠ [].
Proof.
  revert cur b. induction s as [|c s IH]; intros cur b; simpl; [done|].
  destruct (isSeparator c); [destruct b|]; done.
Qed.

(** X19. [parsePages] returns no page only for the empty text: any other
    text, even one of blanks only, yields at least one page. *)
Theorem X19_parsePages_empty {A} (Number : list N → option A) input :
  parsePages Number input = [] ↔ input = [].
Proof.
  unfold parsePages. case_decide as E; [done|]. split; [|done].
  intros Hnil%fmap_nil_inv. by apply split_go_nonempty in Hnil.
Qed.

Lemma isSeparator_space c : isSeparator c = false → isSpace c = false.
Proof. unfold isSeparator. by destruct (isSpace c). Qed.

Lemma split_go_word t cur b s :
  Forall (λ c, isSeparator c = false) t → t ≠ [] →
  split_go cur b (t ++ s) = split_go (reverse t ++ cur) false s.
Proof.
  intros Ht. revert cur b. induction Ht as [|c t Hc Ht IH]; intros cur b Hne;
    [done|].
  simpl. rewrite Hc. destruct t as [|c' t].
  - by rewrite reverse_singleton.
  - rewrite IH by done. by rewrite (reverse_cons (c' :: t) c), <- (assoc_L (++)).
Qed.

Lemma split_go_run sep s :
  Forall (λ c, isSeparator c = true) sep →
  split_go [] true (sep ++ s) = split_go [] true s.
Proof.
  induction 1 as [|c sep Hc _ IH]; [done|]. simpl. by rewrite Hc.
Qed.

Lemma split_go_weave t rest cur b :
  Forall (λ c, isSeparator c = false) t → t ≠ [] →
  Forall (λ p, p.1 ≠ [] ∧ Forall (λ c, isSeparator c = true) p.1
               ∧ p.2 ≠ [] ∧ Forall (λ c, isSeparator c = false) p.2) rest →
  split_go cur b (weave t rest) = (reverse cur ++ t) :: rest.*2.
Proof.
  intros Ht Hne Hrest. revert t cur b Ht Hne.
  induction Hrest as [|[sep t'] rest (Hs & Hsep & Hne' & Ht') _ IH];
    intros t cur b Ht Hne; simpl in *.
  - rewrite <- (app_nil_r t) at 1. rewrite split_go_word by done. simpl.
    by rewrite reverse_app, reverse_involutive.
  - rewrite split_go_word by done.
    destruct Hsep as [|c sep Hc Hsep]; [done|]. simpl. rewrite Hc.
    rewrite split_go_run, IH by done. simpl.
    by rewrite reverse_app, reverse_involutive.
Qed.

Lemma trimStart_id s c :
  head s = Some c → isSpace c = false → trimStart s = s.
Proof. destruct s as [|c' s]; [done|]. intros [= ->] Hc. simpl. by rewrite Hc. Qed.

Lemma weave_head t rest c : head t = Some c → head (weave t rest) = Some c.
Proof. destruct t; [done|]. intros [= ->]. by destruct rest as [|[? ?] ?]. Qed.

Lemma weave_snoc t rest :
  t ≠ [] → Forall (λ c, isSeparator c = false) t →
  Forall (λ p, p.2 ≠ [] ∧ Forall (λ c, isSeparator c = false) p.2) rest →
  ∃ s c, weave t rest = s ++ [c] ∧ isSeparator c = false.
Proof.
  intros Hne Ht Hrest. revert t Hne Ht.
  induction Hrest as [|[sep t'] rest [Hne' Ht'] _ IH]; intros t Hne Ht.
  - destruct t as [|c t _] using rev_ind; [done|]. exists t, c. split; [done|].
    rewrite Forall_app, Forall_singleton in Ht. tauto.
  - destruct (IH t' Hne' Ht') as (s & c & E & Hc). exists (t ++ sep ++ s), c.
    simpl. rewrite E. by rewrite <- !(assoc_L (++)).
Qed.

Lemma trim_weave t rest :
  t ≠ [] → Forall (λ c, isSeparator c = false) t →
  Forall (λ p, p.2 ≠ [] ∧ Forall (λ c, isSeparator c = false) p.2) rest →
  trim (weave t rest) = weave t rest.
Proof.
  intros Hne Ht Hrest. destruct (weave_snoc t rest) as (s & c' & E & Hc');
    [done..|].
  destruct t as [|c t]; [done|]. apply Forall_cons in Ht as [Hc _].
  apply isSeparator_space in Hc, Hc'.
  assert (head (weave (c :: t) rest) = Some c) as Hh by by apply weave_head.
  rewrite E in *. unfold trim.
  rewrite (trimStart_id _ c Hh Hc), reverse_app, reverse_singleton. simpl.
  rewrite Hc'. by rewrite (reverse_cons (reverse s)), reverse_involutive.
Qed.

(** At most the first and the last piece of a split are empty. *)
Lemma split_go_empty s cur b i :
  split_go cur b s !! i = Some [] →
  i = length (split_go cur b s) - 1 ∨ i = 0 ∧ cur = [] ∧ b = false.
Proof.
  revert cur b i. induction s as [|c s IH]; intros cur b i; simpl.
  - destruct i; [auto|done].
  - destruct (isSeparator c); [destruct b|].
    + intros [?|(_ & _ & [=])]%IH; auto.
    + destruct i as [|i]; simpl.
      * intros [= E]. right. split; [done|]. split; [|done].
        by rewrite <- (reverse_involutive cur), E.
      * intros [?|(_ & _ & [=])]%IH. left.
        pose proof (split_go_nonempty [] true s).
        destruct (split_go [] true s); simpl in *; [done|lia].
    + intros [?|(_ & [=] & _)]%IH; auto.
Qed.

Lemma split_go_clean s cur b :
  Forall (λ c, isSeparator c = false) cur →
  Forall (Forall (λ c, isSeparator c = false)) (split_go cur b s).
Proof.
  revert cur b. induction s as [|c s IH]; intros cur b Hcur; simpl.
  - apply Forall_singleton. by apply Forall_reverse.
  - destruct (isSeparator c) eqn:Hc; [destruct b|].
    + by apply IH.
    + apply Forall_cons. split; [by apply Forall_reverse|by apply IH].
    + apply IH. by apply Forall_cons.
Qed.

(** X20. Pieces separated by any non-empty runs of blanks, commas and
    semicolons are read back exactly: when the text is a non-empty
    separator-free piece followed by separator runs and further such
    pieces, [parsePages] converts exactly these pieces, in order. *)
Theorem X20_parsePages_pieces {A} (Number : list N → option A) t rest :
  t ≠ [] → Forall (λ c, isSeparator c = false) t →
  Forall (λ p, p.1 ≠ [] ∧ Forall (λ c, isSeparator c = true) p.1
               ∧ p.2 ≠ [] ∧ Forall (λ c, isSeparator c = false) p.2) rest →
  tokens (weave t rest) = t :: rest.*2 ∧
  parsePages Number (weave t rest)
  = (λ s, match Number s with Some n => TNum n | None => TStr s end)
      <$> (t :: rest.*2).
Proof.
  intros Hne Ht Hrest.
  assert (tokens (weave t rest) = t :: rest.*2) as Htok.
  { unfold tokens, split. rewrite trim_weave, split_go_weave; try done.
    eapply Forall_impl; [exact Hrest|]. simpl. tauto. }
  split; [done|]. unfold parsePages. rewrite Htok.
  case_decide as E; [|done].
  destruct t; [done|]. by destruct rest as [|[? ?] ?].
Qed.

Lemma split_go_head s cur :
  cur ≠ [] → head (split_go cur false s) ≠ Some [].
Proof.
  revert cur. induction s as [|c s IH]; intros cur Hne; simpl.
  - intros [= E]. by rewrite <- (reverse_involutive cur), E in Hne.
  - destruct (isSeparator c); simpl.
    + intros [= E]. by rewrite <- (reverse_involutive cur), E in Hne.
    + by apply IH.
Qed.

Lemma trimStart_head s :
  trimStart s = [] ∨ ∃ c s', trimStart s = c :: s' ∧ isSpace c = false.
Proof.
  induction s as [|c s IH]; simpl; [by left|].
  destruct (isSpace c) eqn:Hc; [done|]. right. by exists c, s.
Qed.

Lemma trim_head s :
  trim s = [] ∨ ∃ c s', trim s = c :: s' ∧ isSpace c = false.
Proof.
  unfold trim. destruct (trimStart_head s) as [->|(c & s' & -> & Hc)];
    [by left|].
  destruct (trimStart_head (reverse (c :: s'))) as [E|(c' & l & E & Hc')].
  { rewrite reverse_cons in E.
    assert (trimStart (reverse s' ++ [c]) ≠ []) as Hne; [|done]. clear E.
    induction (reverse s') as [|c0 l IH]; simpl; [by rewrite Hc|].
    by destruct (isSpace c0). }
  rewrite E. right.
  assert (∀ l0 l1, trimStart l0 = l1 → ∃ l2, l0 = l2 ++ l1) as Hsuf.
  { clear. induction l0 as [|c l0 IH]; intros l1; simpl.
    - intros <-. by exists [].
    - destruct (isSpace c).
      + intros (l2 & ->)%IH. by exists (c :: l2).
      + intros <-. by exists []. }
  apply Hsuf in E as (l2 & E).
  apply (f_equal reverse) in E.
  rewrite reverse_involutive, reverse_app, (reverse_cons l c') in E.
  rewrite (reverse_cons l c').
  destruct (reverse l) as [|c1 l1]; simpl in *.
  - injection E as E _. subst. by eexists _, _.
  - injection E as E _. subst. by eexists _, _.
Qed.

(** X21. The pieces [parsePages] converts hold no blank, comma or
    semicolon; only the first and the last of them can be empty; and the
    first one is empty exactly when the trimmed text is empty or starts
    with a comma or a semicolon. *)
Theorem X21_tokens_shape input :
  Forall (Forall (λ c, isSeparator c = false)) (tokens input) ∧
  (∀ i, tokens input !! i = Some [] →
        i = 0 ∨ i = length (tokens input) - 1) ∧
  (head (tokens input) = Some [] ↔
     trim input = []
     ∨ ∃ c, head (trim input) = Some c ∧ (c = 44 ∨ c = 59)%N).
Proof.
  unfold tokens, split. split; [by apply split_go_clean|]. split.
  { intros i [?|(? & _)]%split_go_empty; auto. }
  destruct (trim_head input) as [->|(c & l & -> & Hc)].
  { simpl. split; auto. }
  simpl. unfold isSeparator. rewrite Hc. simpl.
  destruct (bool_decide (c = 44%N) || bool_decide (c = 59%N)) eqn:Hsep.
  - simpl. split; [|done]. intros _. right. exists c. split; [done|].
    apply orb_true_iff in Hsep as [?%bool_decide_eq_true
      |?%bool_decide_eq_true]; auto.
  - apply orb_false_iff in Hsep as [?%bool_decide_eq_false
      ?%bool_decide_eq_false]. split.
    + intros E. by apply split_go_head in E.
    + intros [[=]|(c' & [= <-] & [?|?])]; done.
Qed.
End ParseFacts.

(** ** The properties at concrete runs *)

Lemma C1_steps_and_totals_witness :
  let res := computeSteps scenario1 3 "lru" in
  (1 ≤ 3)%Z ∧ recognised "lru"
  ∧ length (steps res) = 8 ∧ faults (totals res) + hits (totals res) = 8.
Proof.
  split; [lia|]. split; [right; by left|].
  pose proof (C1_steps_and_totals scenario1 3 "lru"
                ltac:(lia) ltac:(right; by left)) as (Hlen & Hcnt & _).
  split; [exact Hlen|exact Hcnt].
Defined.

Lemma C5_hit_iff_resident_witness :
  let res := computeSteps scenario1 3 "fifo" in
  let r := mkStep 4 0%Z [2; 0; 1]%Z true (-1) Hit in
  steps res !! 4 = Some r
  ∧ (hit r = true ↔ page r ∈ framesBefore (steps res) 4)
  ∧ scenario1 !! 4 = Some (page r)
  ∧ framesBefore (steps res) 4 = v_memory (varsAt scenario1 3 "fifo" 4).
Proof.
  assert (steps (computeSteps scenario1 3 "fifo") !! 4
          = Some (mkStep 4 0%Z [2; 0; 1]%Z true (-1) Hit)) as Hr
    by reflexivity.
  split; [exact Hr|].
  destruct (C5_hit_iff_resident _ _ _ _ _ Hr) as [Hiff Hrec].
  destruct Hrec as (Hp & Hm & _); [lia|by left|].
  split; [exact Hiff|]. split; [exact Hp|exact Hm].
Defined.

Lemma C7_replacedIndex_witness :
  let res := computeSteps [7; 0; 1; 2]%Z 3 "fifo" in
  let r := mkStep 1 0%Z [7; 0]%Z false 1 PlacedIntoFreeSlot in
  (1 ≤ 3)%Z ∧ recognised "fifo" ∧ steps res !! 1 = Some r
  ∧ (replacedIndex r = (-1)%Z ↔ hit r = true)
  ∧ replacedIndex r = Z.of_nat (length (framesBefore (steps res) 1))
  ∧ memory r = framesBefore (steps res) 1 ++ [page r].
Proof.
  assert (steps (computeSteps [7; 0; 1; 2]%Z 3 "fifo") !! 1
          = Some (mkStep 1 0%Z [7; 0]%Z false 1 PlacedIntoFreeSlot)) as Hr
    by reflexivity.
  split; [lia|]. split; [by left|]. split; [exact Hr|].
  destruct (C7_replacedIndex [7; 0; 1; 2]%Z 3 "fifo" 1
              (mkStep 1 0%Z [7; 0]%Z false 1 PlacedIntoFreeSlot))
    as (Hiff & Hfree & _); [lia|by left|exact Hr|].
  split; [exact Hiff|]. apply Hfree; [reflexivity|]. simpl. lia.
Defined.

(** C7 as the specification words it fails: a fault that fills a free slot
    records that slot's index, not [-1]. *)
Lemma C7_counterexample :
  ¬ (∀ (pages : list Z) C algo i r,
       (1 ≤ C)%Z → recognised algo →
       steps (computeSteps pages C algo) !! i = Some r →
       hit r = true
       ∨ (hit r = false
          ∧ (Z.of_nat (length (framesBefore
                                 (steps (computeSteps pages C algo)) i)) < C)%Z) →
       replacedIndex r = (-1)%Z).
Proof.
  intros Hall.
  specialize (Hall [7]%Z 3%Z "fifo" 0
                (mkStep 0 7%Z [7]%Z false 0 PlacedIntoFreeSlot)).
  discriminate Hall; [lia|by left|reflexivity|].
  right. split; [reflexivity|]. simpl. lia.
Qed.

Lemma C8_frame_effect_witness :
  let res := computeSteps scenario1 3 "optimal" in
  let r := mkStep 3 2%Z [7; 0; 2]%Z false 2 (OptimalReplaced (Some 1%Z)) in
  (1 ≤ 3)%Z ∧ recognised "optimal" ∧ steps res !! 3 = Some r
  ∧ hit r = false ∧ Z.of_nat (length (framesBefore (steps res) 3)) = 3%Z
  ∧ Z.of_nat (length (memory r)) = 3%Z
  ∧ ∃ k, replacedIndex r = Z.of_nat k
         ∧ k < length (framesBefore (steps res) 3)
         ∧ memory r !! k = Some (page r)
         ∧ ∀ j, j ≠ k → memory r !! j = framesBefore (steps res) 3 !! j.
Proof.
  assert (steps (computeSteps scenario1 3 "optimal") !! 3
          = Some (mkStep 3 2%Z [7; 0; 2]%Z false 2
                    (OptimalReplaced (Some 1%Z)))) as Hr
    by reflexivity.
  split; [lia|]. split; [right; by right|]. split; [exact Hr|].
  split; [reflexivity|]. split; [reflexivity|].
  destruct (C8_frame_effect scenario1 3 "optimal" 3
              (mkStep 3 2%Z [7; 0; 2]%Z false 2 (OptimalReplaced (Some 1%Z))))
    as [_ Hfull]; [lia|right; by right|exact Hr|].
  apply Hfull; reflexivity.
Defined.

(** C6 as the specification words it fails: a capacity of zero and an
    unrecognised selector are both answered with a result, the second one
    with the record of access 1 missing. *)
Lemma C6_counterexample :
  (0 < 1)%Z
  ∧ computeSteps_completion [1; 2]%Z 0 "fifo" =
      Returned (mkResult [mkStep 0 1%Z [1]%Z false (-1) (FifoReplaced None);
                          mkStep 1 2%Z [2]%Z false 0 (FifoReplaced (Some 1%Z))]
                         (mkTotals 2 0))
  ∧ computeSteps_completion [1; 2]%Z 0 "fifo" ≠ Threw InvalidCapacity
  ∧ ¬ recognised "random"
  ∧ computeSteps_completion [1; 2; 1]%Z 1 "random" =
      Returned (mkResult [mkStep 0 1%Z [1]%Z false 0 PlacedIntoFreeSlot;
                          mkStep 2 1%Z [1]%Z true (-1) Hit]
                         (mkTotals 2 1))
  ∧ computeSteps_completion [1; 2; 1]%Z 1 "random" ≠ Threw UnknownAlgorithm.
Proof.
  split_and!; [lia|reflexivity|discriminate| |reflexivity|discriminate].
  by intros [?|[?|?]].
Qed.

(** C9 as the specification words it fails: FIFO on scenario 1 does not
    give six faults and two hits. *)
Lemma C9_counterexample :
  let res := computeSteps scenario1 3 "fifo" in
  ¬ (faults (totals res) = 6 ∧ hits (totals res) = 2
     ∧ ∃ r, steps res !! 3 = Some r ∧ info r = FifoReplaced (Some 7%Z)).
Proof. intros res [Hf _]. vm_compute in Hf. discriminate Hf. Qed.

(** C9, as the code has it.  On pages 7 0 1 2 0 3 0 4 with three frames,
    FIFO gives seven faults and one hit (the only hit is page 0 at index 4:
    page 0 is evicted at index 5 and faults again at index 6), and the step
    for page 2 at index 3 evicts page 7, from slot 0. *)
Theorem C9_scenario1_fifo :
  let res := computeSteps scenario1 3 "fifo" in
  faults (totals res) = 7 ∧ hits (totals res) = 1
  ∧ steps res !! 3 =
      Some (mkStep 3 2%Z [2; 0; 1]%Z false 0 (FifoReplaced (Some 7%Z)))
  ∧ hit <$> steps res =
      [false; false; false; false; true; false; false; false].
Proof. vm_compute. by split_and!. Qed.


(** The FIFO victim is found through the queue, not at the first slot: at
    index 5 of scenario 1 the frames are 2 0 1, slot 0 holds page 2, placed
    at index 3, and the page evicted is page 0 in slot 1, placed at
    index 1. *)
Example fifo_victim_not_first_slot :
  let st := steps (computeSteps scenario1 3 "fifo") in
  framesBefore st 5 = [2; 0; 1]%Z
  ∧ v_fifoQueue (varsAt scenario1 3 "fifo" 5) = [0; 1; 2]%Z
  ∧ (replacedIndex <$> st !! 5) = Some 1%Z
  ∧ placedAt st 5 2%Z = 3%Z ∧ placedAt st 5 0%Z = 1%Z.
Proof. vm_compute. by split_and!. Qed.


(** Scenario 3 of the specification. *)
Lemma C4_optimal_victim_witness :
  let pages := [1; 2; 3; 4; 3; 2]%Z in
  let st := steps (computeSteps pages 3 "optimal") in
  let r := mkStep 3 4%Z [4; 2; 3]%Z false 0 (OptimalReplaced (Some 1%Z)) in
  let before := framesBefore st 3 in
  (1 ≤ 3)%Z ∧ st !! 3 = Some r ∧ hit r = false
  ∧ Z.of_nat (length before) = 3%Z
  ∧ ∃ k v, replacedIndex r = Z.of_nat k ∧ before !! k = Some v
      ∧ info r = OptimalReplaced (Some v)
      ∧ memory r = <[k:=page r]> before
      ∧ (v ∉ memory r)
      ∧ (∀ q, q ∈ memory r ↔ q = page r ∨ (q ∈ before ∧ q ≠ v))
      ∧ (∀ q, q ∈ before → num_le (nextUse pages 3 q) (nextUse pages 3 v))
      ∧ (nextUse pages 3 v = PosInf →
         ∀ j q, k < j → before !! j = Some q → nextUse pages 3 q ≠ PosInf)
      ∧ (∀ q a b, q ∈ before → nextUse pages 3 v = Fin a →
                  nextUse pages 3 q = Fin b → (b ≤ a)%Z).
Proof.
  assert (steps (computeSteps [1; 2; 3; 4; 3; 2]%Z 3 "optimal") !! 3
          = Some (mkStep 3 4%Z [4; 2; 3]%Z false 0
                    (OptimalReplaced (Some 1%Z)))) as Hr
    by reflexivity.
  split; [lia|]. split; [exact Hr|]. split; [reflexivity|].
  split; [reflexivity|].
  apply (C4_optimal_victim [1; 2; 3; 4; 3; 2]%Z 3 3
           (mkStep 3 4%Z [4; 2; 3]%Z false 0 (OptimalReplaced (Some 1%Z))));
    [lia|exact Hr|reflexivity|reflexivity].
Defined.

Lemma C10_simulate_agrees_witness :
  let pages := Some <$> scenario1 in
  (1 ≤ 3)%Z ∧ recognised "optimal"
  ∧ Forall (λ p, number_isNaN p = false) pages
  ∧ hit <$> steps (computeSteps pages 3 "optimal")
    = snd <$> sim_output (simulate number_isNaN pages 3 "optimal")
  ∧ faults (totals (computeSteps pages 3 "optimal"))
    = sim_faults (simulate number_isNaN pages 3 "optimal").
Proof.
  assert (Forall (λ p, number_isNaN p = false) (Some <$> scenario1)) as Hnan
    by (repeat constructor).
  split; [lia|]. split; [right; by right|]. split; [exact Hnan|].
  apply (C10_simulate_agrees number_isNaN (Some <$> scenario1) 3 "optimal");
    [lia|right; by right|exact Hnan].
Defined.

(** C10 as the claim words it, for every page sequence, fails: the pages
    of [simulate] come from [Number] and can be NaN.  On the text
    [x 1 2 x 3 x] with three frames under LRU, NaN is resident at index 4
    and last used at index 3, but [past.lastIndexOf(NaN)] is [-1], so
    [simulate] takes NaN for the least recently used page, evicts it and
    faults on it at index 5; [computeSteps] reads its last use from
    [meta.lastUsed], evicts page 1, the only page it searches for with
    [indexOf] in this run, and hits at index 5. *)
Lemma C10_counterexample :
  ¬ (∀ (isNaN : option Z → bool) (pages : list (option Z)) C algo,
       (1 ≤ C)%Z → recognised algo →
       hit <$> steps (computeSteps pages C algo)
       = snd <$> sim_output (simulate isNaN pages C algo)
       ∧ faults (totals (computeSteps pages C algo))
         = sim_faults (simulate isNaN pages C algo)).
Proof.
  intros Hall.
  destruct (Hall number_isNaN pagesNaN 3%Z "lru") as [Hhits _];
    [lia|right; by left|].
  vm_compute in Hhits. discriminate Hhits.
Qed.

(** The run behind it: the classifications and the fault counts of the
    two implementations on [x 1 2 x 3 x]. *)
Example simulate_NaN_run :
  hit <$> steps (computeSteps pagesNaN 3 "lru")
  = [false; false; false; true; false; true]
  ∧ snd <$> sim_output (simulate number_isNaN pagesNaN 3 "lru")
    = [false; false; false; true; false; false]
  ∧ faults (totals (computeSteps pagesNaN 3 "lru")) = 4
  ∧ sim_faults (simulate number_isNaN pagesNaN 3 "lru") = 5
  ∧ (λ o, o.1.2) <$> sim_output (simulate number_isNaN pagesNaN 3 "lru")
    = [[None]; [None; Some 1]; [None; Some 1; Some 2];
       [None; Some 1; Some 2]; [Some 1; Some 2; Some 3];
       [Some 2; Some 3; None]]%Z.
Proof. vm_compute. by repeat split. Qed.

(** The two implementations agree on hits and faults, not on frames:
    under Optimal on scenario 1 they evict different pages at index 3,
    both never used again. *)
Example simulate_frames_differ :
  (memory <$> steps (computeSteps scenario1 3 "optimal") !! 3)
  = Some [7; 0; 2]%Z
  ∧ (λ o, o.1.2) <$> sim_output (simulate (λ _, false) scenario1 3 "optimal") !! 3
    = Some [0; 1; 2]%Z.
Proof. vm_compute. by split. Qed.
(** ** Further properties at concrete runs *)

Ltac loaded_ok := repeat split; try reflexivity; by left.
Ltac offered_ok :=
  unfold session1; simpl;
  repeat (apply Forall_cons; split); try apply Forall_nil_2; try exact I;
  simpl; right; by left.

Lemma X1_frames_wellformed_witness :
  let r := mkStep 5 3%Z [2; 0; 3]%Z false 2 (LruReplaced (Some 1%Z)) in
  steps (computeSteps scenario1 3 "lru") !! 5 = Some r
  ∧ (Z.of_nat (length (memory r)) ≤ 3)%Z ∧ NoDup (memory r)
  ∧ page r ∈ memory r ∧ ∀ q, q ∈ memory r → q ∈ take 6 scenario1.
Proof.
  assert (steps (computeSteps scenario1 3 "lru") !! 5
          = Some (mkStep 5 3%Z [2; 0; 3]%Z false 2 (LruReplaced (Some 1%Z))))
    as Hr by reflexivity.
  split; [exact Hr|].
  apply (X1_frames_wellformed scenario1 3 "lru" 5 _); [lia|right; by left|].
  exact Hr.
Defined.

Lemma X2_bookkeeping_witness :
  Bookkeeping scenario1 6 (varsAt scenario1 3 "optimal" 6).
Proof.
  apply (X2_bookkeeping scenario1 3 "optimal" 6); [lia|by do 2 right|].
  simpl. lia.
Defined.

Lemma X4_no_eviction_when_fits_witness :
  let res := computeSteps scenario1 6 "fifo" in
  faults (totals res) = length (remove_dups scenario1)
  ∧ length (steps res) = length scenario1
  ∧ Forall (λ r, info r = Hit ∨ info r = PlacedIntoFreeSlot) (steps res).
Proof.
  apply (X4_no_eviction_when_fits scenario1 6 "fifo"). vm_compute.
  discriminate.
Defined.

Lemma X5_single_frame_witness :
  let r := mkStep 1 7%Z [7]%Z true (-1) Hit in
  steps (computeSteps [7; 7; 0]%Z 1 "lru") !! 1 = Some r
  ∧ memory r = [page r]
  ∧ (hit r = true ↔ ∃ j, 1 = S j ∧ [7; 7; 0]%Z !! j = Some (page r)).
Proof.
  assert (steps (computeSteps [7; 7; 0]%Z 1 "lru") !! 1
          = Some (mkStep 1 7%Z [7]%Z true (-1) Hit)) as Hr by reflexivity.
  split; [exact Hr|].
  apply (X5_single_frame [7; 7; 0]%Z "lru" 1 _); [right; by left|exact Hr].
Defined.

Lemma X6_lru_recency_witness :
  let r := mkStep 5 3%Z [2; 0; 3]%Z false 2 (LruReplaced (Some 1%Z)) in
  steps (computeSteps scenario1 3 "lru") !! 5 = Some r
  ∧ memory r ≡ₚ take (Z.to_nat 3) (mru (take 6 scenario1)).
Proof.
  assert (steps (computeSteps scenario1 3 "lru") !! 5
          = Some (mkStep 5 3%Z [2; 0; 3]%Z false 2 (LruReplaced (Some 1%Z))))
    as Hr by reflexivity.
  split; [exact Hr|].
  apply (X6_lru_recency scenario1 3 5 _); [lia|exact Hr].
Defined.

Lemma X7_lru_inclusion_witness :
  faults (totals (computeSteps scenario1 4 "lru"))
  ≤ faults (totals (computeSteps scenario1 3 "lru")).
Proof. apply (X7_lru_inclusion scenario1 3 4); lia. Defined.

Lemma X8_simulate_frames_witness :
  length (sim_output (simulate number_isNaN pagesNaN 3 "lru"))
  = length pagesNaN
  ∧ ∀ i o, sim_output (simulate number_isNaN pagesNaN 3 "lru") !! i = Some o →
      pagesNaN !! i = Some o.1.1
      ∧ (Z.of_nat (length o.1.2) ≤ 3)%Z ∧ NoDup o.1.2 ∧ o.1.1 ∈ o.1.2.
Proof.
  apply (X8_simulate_frames number_isNaN pagesNaN 3 "lru");
    [lia|right; by left].
Defined.

Lemma X9_simulate_unrecognised_witness :
  let t := simulate number_isNaN pagesNaN 3 "clock" in
  NoDup (sim_memory t) ∧ (∀ q, q ∈ sim_memory t ↔ q ∈ pagesNaN)
  ∧ length (sim_memory t) = length (remove_dups pagesNaN)
  ∧ sim_faults t = length (remove_dups pagesNaN).
Proof.
  apply (X9_simulate_unrecognised number_isNaN pagesNaN 3 "clock").
  intros [?|[?|?]]; discriminate.
Defined.

Lemma X10_computeSteps_unrecognised_witness :
  let res := computeSteps scenario1 3 "clock" in
  let final := v_memory (varsAt scenario1 3 "clock" (length scenario1)) in
  Forall (λ r, info r = Hit ∨ info r = PlacedIntoFreeSlot) (steps res)
  ∧ length (steps res) = hits (totals res) + length final
  ∧ Z.of_nat (length final)
    = Z.min 3 (Z.of_nat (length (remove_dups scenario1))).
Proof.
  apply (X10_computeSteps_unrecognised scenario1 3 "clock"); [|lia].
  intros [?|[?|?]]; discriminate.
Defined.

Lemma X12_totals_are_record_counts_witness :
  let res := computeSteps scenario1 3 "fifo" in
  faults (totals res) = length (filter (λ s, hit s = false) (steps res))
  ∧ hits (totals res) = length (filter (λ s, hit s = true) (steps res)).
Proof.
  apply (X12_totals_are_record_counts scenario1 3 "fifo"); [lia|by left].
Defined.

Lemma X13_current_in_range_witness :
  let u' := foldl handle page0
              (session1 ++ [ClickCard 20; ClickStepBack; ClickStepBack]) in
  (ui_current u' = (-1)%Z
   ∨ (0 ≤ ui_current u' < Z.of_nat (length (ui_steps u')))%Z)
  ∧ ui_cards u' = length (ui_steps u').
Proof. apply X13_current_in_range; [loaded_ok|offered_ok]. Defined.

Lemma X14_one_timer_witness :
  let u' := foldl handle page0
              (session1 ++ [ClickPlayPause; ClickPlayPause; ClickPlayPause]) in
  (ui_playing u' = true ↔ ∃ h, ui_timer u' = Some h)
  ∧ ui_intervals u' = match ui_timer u' with Some h => [h] | None => [] end
  ∧ (ui_playing u' = true → ui_steps u' ≠ [])
  ∧ ui_playLabel u' = (if ui_playing u' then Pause else Play).
Proof. apply X14_one_timer; [loaded_ok|offered_ok]. Defined.

Lemma X15_counters_witness :
  let u' := foldl handle page0 (session1 ++ [ClickCard 7]) in
  (0 ≤ ui_current u')%Z
  ∧ ui_totalSteps u' = 8%Z
  ∧ (ui_faultsCount u' + ui_hitsCount u' = ui_current u' + 1)%Z
  ∧ ui_incoming u' = page <$> ui_steps u' !! Z.to_nat (ui_current u').
Proof.
  intros u'.
  assert (0 ≤ ui_current u')%Z as Hcur by (vm_compute; discriminate).
  split; [exact Hcur|].
  destruct (X15_counters page0 (session1 ++ [ClickCard 7])
              ltac:(loaded_ok) ltac:(offered_ok) Hcur)
    as (Ht & _ & Hsum & Hin & _).
  split; [exact Ht|]. split; [exact Hsum|exact Hin].
Defined.

Lemma X16_target_slot_witness :
  let u' := foldl handle page0 session1 in
  let st := mkStep 5 3%Z [2; 0; 3]%Z false 2 (LruReplaced (Some 1%Z)) in
  ui_steps u' !! 5 = Some st
  ∧ (0 ≤ targetIdx st < Z.of_nat (ui_slots u'))%Z
  ∧ memory st !! Z.to_nat (targetIdx st) = Some (page st).
Proof.
  intros u' st. assert (ui_steps u' !! 5 = Some st) as Hst by reflexivity.
  split; [exact Hst|].
  destruct (X16_target_slot page0 session1 5 st
              ltac:(loaded_ok) ltac:(offered_ok) Hst)
    as (Ht & _ & _ & Hf & _).
  split; [exact Ht|]. apply Hf. reflexivity.
Defined.

Lemma X17_play_runs_to_end_witness :
  let u1 := foldl handle page0 (session1 ++ [ClickPlayPause]) in
  let u3 := foldl handle u1 (replicate 8 (Fire 1)) in
  ui_timer u1 = Some 1
  ∧ ui_current u3 = 7%Z ∧ ui_playing u3 = false ∧ ui_timer u3 = None
  ∧ ui_intervals u3 = [].
Proof.
  intros u1 u3. assert (ui_timer u1 = Some 1) as Hh by reflexivity.
  split; [exact Hh|].
  destruct (X17_play_runs_to_end page0 (session1 ++ [ClickPlayPause]) 1
              ltac:(loaded_ok) ltac:(offered_ok) Hh) as [_ Hend].
  exact Hend.
Defined.

Lemma X18_forward_back_witness :
  let u1 := foldl handle page0 (session1 ++ [ClickCard 3; ClickPlayPause]) in
  ui_playing u1 = true
  ∧ handle (handle u1 ClickStepForward) ClickStepBack = stopPlaying u1
  ∧ ui_current (handle (handle u1 ClickStepForward) ClickStepBack) = 3%Z
  ∧ handle (handle u1 ClickStepBack) ClickStepForward = stopPlaying u1
  ∧ ui_playing (stopPlaying u1) = false.
Proof.
  intros u1.
  destruct (X18_forward_back page0 (session1 ++ [ClickCard 3; ClickPlayPause])
              ltac:(loaded_ok) ltac:(offered_ok)) as (Hfb & Hbf & _).
  fold u1 in Hfb, Hbf.
  destruct Hfb as [Hfb Hcur]; [vm_compute; split; congruence|].
  destruct Hbf as [Hbf _]; [vm_compute; congruence|].
  split; [reflexivity|]. split; [exact Hfb|]. split; [exact Hcur|].
  split; [exact Hbf|reflexivity].
Defined.

(** The text [7 0, 1]. *)
Lemma X20_parsePages_pieces_witness :
  parsePages (λ _, @None Z) [55; 32; 48; 44; 32; 49]%N
  = [TStr [55]; TStr [48]; TStr [49]]%N.
Proof.
  apply (X20_parsePages_pieces (λ _, @None Z) [55]%N
           [([32], [48]); ([44; 32], [49])]%N); [done|..].
  - repeat constructor.
  - repeat constructor; done.
Defined.
